(** * Plume: the compression job orchestrator

    A shallow embedding of [src/domain/compression/schema.ts]
    ([resolveCompressionParams]) and of the zustand store
    [src/store/imageStore.ts] ([addImages], [removeImage],
    [startCompression], [updateImageProgress],
    [initializeProgressListener] and the settings actions), with the
    properties of the orchestrator stated over them. *)

From Stdlib Require Import ZArith QArith Qround Lia Lqa Ascii String SpecFloat.
From stdpp Require Import gmap strings list pretty.

Local Open Scope Z_scope.
Local Open Scope string_scope.

(** ** Settings resolver ([domain/compression/schema.ts]) *)

Module Schema.

(** [OutputFormatSchema = z.enum(['keep', 'webp', 'jpeg', 'png'])]. *)
Inductive OutputFormatType := Keep | Webp | Jpeg | Png.

(** [CompressionLevelSchema = z.enum(['light', 'balanced', 'aggressive'])]. *)
Inductive CompressionLevelType := Light | Balanced | Aggressive.

#[export] Instance OutputFormatType_eq_dec : EqDecision OutputFormatType.
Proof. solve_decision. Defined.

#[export] Instance CompressionLevelType_eq_dec : EqDecision CompressionLevelType.
Proof. solve_decision. Defined.

(** [ResolvedCompressionParams]; [format] is the wire format sent to the
    backend, one of ['webp' | 'jpeg' | 'png' | 'auto']. *)
Record ResolvedCompressionParams := {
  quality : Z;
  format : string;
  lossy : bool;
}.

(** The local [effectiveFormat : 'webp' | 'jpeg' | 'png' | 'auto']. *)
Inductive EffectiveFormat := EffWebp | EffJpeg | EffPng | EffAuto.

Definition QUALITY_MAP (level : CompressionLevelType) : Z :=
  match level with Light => 100 | Balanced => 80 | Aggressive => 60 end.

Definition MOZJPEG_QUALITY_MAP (level : CompressionLevelType) : Z :=
  match level with Light => 92 | Balanced => 80 | Aggressive => 60 end.

(** [level === 'light'] *)
Definition is_light (level : CompressionLevelType) : bool :=
  match level with Light => true | _ => false end.

(** [resolveCompressionParams(outputFormat, level, imageFormat)].  The
    image format is the display string of the source image
    (['PNG'], ['JPEG'], ['WEBP'], ['HEIC'], ...); the function only compares
    it with literals, so every string is accepted here. *)
Definition resolveCompressionParams
    (outputFormat : OutputFormatType) (level : CompressionLevelType)
    (imageFormat : string) : ResolvedCompressionParams :=
  let isHeic := String.eqb imageFormat "HEIC" in
  let effectiveFormat :=
    match outputFormat with
    | Keep => if isHeic then EffJpeg else EffAuto
    | Webp => EffWebp
    | Jpeg => EffJpeg
    | Png => EffPng
    end in
  match effectiveFormat with
  | EffWebp =>
      let isLossless := is_light level in
      {| quality := QUALITY_MAP level; format := "webp"; lossy := negb isLossless |}
  | EffJpeg =>
      {| quality := MOZJPEG_QUALITY_MAP level; format := "jpeg"; lossy := true |}
  | EffPng =>
      {| quality := 100; format := "png"; lossy := false |}
  | EffAuto =>
      if String.eqb imageFormat "WEBP" then
        let isLossless := is_light level in
        {| quality := QUALITY_MAP level; format := "auto"; lossy := negb isLossless |}
      else if String.eqb imageFormat "JPEG" then
        {| quality := MOZJPEG_QUALITY_MAP level; format := "auto"; lossy := true |}
      else
        {| quality := 100; format := "auto"; lossy := false |}
  end.

(** The table of the specification (section 4.2), written from its words:
    first the effective format, then one rule per effective format. *)
Definition spec_effective (outputFormat : OutputFormatType) (sourceFormat : string)
    : EffectiveFormat :=
  match outputFormat with
  | Keep => if decide (sourceFormat = "HEIC") then EffJpeg else EffAuto
  | Webp => EffWebp
  | Jpeg => EffJpeg
  | Png => EffPng
  end.

Definition spec_webp_rule (level : CompressionLevelType) : Z * bool :=
  (match level with Light => 100 | Balanced => 80 | Aggressive => 60 end,
   match level with Light => false | _ => true end).

Definition spec_jpeg_rule (level : CompressionLevelType) : Z * bool :=
  (match level with Light => 92 | Balanced => 80 | Aggressive => 60 end, true).

Definition spec_table (outputFormat : OutputFormatType) (level : CompressionLevelType)
    (sourceFormat : string) : ResolvedCompressionParams :=
  match spec_effective outputFormat sourceFormat with
  | EffWebp =>
      {| quality := (spec_webp_rule level).1; format := "webp";
         lossy := (spec_webp_rule level).2 |}
  | EffJpeg =>
      {| quality := (spec_jpeg_rule level).1; format := "jpeg";
         lossy := (spec_jpeg_rule level).2 |}
  | EffPng => {| quality := 100; format := "png"; lossy := false |}
  | EffAuto =>
      if decide (sourceFormat = "WEBP") then
        {| quality := (spec_webp_rule level).1; format := "auto";
           lossy := (spec_webp_rule level).2 |}
      else if decide (sourceFormat = "JPEG") then
        {| quality := (spec_jpeg_rule level).1; format := "auto";
           lossy := (spec_jpeg_rule level).2 |}
      else {| quality := 100; format := "auto"; lossy := false |}
  end.

End Schema.

(** ** Thrown values

    A JavaScript call either returns or throws; the thrown value is kept as
    the text that [String(error)] would give. *)
Inductive Outcome (A : Type) : Type :=
| Ok (a : A)
| Throw (error : string).
Arguments Ok {A} a.
Arguments Throw {A} error.

(** [Array.prototype.map] with a callback that may throw: the first throw
    aborts the whole map. *)
Fixpoint mapM {A B : Type} (f : A -> Outcome B) (l : list A) : Outcome (list B) :=
  match l with
  | [] => Ok []
  | x :: l' =>
      match f x with
      | Throw e => Throw e
      | Ok y =>
          match mapM f l' with
          | Throw e => Throw e
          | Ok ys => Ok (y :: ys)
          end
      end
  end.

(** ASCII part of [String.prototype.toUpperCase]. *)
Definition upper_ascii (c : ascii) : ascii :=
  let n := nat_of_ascii c in
  if ((97 <=? n)%nat && (n <=? 122)%nat)%bool then ascii_of_nat (n - 32) else c.

Fixpoint toUpperCase (s : string) : string :=
  match s with
  | EmptyString => EmptyString
  | String c s' => String (upper_ascii c) (toUpperCase s')
  end.

(** ** Image records ([domain/image/entity]) *)

Module Image.

Inductive Status := Pending | Processing | Completed | Error.

#[export] Instance Status_eq_dec : EqDecision Status.
Proof. solve_decision. Defined.

(** The [estimatedCompression] block attached at intake. *)
Record EstimatedCompression := {
  percent : Z;
  ratio : Q;
  confidence : Q;
  sample_count : Z;
}.

(** The data held by an [ImageEntity]: the fields [addImages] fills in,
    and the ones the store reads back ([progress], [compressedSize],
    [outputPath]); an absent optional field is [None]. *)
Record ImageEntity := {
  id : string;
  name : string;
  path : string;
  originalSize : Z;
  format : string;
  preview : string;
  status : Status;
  estimatedCompression : option EstimatedCompression;
  progress : option Z;
  compressedSize : option Z;
  outputPath : option string;
}.

Definition set_status (st : Status) (img : ImageEntity) : ImageEntity :=
  {| id := id img; name := name img; path := path img;
     originalSize := originalSize img; format := format img;
     preview := preview img; status := st;
     estimatedCompression := estimatedCompression img;
     progress := progress img; compressedSize := compressedSize img;
     outputPath := outputPath img |}.

Definition set_progress (p : option Z) (img : ImageEntity) : ImageEntity :=
  {| id := id img; name := name img; path := path img;
     originalSize := originalSize img; format := format img;
     preview := preview img; status := status img;
     estimatedCompression := estimatedCompression img;
     progress := p; compressedSize := compressedSize img;
     outputPath := outputPath img |}.

Definition set_result (size : option Z) (out : option string) (img : ImageEntity)
    : ImageEntity :=
  {| id := id img; name := name img; path := path img;
     originalSize := originalSize img; format := format img;
     preview := preview img; status := status img;
     estimatedCompression := estimatedCompression img;
     progress := progress img; compressedSize := size;
     outputPath := out |}.

(** Modelled from the spec: the class [ImageEntity] of
    [domain/image/entity] is not among the sources.  Section 4.1 gives its
    state machine: [toProcessing(initialProgress)] requires status pending,
    [toCompleted(size, path)] and [toError()] require status processing
    (a violated requirement is a logic error, raised as an exception here;
    the texts of the messages are not specified), and
    [updateProgress(value)] does nothing unless the status is processing
    and otherwise clamps the value into 0..100 and stores it. *)
Definition isPending (img : ImageEntity) : bool :=
  bool_decide (status img = Pending).

Definition isProcessing (img : ImageEntity) : bool :=
  bool_decide (status img = Processing).

Definition isCompleted (img : ImageEntity) : bool :=
  bool_decide (status img = Completed).

Definition toProcessing (initialProgress : Z) (img : ImageEntity)
    : Outcome ImageEntity :=
  if isPending img
  then Ok (set_progress (Some initialProgress) (set_status Processing img))
  else Throw "toProcessing: status is not pending".

Definition toCompleted (size : Z) (out : string) (img : ImageEntity)
    : Outcome ImageEntity :=
  if isProcessing img
  then Ok (set_result (Some size) (Some out) (set_status Completed img))
  else Throw "toCompleted: status is not processing".

Definition toError (img : ImageEntity) : Outcome ImageEntity :=
  if isProcessing img
  then Ok (set_status Error img)
  else Throw "toError: status is not processing".

Definition clamp_percent (value : Z) : Z := Z.max 0 (Z.min 100 value).

Definition updateProgress (value : Z) (img : ImageEntity) : ImageEntity :=
  if isProcessing img
  then set_progress (Some (clamp_percent value)) img
  else img.

(** [withStatus(status)], used by the reset action of the store: the same
    record under another status. *)
Definition withStatus (st : Status) (img : ImageEntity) : ImageEntity :=
  set_status st img.

(** [ImageEntity.fromData(imageData)] on the literal built by [addImages]. *)
Definition fromData (id0 name0 path0 : string) (size : Z) (format0 preview0 : string)
    (est : EstimatedCompression) : ImageEntity :=
  {| id := id0; name := name0; path := path0; originalSize := size;
     format := format0; preview := preview0; status := Pending;
     estimatedCompression := Some est; progress := None;
     compressedSize := None; outputPath := None |}.

End Image.

(** ** The store ([store/imageStore.ts]) *)

Module Store.
Import Image.

(** [CompressImageResponse] and its [result] payload. *)
Record CompressResult := {
  compressed_size : Z;
  output_path : string;
}.

Record CompressImageResponse := {
  success : bool;
  result : option CompressResult;
  error : option string;
}.

(** [CompressionProgressEvent]: [progress] is a JavaScript number, an IEEE
    754 double ([SpecFloat]), documented as a fraction between 0.0 and 1.0. *)
Inductive Stage := Loading | Compressing | Saving | Complete | StageError.

#[export] Instance Stage_eq_dec : EqDecision Stage.
Proof. solve_decision. Defined.

Record CompressionProgressEvent := {
  image_id : string;
  image_name : string;
  stage : Stage;
  event_progress : spec_float;
  estimated_time_remaining : option Q;
}.

(** [CompressionState = 'idle' | 'processing' | 'completed' | 'error'] *)
Inductive CompressionState :=
| StateIdle | StateProcessing | StateCompleted | StateError.

Record CompressionSettings := {
  quality : Z;
  keepOriginalFormat : bool;
}.

(** [Partial<CompressionSettings>]: a key is absent ([None]) or holds a
    value of its type.  A key written with the value [undefined], which
    the object spread would copy, is not represented. *)
Record PartialSettings := {
  new_quality : option Z;
  new_keepOriginalFormat : option bool;
}.

(** The state held by [useImageStore]. [progressState] is the object
    [Record<string, { progress: number }>]. *)
Record ImageStore := {
  images : list ImageEntity;
  compressionState : CompressionState;
  isProcessing : bool;
  compressionSettings : CompressionSettings;
  progressState : gmap string Z;
}.

Definition initial : ImageStore :=
  {| images := []; compressionState := StateIdle; isProcessing := false;
     compressionSettings := {| quality := 80; keepOriginalFormat := false |};
     progressState := ∅ |}.

(** [set({ images: ... })] and the other partial updates of [set]. *)
Definition set_images (imgs : list ImageEntity) (s : ImageStore) : ImageStore :=
  {| images := imgs; compressionState := compressionState s;
     isProcessing := isProcessing s; compressionSettings := compressionSettings s;
     progressState := progressState s |}.

Definition set_compressionState (c : CompressionState) (s : ImageStore) : ImageStore :=
  {| images := images s; compressionState := c;
     isProcessing := isProcessing s; compressionSettings := compressionSettings s;
     progressState := progressState s |}.

Definition set_isProcessing (b : bool) (s : ImageStore) : ImageStore :=
  {| images := images s; compressionState := compressionState s;
     isProcessing := b; compressionSettings := compressionSettings s;
     progressState := progressState s |}.

Definition set_compressionSettings (c : CompressionSettings) (s : ImageStore)
    : ImageStore :=
  {| images := images s; compressionState := compressionState s;
     isProcessing := isProcessing s; compressionSettings := c;
     progressState := progressState s |}.

Definition set_progressState (p : gmap string Z) (s : ImageStore) : ImageStore :=
  {| images := images s; compressionState := compressionState s;
     isProcessing := isProcessing s; compressionSettings := compressionSettings s;
     progressState := p |}.

(** [removeImage(imageId)] *)
Definition removeImage (imageId : string) (s : ImageStore) : ImageStore :=
  set_images (filter (λ img, id img ≠ imageId) (images s)) s.

(** [clearImages()] *)
Definition clearImages (s : ImageStore) : ImageStore :=
  set_progressState ∅ (set_compressionState StateIdle (set_images [] s)).

(** [resetProcessingImages()] *)
Definition resetProcessingImages (s : ImageStore) : ImageStore :=
  set_compressionState StateIdle
    (set_isProcessing false
       (set_images
          (fmap (λ img, if decide (status img = Processing)
                       then withStatus Pending img else img) (images s)) s)).

(** [setCompressionSettings(newSettings)]: the object spread keeps the
    fields the partial update does not mention. *)
Definition setCompressionSettings (p : PartialSettings) (s : ImageStore) : ImageStore :=
  set_compressionSettings
    {| quality := default (quality (compressionSettings s)) (new_quality p);
       keepOriginalFormat :=
         default (keepOriginalFormat (compressionSettings s))
                 (new_keepOriginalFormat p) |} s.

(** [toggleWebPConversion()] *)
Definition toggleWebPConversion (s : ImageStore) : ImageStore :=
  set_compressionSettings
    {| quality := quality (compressionSettings s);
       keepOriginalFormat := negb (keepOriginalFormat (compressionSettings s)) |} s.

(** [toggleLossyMode()] *)
Definition toggleLossyMode (s : ImageStore) : ImageStore :=
  set_compressionSettings
    {| quality := if (90 <=? quality (compressionSettings s))%Z then 80 else 95;
       keepOriginalFormat := keepOriginalFormat (compressionSettings s) |} s.

(** [setQuality(quality)] for an integer [quality], the values the slider
    of the controls passes.  [Frame.clamped_quality] is the expression it
    stores over every number, [NaN] included. *)
Definition setQuality (q : Z) (s : ImageStore) : ImageStore :=
  set_compressionSettings
    {| quality := Z.max 1 (Z.min 100 q);
       keepOriginalFormat := keepOriginalFormat (compressionSettings s) |} s.

(** [updateImageProgress(imageId, progress)] *)
Definition updateImageProgress (imageId : string) (p : Z) (s : ImageStore)
    : ImageStore :=
  set_progressState (<[imageId := p]> (progressState s))
    (set_images
       (fmap (λ img, if decide (id img = imageId) then updateProgress p img else img)
            (images s)) s).

(** [set(state => ({ images: state.images.map(img => img.id === imageId ?
    f(img) : img) }))] for a transition [f] of the entity that may throw: a
    throw leaves the store as it was. *)
Definition map_where (imageId : string) (f : ImageEntity -> Outcome ImageEntity)
    (imgs : list ImageEntity) : Outcome (list ImageEntity) :=
  mapM (λ img, if decide (id img = imageId) then f img else Ok img) imgs.

(** The product of two doubles: the exact product rounded to the nearest
    double, ties to even, as IEEE 754 binary64 has it.  The doubles are in
    the canonical form of [SpecFloat] ([valid_binary 53 1024]): a mantissa
    of 53 bits, or fewer at the least exponent. *)
Definition double_mul (x y : spec_float) : spec_float := SFmul 53 1024 x y.

(** The number [100]: 7036874417766400 is 100 times 2 to the 46. *)
Definition hundred : spec_float := S754_finite false 7036874417766400 (-46).

(** The value of a double that is a number. *)
Definition double_value (x : spec_float) : Q :=
  match x with
  | S754_finite s m e =>
      ((if s then -1 else 1) * inject_Z (Z.pos m) * 2 ^ e)%Q
  | _ => 0%Q
  end.

(** [Math.round(x)] of a double that is a number: the nearest integer,
    halves upwards.  The product of a fraction between 0.0 and 1.0 and 100
    is such a double; for [NaN] and the infinities, where [Math.round]
    gives no integer, the percentage has no value in this model and 0
    stands for it. *)
Definition Math_round (x : spec_float) : Z := Qfloor (double_value x + (1 # 2))%Q.

(** The callback registered on the ['compression-progress'] channel by
    [initializeProgressListener], applied to one event.  The result tells
    whether the callback returned or threw. *)
Definition onCompressionProgress (ev : CompressionProgressEvent) (s : ImageStore)
    : Outcome unit * ImageStore :=
  let progressPercent := Math_round (double_mul (event_progress ev) hundred) in
  let s1 := updateImageProgress (image_id ev) progressPercent s in
  match stage ev with
  | StageError =>
      match map_where (image_id ev) toError (images s1) with
      | Ok imgs => (Ok tt, set_images imgs s1)
      | Throw e => (Throw e, s1)
      end
  | _ => (Ok tt, s1)
  end.

(** What happens to the store while the orchestrator is suspended at an
    [await]: the synchronous actions of the store called from the user
    interface, the ticks of the progress estimator ([onProgress] calls
    [updateImageProgress]), the events of the backend, and the final [set]
    of a concurrent [addImages]. *)
Inductive ExternalAction :=
| DoRemoveImage (imageId : string)
| DoClearImages
| DoResetProcessingImages
| DoSetCompressionSettings (p : PartialSettings)
| DoToggleWebPConversion
| DoToggleLossyMode
| DoSetQuality (q : Z)
| DoUpdateImageProgress (imageId : string) (p : Z)
| DoProgressEvent (ev : CompressionProgressEvent)
| DoAppendImages (newImages : list ImageEntity).

(** An exception of the event callback stays in the event loop. *)
Definition external (a : ExternalAction) (s : ImageStore) : ImageStore :=
  match a with
  | DoRemoveImage i => removeImage i s
  | DoClearImages => clearImages s
  | DoResetProcessingImages => resetProcessingImages s
  | DoSetCompressionSettings p => setCompressionSettings p s
  | DoToggleWebPConversion => toggleWebPConversion s
  | DoToggleLossyMode => toggleLossyMode s
  | DoSetQuality q => setQuality q s
  | DoUpdateImageProgress i p => updateImageProgress i p s
  | DoProgressEvent ev => (onCompressionProgress ev s).2
  | DoAppendImages l => set_images (images s ++ l) s
  end.

Definition externals (acts : list ExternalAction) (s : ImageStore) : ImageStore :=
  foldl (λ s a, external a s) s acts.

End Store.

(** ** The orchestrator: [startCompression]

    The store runs on one thread: [startCompression] runs without
    interruption between two [await]s, and at an [await] anything else may
    reach the store before the awaited promise settles.  A run is
    therefore a function of the world it starts in and of a script of the
    environment, which gives for every [await] of every turn the actions
    that arrive meanwhile and the way the promise settles.  Console output
    is left out.  A second call of [startCompression] during a run meets
    the guard and returns at once (it is not among the external actions);
    calls that would start a second loop inside the first are not
    modelled. *)

Module Orchestrator.
Import Image Store.

(** The [request] object of the ['compress_image'] command. *)
Record CompressRequest := {
  file_path : string;
  request_quality : Z;
  request_format : string;
}.

(** The arguments shared by the two telemetry commands. *)
Record RecordArgs := {
  inputFormat : string;
  outputFormat : string;
  args_originalSize : Z;
  args_compressedSize : Z;
  toolVersion : string;
}.

(** The backend commands issued through [invoke]. *)
Inductive Command :=
| compress_image (request : CompressRequest) (imageId : string)
| record_compression_result_with_time (args : RecordArgs) (compressionTimeMs : Z)
| record_compression_result (args : RecordArgs).

(** What a run does that can be observed from outside the loop: the
    records a [set] replaces (with the status the record had), the calls to
    the progress service, the commands sent to the backend and how the
    compress command settles, and the notifications. *)
Inductive Effect :=
| EToProcessing (imageId : string) (from : Status) (initialProgress : Z)
| EToCompleted (imageId : string) (from : Status) (size : Z) (out : string)
| EToError (imageId : string) (from : Status)
| EStartSmartProgress (imageId sourceFormat targetFormat : string)
    (sizeBytes quality : Z)
| ECompleteImageProgress (imageId : string)
| EErrorImageProgress (imageId message : string)
| EInvoke (c : Command)
| ECompressSettled (settled : Outcome CompressImageResponse)
| EToastError (message : string).

(** The store, the sessions of the progress service, and the effects so
    far, each with the id of the snapshot image whose turn produced it. *)
Record World := {
  store : ImageStore;
  sessions : gset string;
  trace : list (string * Effect);
}.

Definition with_store (f : ImageStore -> ImageStore) (w : World) : World :=
  {| store := f (store w); sessions := sessions w; trace := trace w |}.

Definition with_sessions (f : gset string -> gset string) (w : World) : World :=
  {| store := store w; sessions := f (sessions w); trace := trace w |}.

Definition with_trace (l : list (string * Effect)) (w : World) : World :=
  {| store := store w; sessions := sessions w; trace := trace w ++ l |}.

(** What the environment does during one turn of the loop: for each
    [await], the actions that reach the store while the loop is suspended
    and the way the awaited promise settles; and the two readings of
    [Date.now()]. *)
Record ImageScript := {
  during_start : list ExternalAction;
  start_settled : Outcome unit;
  started_at : Z;
  during_compress : list ExternalAction;
  compress_settled : Outcome CompressImageResponse;
  settled_at : Z;
  during_record : list ExternalAction;
  record_settled : Outcome unit;
  during_fallback : list ExternalAction;
  fallback_settled : Outcome unit;
}.

(** One script per position in the snapshot. *)
Definition Env := nat -> ImageScript.

(** Computations of the loop: state passing over [World], with exceptions. *)
Definition M (A : Type) : Type := World -> Outcome A * World.

Definition ret {A : Type} (a : A) : M A := λ w, (Ok a, w).

Definition bind {A B : Type} (m : M A) (k : A -> M B) : M B := λ w,
  match m w with
  | (Ok a, w') => k a w'
  | (Throw e, w') => (Throw e, w')
  end.

Notation "'let*' x := m 'in' k" := (bind m (λ x, k))
  (at level 10, x name, m at level 100, k at level 200).
Notation "m >> k" := (bind m (λ _, k)) (at level 100, right associativity).

(** [try { m } catch (error) { h error }] *)
Definition try_catch {A : Type} (m : M A) (h : string -> M A) : M A := λ w,
  match m w with
  | (Ok a, w') => (Ok a, w')
  | (Throw e, w') => h e w'
  end.

(** [try { m } finally { f }] *)
Definition try_finally {A : Type} (m : M A) (f : M unit) : M A := λ w,
  let '(r, w') := m w in
  match f w' with
  | (Ok _, w'') => (r, w'')
  | (Throw e, w'') => (Throw e, w'')
  end.

Definition get : M ImageStore := λ w, (Ok (store w), w).

Definition set (f : ImageStore -> ImageStore) : M unit := λ w,
  (Ok tt, with_store f w).

Definition log (tag : string) (e : Effect) : M unit := λ w,
  (Ok tt, with_trace [(tag, e)] w).

Definition set_sessions (f : gset string -> gset string) : M unit := λ w,
  (Ok tt, with_sessions f w).

(** Suspension at an [await]. *)
Definition await (acts : list ExternalAction) : M unit :=
  set (externals acts).

Definition settle {A : Type} (o : Outcome A) : M A := λ w, (o, w).

(** [set(state => ({ images: state.images.map(img => img.id === imageId ?
    f(img) : img) }))] inside the loop. *)
Definition transition (tag imageId : string) (f : ImageEntity -> Outcome ImageEntity)
    (eff : ImageEntity -> Effect) : M unit := λ w,
  match map_where imageId f (images (store w)) with
  | Ok imgs =>
      (Ok tt,
       with_trace
         (fmap (λ img, (tag, eff img))
              (filter (λ img, id img = imageId) (images (store w))))
         (with_store (set_images imgs) w))
  | Throw e => (Throw e, w)
  end.

(** Modelled from the spec: the progress estimator [progressService] of
    [domain/progress] is not among the sources.  Section 4.4: a session per
    image id; starting a session replaces the one of the same id;
    [completeImageProgress] emits 100 through [onProgress] (here
    [updateImageProgress]) and disposes the session if there is one, and
    does nothing otherwise; [errorImageProgress] calls [onError] (which
    only logs) and disposes the session.  The ticks of a running session
    are among the external actions. *)
Definition startSmartProgress (tag : string) (sc : ImageScript)
    (imageId sourceFormat targetFormat : string) (sizeBytes q : Z) : M unit :=
  log tag (EStartSmartProgress imageId sourceFormat targetFormat sizeBytes q) >>
  await (during_start sc) >>
  settle (start_settled sc) >>
  set_sessions (λ ss, {[imageId]} ∪ ss).

Definition completeImageProgress (tag imageId : string) : M unit :=
  log tag (ECompleteImageProgress imageId) >>
  λ w, if decide (imageId ∈ sessions w)
       then (set (updateImageProgress imageId 100) >>
             set_sessions (λ ss, ss ∖ {[imageId]})) w
       else ret tt w.

Definition errorImageProgress (tag imageId message : string) : M unit :=
  log tag (EErrorImageProgress imageId message) >>
  set_sessions (λ ss, ss ∖ {[imageId]}).

(** [await invoke('compress_image', { request, imageId })] *)
Definition invoke_compress (tag : string) (sc : ImageScript)
    (request : CompressRequest) (imageId : string) : M CompressImageResponse :=
  log tag (EInvoke (compress_image request imageId)) >>
  await (during_compress sc) >>
  log tag (ECompressSettled (compress_settled sc)) >>
  settle (compress_settled sc).

(** [await invoke('record_compression_result_with_time', ...)] *)
Definition invoke_record_with_time (tag : string) (sc : ImageScript)
    (args : RecordArgs) (compressionTimeMs : Z) : M unit :=
  log tag (EInvoke (record_compression_result_with_time args compressionTimeMs)) >>
  await (during_record sc) >>
  settle (record_settled sc).

(** [await invoke('record_compression_result', ...)] *)
Definition invoke_record (tag : string) (sc : ImageScript) (args : RecordArgs)
    : M unit :=
  log tag (EInvoke (record_compression_result args)) >>
  await (during_fallback sc) >>
  settle (fallback_settled sc).

(** [response.error || 'Compression failed'] *)
Definition error_or_default (e : option string) : string :=
  match e with
  | Some "" | None => "Compression failed"
  | Some msg => msg
  end.

(** [`${response.error}`] *)
Definition error_text (e : option string) : string :=
  match e with
  | Some msg => msg
  | None => "undefined"
  end.

Definition record_args (cs : CompressionSettings) (image : ImageEntity)
    (r : CompressResult) : RecordArgs :=
  {| inputFormat := toUpperCase (format image);
     outputFormat :=
       if keepOriginalFormat cs then toUpperCase (format image) else "WEBP";
     args_originalSize := originalSize image;
     args_compressedSize := compressed_size r;
     toolVersion := "plume-v0.1.0" |}.

Definition compress_request (cs : CompressionSettings) (image : ImageEntity)
    : CompressRequest :=
  {| file_path := path image;
     request_quality := quality cs;
     request_format := if keepOriginalFormat cs then "auto" else "webp" |}.

(** The body of the [for] loop: the inner [try] block for one image of the
    snapshot, with the settings read when the run began. *)
Definition try_image (cs : CompressionSettings) (sc : ImageScript)
    (image : ImageEntity) : M unit :=
  let tag := id image in
  transition tag (id image) (toProcessing 0)
    (λ img, EToProcessing (id img) (status img) 0) >>
  let targetFormat := if keepOriginalFormat cs then format image else "webp" in
  startSmartProgress tag sc (id image) (format image) targetFormat
    (originalSize image) (quality cs) >>
  let startTime := started_at sc in
  let* response := invoke_compress tag sc (compress_request cs image) (id image) in
  let compressionTimeMs := settled_at sc - startTime in
  match success response, result response with
  | true, Some r =>
      completeImageProgress tag (id image) >>
      transition tag (id image)
        (toCompleted (compressed_size r) (output_path r))
        (λ img, EToCompleted (id img) (status img)
                  (compressed_size r) (output_path r)) >>
      try_catch
        (invoke_record_with_time tag sc (record_args cs image r) compressionTimeMs)
        (λ dbError,
           try_catch
             (invoke_record tag sc (record_args cs image r))
             (λ fallbackError, ret tt))
  | _, _ =>
      errorImageProgress tag (id image) (error_or_default (error response)) >>
      transition tag (id image) toError (λ img, EToError (id img) (status img)) >>
      log tag (EToastError
                 ("Erreur compression " ++ name image ++ ": "
                    ++ error_text (error response)))
  end.

(** The [catch (error)] block of the loop body. *)
Definition catch_image (image : ImageEntity) (error : string) : M unit :=
  let tag := id image in
  errorImageProgress tag (id image) error >>
  transition tag (id image) toError (λ img, EToError (id img) (status img)) >>
  log tag (EToastError ("Erreur compression " ++ name image ++ ": " ++ error)).

Definition process_image (cs : CompressionSettings) (sc : ImageScript)
    (image : ImageEntity) : M unit :=
  try_catch (try_image cs sc image) (catch_image image).

(** [for (const image of pendingImages) { ... }], the turn of the image at
    position [k] of the snapshot running against the script [env k]. *)
Fixpoint for_images (cs : CompressionSettings) (env : Env) (k : nat)
    (pendingImages : list ImageEntity) : M unit :=
  match pendingImages with
  | [] => ret tt
  | image :: rest =>
      process_image cs (env k) image >>
      for_images cs env (S k) rest
  end.

(** [startCompression()] *)
Definition startCompression (env : Env) : M unit :=
  let* s := get in
  let imgs := images s in
  let cs := compressionSettings s in
  if Store.isProcessing s then ret tt
  else
    let pendingImages := filter (λ img, Image.isPending img = true) imgs in
    if decide (length pendingImages = 0%nat) then ret tt
    else
      set (λ s, set_compressionState StateProcessing (set_isProcessing true s)) >>
      try_finally
        (for_images cs env 0 pendingImages >>
         set (set_compressionState StateCompleted))
        (set (set_isProcessing false)).

End Orchestrator.

(** ** Intake: [addImages] *)

Module Intake.
Import Image Store.

(** The last element of [s.split(sep)] for a non-empty separator: the
    scan goes from left to right and a separator found is skipped whole. *)
Fixpoint last_segment_from (sep : string) (skip : nat) (acc s : string) : string :=
  match s with
  | EmptyString => acc
  | String c s' =>
      match skip with
      | S n => last_segment_from sep n acc s'
      | O =>
          if String.prefix sep s
          then last_segment_from sep (String.length sep - 1) "" s'
          else last_segment_from sep 0 (acc ++ String c "") s'
      end
  end.

Definition last_segment (sep s : string) : string :=
  last_segment_from sep 0 "" s.

(** [filePath.split('/').pop() || filePath.split('\\\\').pop() || 'unknown']:
    the second separator is the two-character string made of two
    backslashes, and an empty string is falsy. *)
Definition file_name (filePath : string) : string :=
  let a := last_segment "/" filePath in
  if decide (a = "") then
    let b := last_segment "\\" filePath in
    if decide (b = "") then "unknown" else b
  else a.

Inductive Toast :=
| ToastSuccess (message : string)
| ToastError (message : string).

(** What the environment gives for one file of [uniqueFilePaths]: the id
    built from [Date.now()] and [Math.random()], what reaches the store
    while ['get_file_information'] is awaited, and the size it resolves
    to (or its rejection). *)
Record IntakeScript := {
  temp_id : string;
  during_info : list ExternalAction;
  info_settled : Outcome Z;
}.

Definition default_estimate : EstimatedCompression :=
  {| percent := 65; ratio := 35 # 100; confidence := 5 # 10; sample_count := 10 |}.

(** The text of the notification, held as the bytes of its UTF-8 form. *)
Definition added_message (n : nat) : string :=
  pretty n ++ " image" ++ (if (1 <? n)%nat then "s" else "")
    ++ " ajoutée" ++ (if (1 <? n)%nat then "s" else "").

(** The actions that reach the store while the files at positions
    [k], ..., [k + n - 1] of [uniqueFilePaths] are looked up. *)
Definition intake_actions (env : nat -> IntakeScript) (k n : nat)
    : list ExternalAction :=
  concat ((λ j, during_info (env j)) <$> seq k n).

(** [fileSize]: the size the lookup resolved to, 0 after a rejection. *)
Definition size_or_zero (o : Outcome Z) : Z :=
  match o with
  | Ok size => size
  | Throw _ => 0
  end.

Section AddImages.

(** [detectImageFormat] of [domain/constants] is not among the sources; it
    is only applied to the file name. *)
Variable detectImageFormat : string -> string.

(** The [for (const filePath of uniqueFilePaths)] loop: the records built,
    and the store as the interleaved actions left it. *)
Fixpoint build_images (env : nat -> IntakeScript) (k : nat)
    (uniqueFilePaths : list string) (s : ImageStore)
    : list ImageEntity * ImageStore :=
  match uniqueFilePaths with
  | [] => ([], s)
  | filePath :: rest =>
      let tempId := temp_id (env k) in
      let fileName := file_name filePath in
      let s1 := externals (during_info (env k)) s in
      let fileSize :=
        match info_settled (env k) with
        | Ok size => size
        | Throw _ => 0
        end in
      let image :=
        fromData tempId fileName filePath fileSize (detectImageFormat fileName)
          ("asset://localhost/" ++ filePath) default_estimate in
      let '(newImages, s2) := build_images env (S k) rest s1 in
      (image :: newImages, s2)
  end.

(** [addImages(filePaths)]: the resulting store and the notifications. *)
Definition addImages (env : nat -> IntakeScript) (filePaths : list string)
    (s : ImageStore) : ImageStore * list Toast :=
  let existingPaths : gset string := list_to_set (path <$> images s) in
  let uniqueFilePaths := filter (λ p, p ∉ existingPaths) filePaths in
  if decide (length uniqueFilePaths = 0%nat) then (s, [])
  else
    let '(newImages, s1) := build_images env 0 uniqueFilePaths s in
    (set_images (images s1 ++ newImages) s1,
     [ToastSuccess (added_message (length uniqueFilePaths))]).

End AddImages.

End Intake.

(** ** The backend event bridge: [initializeProgressListener] *)

Module Bridge.
Import Image Store.

(** The ['compression-progress'] channel: the handles of the callbacks
    registered on it, oldest first.  [listen] registers a callback and
    resolves to the function that unregisters it. *)
Record Channel := {
  listeners : list nat;
  next_handle : nat;
}.

Definition no_listener : Channel := {| listeners := []; next_handle := 0 |}.

Definition listen (ch : Channel) : nat * Channel :=
  (next_handle ch,
   {| listeners := listeners ch ++ [next_handle ch];
      next_handle := S (next_handle ch) |}).

Definition unlisten (h : nat) (ch : Channel) : Channel :=
  {| listeners := filter (λ h', h' ≠ h) (listeners ch);
     next_handle := next_handle ch |}.

(** [initializeProgressListener()].  [let unlisten] is declared inside the
    function, so every call starts with [undefined]; the handle [listen]
    resolves to is assigned to that local variable and is not kept
    anywhere else.  [listen_settled] tells whether [listen] resolved. *)
Definition initializeProgressListener (listen_settled : Outcome unit) (ch : Channel)
    : Channel :=
  let unlisten_var : option nat := None in
  let ch1 :=
    match unlisten_var with
    | Some h => unlisten h ch
    | None => ch
    end in
  match listen_settled with
  | Ok _ => (listen ch1).2
  | Throw _ => ch1
  end.

(** One event of the channel: every registered callback runs. *)
Definition dispatch (ev : CompressionProgressEvent) (ch : Channel) (s : ImageStore)
    : ImageStore :=
  foldl (λ s _, (onCompressionProgress ev s).2) s (listeners ch).

End Bridge.

(** ** Vocabulary of the properties *)

Module Run.
Import Image Store Orchestrator.

(** [images.filter(img => img.isPending())], as [startCompression] takes it. *)
Definition snapshot (s : ImageStore) : list ImageEntity :=
  filter (λ img, Image.isPending img = true) (images s).

(** External actions that respect the records of the snapshot whose ids
    are [ids]: they remove or add only records with other ids, never
    reset or clear the collection, and bring no [Error] stage event for an
    id of the snapshot.  Progress updates and settings changes are free. *)
Definition benign (ids : list string) (a : ExternalAction) : bool :=
  match a with
  | DoRemoveImage i => bool_decide (i ∉ ids)
  | DoClearImages | DoResetProcessingImages => false
  | DoProgressEvent ev =>
      match stage ev with
      | StageError => bool_decide (image_id ev ∉ ids)
      | _ => true
      end
  | DoAppendImages l => forallb (λ img, bool_decide (id img ∉ ids)) l
  | _ => true
  end.

Definition script_actions (sc : ImageScript) : list ExternalAction :=
  during_start sc ++ during_compress sc ++ during_record sc ++ during_fallback sc.

Definition benign_script (ids : list string) (sc : ImageScript) : bool :=
  forallb (benign ids) (script_actions sc).

Definition benign_env (ids : list string) (env : Env) : Prop :=
  ∀ k, benign_script ids (env k) = true.

(** The records of the store that carry an id of the snapshot. *)
Definition tracked (ids : list string) (imgs : list ImageEntity) : list ImageEntity :=
  filter (λ img, id img ∈ ids) imgs.

(** A record and what a progress update can make of it. *)
Definition progress_step (x y : ImageEntity) : Prop :=
  (status x ≠ Processing ∧ y = x) ∨
  (status x = Processing ∧ ∃ p, y = set_progress p x).

(** The record of a snapshot image while its turn is running. *)
Definition in_flight (p : option Z) (image : ImageEntity) : ImageEntity :=
  set_progress p (set_status Processing image).

(** The payload of a successful answer: [response.success && response.result]. *)
Definition payload (o : Outcome CompressImageResponse) : option CompressResult :=
  match o with
  | Ok response => if success response then result response else None
  | Throw _ => None
  end.

(** The result the turn of an image ends with: the payload of the backend
    when the estimator started and the backend answered with success. *)
Definition turn_result (sc : ImageScript) : option CompressResult :=
  match start_settled sc with
  | Ok _ => payload (compress_settled sc)
  | Throw _ => None
  end.

(** The record of a snapshot image once its turn is over. *)
Definition settled (p : option Z) (sc : ImageScript) (image : ImageEntity)
    : ImageEntity :=
  set_progress p
    match turn_result sc with
    | Some r =>
        set_result (Some (compressed_size r)) (Some (output_path r))
          (set_status Completed image)
    | None => set_status Error image
    end.

(** The effects of the [catch] block, and those of a whole turn in a
    benign environment, as the outcomes of the script decide them. *)
Definition failure_effects (image : ImageEntity) (e : string) : list Effect :=
  [EErrorImageProgress (id image) e;
   EToError (id image) Processing;
   EToastError ("Erreur compression " ++ name image ++ ": " ++ e)].

Definition telemetry_effects (cs : CompressionSettings) (sc : ImageScript)
    (image : ImageEntity) (r : CompressResult) : list Effect :=
  EInvoke (record_compression_result_with_time (record_args cs image r)
             (settled_at sc - started_at sc)) ::
  match record_settled sc with
  | Ok _ => []
  | Throw _ => [EInvoke (record_compression_result (record_args cs image r))]
  end.

Definition answer_effects (cs : CompressionSettings) (sc : ImageScript)
    (image : ImageEntity) : list Effect :=
  match compress_settled sc with
  | Throw e => failure_effects image e
  | Ok response =>
      match payload (compress_settled sc) with
      | Some r =>
          ECompleteImageProgress (id image) ::
          EToCompleted (id image) Processing (compressed_size r) (output_path r) ::
          telemetry_effects cs sc image r
      | None =>
          [EErrorImageProgress (id image) (error_or_default (error response));
           EToError (id image) Processing;
           EToastError ("Erreur compression " ++ name image ++ ": "
                          ++ error_text (error response))]
      end
  end.

Definition expected_effects (cs : CompressionSettings) (sc : ImageScript)
    (image : ImageEntity) : list Effect :=
  EToProcessing (id image) Pending 0 ::
  EStartSmartProgress (id image) (format image)
    (if keepOriginalFormat cs then format image else "webp")
    (originalSize image) (quality cs) ::
  match start_settled sc with
  | Throw e => failure_effects image e
  | Ok _ =>
      EInvoke (compress_image (compress_request cs image) (id image)) ::
      ECompressSettled (compress_settled sc) ::
      answer_effects cs sc image
  end.

Definition turn (cs : CompressionSettings) (sc : ImageScript) (image : ImageEntity)
    : list (string * Effect) :=
  (λ e, (id image, e)) <$> expected_effects cs sc image.


Definition is_compress (e : Effect) : bool :=
  match e with EInvoke (compress_image _ _) => true | _ => false end.





(** A compress command issued for a record of [snap] with the settings [cs]. *)
Definition from_settings (cs : CompressionSettings) (snap : list ImageEntity)
    (e : string * Effect) : Prop :=
  ∀ request imageId,
    e.2 = EInvoke (compress_image request imageId) →
    ∃ image, image ∈ snap ∧ e.1 = id image ∧ imageId = id image ∧
             request = compress_request cs image.

(** Progress updates and backend events addressed to one image id. *)
Definition addressed_to (imageId : string) (a : ExternalAction) : bool :=
  match a with
  | DoUpdateImageProgress i _ => bool_decide (i = imageId)
  | DoProgressEvent ev => bool_decide (image_id ev = imageId)
  | _ => false
  end.

(** What the callback of the bridge makes of a record, for an event whose
    rounded percentage is [percent]. *)
Definition after_event (ev : CompressionProgressEvent) (percent : Z)
    (img : ImageEntity) : ImageEntity :=
  if decide (id img = image_id ev) then
    match stage ev with
    | StageError => set_status Error (set_progress (Some percent) img)
    | _ => set_progress (Some percent) img
    end
  else img.

(** A settled record and the script and snapshot record it comes from. *)
Definition settled_by (x : ImageScript * ImageEntity) (d : ImageEntity) : Prop :=
  ∃ p, d = settled p x.1 x.2.

(** The records of the snapshot, each with the script of its position. *)
Definition scripted (env : Env) (snap : list ImageEntity)
    : list (ImageScript * ImageEntity) :=
  imap (λ j image, (env j, image)) snap.

(** The effects of the turns of [snap], the first at position [k]. *)
Definition turns (cs : CompressionSettings) (env : Env) (k : nat)
    (snap : list ImageEntity) : list (string * Effect) :=
  concat (imap (λ j image, turn cs (env (k + j)%nat) image) snap).

(** Records none of which is being processed. *)
Definition idle (l : list ImageEntity) : Prop :=
  Forall (λ x, status x ≠ Processing) l.

(** The store of [w] holds, among the records with an id of the snapshot,
    the settled records [ds], then the records [c] of the turn in
    progress, then the records [rest] still to come; its trace is [t]. *)
Definition at_turn (ids : list string) (ds c rest : list ImageEntity)
    (t : list (string * Effect)) (w : World) : Prop :=
  tracked ids (images (store w)) = (ds ++ c ++ rest)%list ∧ trace w = t.

(** The part of the trace a computation adds. *)
Definition emits {A : Type} (P : string * Effect → Prop) (m : M A) : Prop :=
  ∀ w, ∃ l, trace (m w).2 = (trace w ++ l)%list ∧ Forall P l.

(** A double that is a fraction between 0.0 and 1.0, as the payload of a
    progress event is documented. *)
Definition is_fraction (x : spec_float) : bool :=
  match x with
  | S754_zero _ => true
  | S754_finite false _ _ =>
      valid_binary 53 1024 x && Qle_bool (double_value x) 1
  | _ => false
  end.

(** The percentage the callback of the bridge computes for an event. *)
Definition percent_of (ev : CompressionProgressEvent) : Z :=
  Math_round (double_mul (event_progress ev) hundred).

(** The records an event is addressed to are all being processed. *)
Definition addressed_processing (ev : CompressionProgressEvent)
    (imgs : list ImageEntity) : Prop :=
  Forall (λ img, id img = image_id ev → status img = Processing) imgs.

#[export] Instance addressed_processing_dec ev imgs :
  Decision (addressed_processing ev imgs).
Proof. unfold addressed_processing. apply _. Defined.

(** What the callback of the bridge makes of a record of the collection
    [imgs]: a record the event is addressed to gets the percentage,
    clamped, if it is being processed, and the error status as well when
    the stage is [Error] and the entity accepts the transition for every
    addressed record; any other record is left as it is. *)
Definition handled (ev : CompressionProgressEvent) (imgs : list ImageEntity)
    (img : ImageEntity) : ImageEntity :=
  if decide (id img = image_id ev ∧ status img = Processing) then
    let written := set_progress (Some (clamp_percent (percent_of ev))) img in
    if decide (stage ev = StageError ∧ addressed_processing ev imgs)
    then set_status Error written
    else written
  else img.





End Run.

(** ** Concrete stores, scripts and events for the examples *)

Module Examples.
Import Image Store Orchestrator Intake.

Definition img_a : ImageEntity :=
  fromData "temp_1_a" "a.png" "/pictures/a.png" 1000 "PNG"
    "asset://localhost//pictures/a.png" default_estimate.

Definition img_b : ImageEntity :=
  fromData "temp_2_b" "b.jpg" "/pictures/b.jpg" 2000 "JPEG"
    "asset://localhost//pictures/b.jpg" default_estimate.

(** A record added while a run is going on. *)
Definition img_c : ImageEntity :=
  fromData "temp_3_c" "c.png" "/pictures/c.png" 3000 "PNG"
    "asset://localhost//pictures/c.png" default_estimate.

Definition two_pending : ImageStore := set_images [img_a; img_b] initial.

Definition fresh (s : ImageStore) : World :=
  {| store := s; sessions := ∅; trace := [] |}.

Definition result_a : CompressResult :=
  {| compressed_size := 500; output_path := "/pictures/a.webp" |}.

Definition answer_ok : CompressImageResponse :=
  {| success := true; result := Some result_a; error := None |}.


(** The backend answers with success, the first telemetry command is
    rejected, and a tick of the estimator arrives during the compression. *)
Definition script_ok : ImageScript :=
  {| during_start := [];
     start_settled := Ok tt;
     started_at := 10;
     during_compress := [DoUpdateImageProgress "temp_1_a" 40];
     compress_settled := Ok answer_ok;
     settled_at := 25;
     during_record := [];
     record_settled := Throw "database is locked";
     during_fallback := [];
     fallback_settled := Throw "database is locked" |}.

(** The backend rejects the command; a third image is added to the
    collection in the meantime. *)
Definition script_rejected : ImageScript :=
  {| during_start := [];
     start_settled := Ok tt;
     started_at := 30;
     during_compress := [DoAppendImages [img_c]];
     compress_settled := Throw "backend crashed";
     settled_at := 31;
     during_record := [];
     record_settled := Ok tt;
     during_fallback := [];
     fallback_settled := Ok tt |}.

(** The first image fails, the second succeeds. *)
Definition env_mixed : Env := λ k,
  match k with
  | O => script_rejected
  | _ => script_ok
  end.



(** The quality is changed while the first image is compressed. *)
Definition script_quality_changed : ImageScript :=
  {| during_start := [];
     start_settled := Ok tt;
     started_at := 10;
     during_compress := [DoSetQuality 70];
     compress_settled := Ok answer_ok;
     settled_at := 25;
     during_record := [];
     record_settled := Ok tt;
     during_fallback := [];
     fallback_settled := Ok tt |}.

Definition env_quality_changed : Env := λ k,
  match k with
  | O => script_quality_changed
  | _ => script_ok
  end.

(** The store after [setQuality(50)], and the world in which the turn of
    the second image begins when the run goes against
    [env_quality_changed]: the guard is set and the turn of the first
    image is over. *)
Definition quality_50 : World := fresh (setQuality 50 two_pending).

Definition when_b_begins : World :=
  (process_image (compressionSettings (store quality_50))
     (env_quality_changed 0%nat) img_a
     (with_store (λ s, set_compressionState StateProcessing (set_isProcessing true s))
        quality_50)).2.

(** The backend reports the failure of the first image on the progress
    channel, at the double nearest to 0.3, and then answers with a
    failure. *)
Definition error_event : CompressionProgressEvent :=
  {| image_id := "temp_1_a"; image_name := "a.png"; stage := StageError;
     event_progress := S754_finite false 5404319552844595 (-54);
     estimated_time_remaining := None |}.


(** An event in the middle of the compression of the first image, at the
    double 0.5. *)
Definition half_way : CompressionProgressEvent :=
  {| image_id := "temp_1_a"; image_name := "a.png"; stage := Compressing;
     event_progress := S754_finite false 4503599627370496 (-53);
     estimated_time_remaining := Some (3 # 1) |}.

(** A store whose first image is being processed, with the progress the
    estimator wrote last. *)
Definition a_in_flight : ImageStore :=
  set_isProcessing true
    (set_images [Run.in_flight (Some 12) img_a; img_b] initial).

Definition intake_script : nat -> IntakeScript := λ k,
  {| temp_id := "temp_3_" ++ pretty k;
     during_info := [];
     info_settled := match k with
                     | O => Throw "no such file"
                     | _ => Ok 4096
                     end |}.

End Examples.

(** ** The getters and the remaining actions of the store *)

Module Getters.
Import Image Store Orchestrator Intake.

#[export] Instance CompressionState_eq_dec : EqDecision CompressionState.
Proof. solve_decision. Defined.

(** [AppView = 'drop' | 'list' | 'success'] *)
Inductive AppView := ViewDrop | ViewList | ViewSuccess.

(** [currentView()] *)
Definition currentView (s : ImageStore) : AppView :=
  if decide (length (images s) = 0%nat) then ViewDrop
  else if (bool_decide (compressionState s = StateCompleted)
           && forallb Image.isCompleted (images s))%bool
       then ViewSuccess
       else ViewList.

(** The object [stats()] returns; the sizes are integers and the average
    an exact rational. *)
Record Stats := {
  total : nat;
  pending : nat;
  processing : nat;
  completed : nat;
  totalSize : Z;
  totalCompressedSize : Z;
  averageSavings : Q;
}.

(** [images.reduce((sum, img) => sum + f(img), 0)] *)
Definition sum_Z (f : ImageEntity -> Z) (imgs : list ImageEntity) : Z :=
  foldl (λ sum img, sum + f img) 0 imgs.

Definition sum_Q (f : ImageEntity -> Q) (imgs : list ImageEntity) : Q :=
  foldl (λ sum img, (sum + f img)%Q) 0%Q imgs.

Section Stats.

(** [hasCompressedData()] and the getter [savings] of [ImageEntity] are not
    among the sources. *)
Variable hasCompressedData : ImageEntity -> bool.
Variable savings : ImageEntity -> option Q.

(** [stats()] *)
Definition stats (s : ImageStore) : Stats :=
  let pending := length (filter (λ img, Image.isPending img = true) (images s)) in
  let processing :=
    length (filter (λ img, Image.isProcessing img = true) (images s)) in
  let completed :=
    length (filter (λ img, Image.isCompleted img = true) (images s)) in
  let totalSize := sum_Z originalSize (images s) in
  let totalCompressedSize :=
    sum_Z (λ img, default 0 (compressedSize img))
      (filter (λ img, hasCompressedData img = true) (images s)) in
  {| total := length (images s);
     pending := pending;
     processing := processing;
     completed := completed;
     totalSize := totalSize;
     totalCompressedSize := totalCompressedSize;
     averageSavings :=
       if (0 <? completed)%nat
       then (sum_Q (λ img, default 0%Q (savings img))
               (filter (λ img, hasCompressedData img = true) (images s))
             / inject_Z (Z.of_nat completed))%Q
       else 0%Q |}.

End Stats.

(** [images.find(img => img.id === imageId)] *)
Definition find_image (imageId : string) (imgs : list ImageEntity)
    : option ImageEntity :=
  List.find (λ img, bool_decide (id img = imageId)) imgs.

(** [compressImage(imageId)] *)
Definition compressImage (env : Env) (imageId : string) : M unit :=
  let* s := get in
  match find_image imageId (images s) with
  | None => ret tt
  | Some image =>
      if Image.isPending image then startCompression env else ret tt
  end.

(** [downloadImage(imageId)]: the notifications it shows; an empty
    [outputPath] is falsy.  The text is held as the bytes of its UTF-8
    form. *)
Definition downloadImage (imageId : string) (s : ImageStore) : list Toast :=
  match find_image imageId (images s) with
  | None => []
  | Some image =>
      match outputPath image with
      | None | Some "" => []
      | Some _ => [ToastSuccess (name image ++ " prêt pour téléchargement")]
      end
  end.

(** [downloadAllImages()] *)
Definition downloadAllImages (s : ImageStore) : list Toast :=
  let completedImages := filter (λ img, Image.isCompleted img = true) (images s) in
  concat ((λ image, downloadImage (id image) s) <$> completedImages).

(** [handleExternalDrop(filePaths)] *)
Definition handleExternalDrop (detectImageFormat : string -> string)
    (env : nat -> IntakeScript) (filePaths : list string) (s : ImageStore)
    : ImageStore * list Toast :=
  addImages detectImageFormat env filePaths s.

End Getters.

(** ** The header of the image list ([ImageListHeader], [CompressionControls]) *)

Module Header.
Import Image Store.

Inductive HeaderTitle := TitleProcessing | TitlePending | TitleCompleted.

(** [getHeaderTitle()] over [processingImages] and [pendingImages]. *)
Definition getHeaderTitle (imgs : list ImageEntity) : HeaderTitle :=
  let pendingImages := filter (λ img, Image.isPending img = true) imgs in
  let processingImages := filter (λ img, Image.isProcessing img = true) imgs in
  if (0 <? length processingImages)%nat then TitleProcessing
  else if (0 <? length pendingImages)%nat then TitlePending
  else TitleCompleted.

(** Which buttons the header renders, and whether the start button is
    disabled: [CompressionControls] is rendered only when
    [pendingImages.length > 0], and inside it each button has its own
    condition. *)
Record Buttons := {
  shows_clear : bool;
  shows_start : bool;
  start_disabled : bool;
  shows_download_all : bool;
}.

Definition header_buttons (s : ImageStore) : Buttons :=
  let imgs := images s in
  let pendingImages := filter (λ img, Image.isPending img = true) imgs in
  let completedImages := filter (λ img, Image.isCompleted img = true) imgs in
  let controls := (0 <? length pendingImages)%nat in
  {| shows_clear := controls && (1 <? length imgs)%nat;
     shows_start :=
       controls && ((0 <? length pendingImages)%nat && (1 <? length imgs)%nat);
     start_disabled :=
       Store.isProcessing s || (length pendingImages =? 0)%nat;
     shows_download_all :=
       controls && ((0 <? length completedImages)%nat && (1 <? length imgs)%nat) |}.

End Header.

(** ** The drag and drop hook ([useDragDropGlobal]) *)

Module DragDrop.
Import Bridge.

(** When the cleanup of the effect runs, if it does: while the dynamic
    import is awaited, while the registration is awaited, or later. *)
Inductive Unmount :=
| NotUnmounted
| DuringImport
| DuringRegistration
| AfterSetup.

#[export] Instance Unmount_eq_dec : EqDecision Unmount.
Proof. solve_decision. Defined.

(** The two variables of the effect and the channel of the window events. *)
Record Hook := {
  unlisten_var : option nat;
  cancelled : bool;
  window_events : Channel;
}.

Definition mounted (ch : Channel) : Hook :=
  {| unlisten_var := None; cancelled := false; window_events := ch |}.

(** The function the effect returns. *)
Definition cleanup (h : Hook) : Hook :=
  {| unlisten_var := unlisten_var h;
     cancelled := true;
     window_events :=
       match unlisten_var h with
       | Some handle => unlisten handle (window_events h)
       | None => window_events h
       end |}.

(** [unlisten = await getCurrentWebviewWindow().onDragDropEvent(...)]
    settling. *)
Definition registration_settles (settled : Outcome unit) (h : Hook) : Hook :=
  match settled with
  | Throw _ => h
  | Ok _ =>
      {| unlisten_var := Some (listen (window_events h)).1;
         cancelled := cancelled h;
         window_events := (listen (window_events h)).2 |}
  end.

Definition cleanup_at (now unmount : Unmount) (h : Hook) : Hook :=
  if decide (unmount = now) then cleanup h else h.

(** The effect from mount to the end: [setupListener()] awaits the import,
    returns if [cancelled] is set, awaits the registration and stores the
    handle; the cleanup runs at the moment [unmount] says. *)
Definition lifecycle (unmount : Unmount) (import_settled registration_settled : Outcome unit)
    (ch : Channel) : Hook :=
  let h1 := cleanup_at DuringImport unmount (mounted ch) in
  match import_settled with
  | Throw _ =>
      cleanup_at AfterSetup unmount (cleanup_at DuringRegistration unmount h1)
  | Ok _ =>
      if cancelled h1 then h1
      else
        let h2 := cleanup_at DuringRegistration unmount h1 in
        let h3 := registration_settles registration_settled h2 in
        cleanup_at AfterSetup unmount h3
  end.

(** The handles of a channel are below the next one to be given. *)
Definition well_formed (ch : Channel) : Prop :=
  Forall (λ handle, (handle < next_handle ch)%nat) (listeners ch).

End DragDrop.

(** ** Vocabulary of the further properties *)

Module Frame.
Import Image Store Orchestrator Run.

(** The values of a JavaScript number, as far as [Math.min], [Math.max]
    and the comparisons tell them apart: a number that is a rational (every
    finite double is one), the two infinities, and [NaN]. *)
Inductive Number :=
| NaN
| MinusInfinity
| Finite (x : Q)
| PlusInfinity.

(** [a <= b] on numbers that are not [NaN]. *)
Definition number_le (a b : Number) : bool :=
  match a, b with
  | NaN, _ | _, NaN => false
  | MinusInfinity, _ => true
  | _, PlusInfinity => true
  | Finite x, Finite y => Qle_bool x y
  | _, _ => false
  end.

(** [Math.min(a, b)] and [Math.max(a, b)]: [NaN] as soon as an argument is
    [NaN]. *)
Definition Math_min (a b : Number) : Number :=
  match a, b with
  | NaN, _ | _, NaN => NaN
  | _, _ => if number_le a b then a else b
  end.

Definition Math_max (a b : Number) : Number :=
  match a, b with
  | NaN, _ | _, NaN => NaN
  | _, _ => if number_le a b then b else a
  end.

(** [Math.max(1, Math.min(100, quality))], the value [setQuality] stores,
    for every number [quality]. *)
Definition clamped_quality (q : Number) : Number :=
  Math_max (Finite 1) (Math_min (Finite 100) q).

(** An integer as a number. *)
Definition integer (z : Z) : Number := Finite (inject_Z z).

(** The actions of the settings. *)
Definition is_settings_action (a : ExternalAction) : bool :=
  match a with
  | DoSetCompressionSettings _ | DoToggleWebPConversion | DoToggleLossyMode
  | DoSetQuality _ => true
  | _ => false
  end.

(** The actions that bring in a pending record: an intake, or the reset of
    the records being processed. *)
Definition brings_pending (a : ExternalAction) : bool :=
  match a with
  | DoAppendImages _ | DoResetProcessingImages => true
  | _ => false
  end.

(** The actions that add or remove records. *)
Definition resizes (a : ExternalAction) : bool :=
  match a with
  | DoAppendImages _ | DoRemoveImage _ | DoClearImages => true
  | _ => false
  end.

(** What identifies a record and never changes in its life. *)
Definition identity (img : ImageEntity) : string * string * string * Z * string :=
  (id img, name img, path img, originalSize img, format img).

(** A computation keeps a relation between the store before and after,
    whatever the world. *)
Definition keeps {A : Type} (R : ImageStore -> ImageStore -> Prop) (m : M A) : Prop :=
  ∀ w, R (store w) (store (m w).2).

(** The relation holds across every action of the script. *)
Definition script_keeps (R : ImageStore -> ImageStore -> Prop) (sc : ImageScript)
    : Prop :=
  Forall (λ a, ∀ s, R s (external a s)) (script_actions sc).

(** The three relations followed through a run. *)
Definition same_settings (s s' : ImageStore) : Prop :=
  compressionSettings s' = compressionSettings s.

Definition same_records (s s' : ImageStore) : Prop :=
  identity <$> images s' = identity <$> images s.

Definition no_new_pending (s s' : ImageStore) : Prop :=
  ∀ img, img ∈ images s' → status img = Pending → img ∈ images s.

(** What a transition of the entity makes of a record: the same
    identity, and a status other than pending. *)
Definition moves_on (x y : ImageEntity) : Prop :=
  identity y = identity x ∧ status y ≠ Pending.

(** The records whose id is not among [ids] are the same, in the same
    order. *)
Definition untouched (ids : list string) (s s' : ImageStore) : Prop :=
  filter (λ img, id img ∉ ids) (images s') = filter (λ img, id img ∉ ids) (images s).

(** The actions that can only reach records with an id of [ids]: changes
    of the settings, and progress updates, events and removals addressed
    to one of these ids. *)
Definition spares (ids : list string) (a : ExternalAction) : bool :=
  match a with
  | DoUpdateImageProgress i _ => bool_decide (i ∈ ids)
  | DoProgressEvent ev => bool_decide (image_id ev ∈ ids)
  | DoRemoveImage i => bool_decide (i ∈ ids)
  | DoClearImages | DoResetProcessingImages | DoAppendImages _ => false
  | _ => true
  end.

(** Whether the character occurs in the string. *)
Fixpoint has_char (c : ascii) (s : string) : bool :=
  match s with
  | EmptyString => false
  | String c' s' => bool_decide (c' = c) || has_char c s'
  end.

(** An intake during which nothing else reaches the store. *)
Definition quiet_intake (env : nat -> Intake.IntakeScript) : Prop :=
  ∀ k, Intake.during_info (env k) = [].

(** The ids the environment gives to the first [n] files of an intake. *)
Definition temp_ids (env : nat -> Intake.IntakeScript) (n : nat) : list string :=
  (λ k, Intake.temp_id (env k)) <$> seq 0 n.

(** Every action that arrives during a run satisfies [ok]. *)
Definition arriving (ok : ExternalAction -> bool) (env : Env) : Prop :=
  ∀ k, Forall (λ a, ok a = true) (script_actions (env k)).

(** Whether the turn of every record of the snapshot ends with a result. *)
Definition all_succeed (env : Env) (snap : list ImageEntity) : bool :=
  forallb (λ x, bool_decide (is_Some (turn_result x.1))) (scripted env snap).

End Frame.

(** ** Further concrete cases *)

Module Cases.
Import Image Store Orchestrator Intake Bridge Run Examples.

(** The backend answers with success and nothing else happens meanwhile. *)
Definition script_quiet : ImageScript :=
  {| during_start := [];
     start_settled := Ok tt;
     started_at := 10;
     during_compress := [];
     compress_settled := Ok answer_ok;
     settled_at := 25;
     during_record := [];
     record_settled := Ok tt;
     during_fallback := [];
     fallback_settled := Ok tt |}.

(** The first image as a successful turn leaves it. *)
Definition a_done : ImageEntity := settled (Some 100) script_quiet img_a.

(** A collection with one completed and one pending image, and one with
    the completed image alone. *)
Definition one_done : ImageStore := set_images [a_done; img_b] initial.

Definition all_done : ImageStore := set_images [a_done] initial.

(** The progress channel after two calls of [initializeProgressListener]. *)
Definition two_listeners : Channel :=
  initializeProgressListener (Ok tt) (initializeProgressListener (Ok tt) no_listener).

(** A path written with backslashes. *)
Definition windows_path : string := "C:\photos\a.png".

(** The backend reports a failure of the second image, which is pending:
    an event that comes late. *)
Definition late_error_event : CompressionProgressEvent :=
  {| image_id := "temp_2_b"; image_name := "b.jpg"; stage := StageError;
     event_progress := S754_finite false 5404319552844595 (-54);
     estimated_time_remaining := None |}.

(** An event at the double nearest to 0.575, whose product with 100 is
    the double just below 57.5. *)
Definition at_0575 : CompressionProgressEvent :=
  {| image_id := "temp_1_a"; image_name := "a.png"; stage := Compressing;
     event_progress := S754_finite false 5179139571476070 (-53);
     estimated_time_remaining := None |}.

(** An event at the double nearest to 0.015, which lies below 0.015: its
    product with 100, rounded to the nearest double, is the double 1.5. *)
Definition at_0015 : CompressionProgressEvent :=
  {| image_id := "temp_1_a"; image_name := "a.png"; stage := Compressing;
     event_progress := S754_finite false 8646911284551352 (-59);
     estimated_time_remaining := None |}.

End Cases.

(** * Properties *)

Local Open Scope list_scope.
Local Open Scope Z_scope.

Module SchemaFacts.
Import Schema.

Lemma eqb_decide (a b : string) :
  String.eqb a b = bool_decide (a = b).
Proof.
  destruct (String.eqb_spec a b) as [->|Hne].
  - by rewrite bool_decide_eq_true_2.
  - by rewrite bool_decide_eq_false_2.
Qed.

Lemma resolve_refines_table outputFormat level sourceFormat :
  resolveCompressionParams outputFormat level sourceFormat
  = spec_table outputFormat level sourceFormat.
Proof.
  unfold resolveCompressionParams, spec_table, spec_effective.
  rewrite !eqb_decide.
  destruct outputFormat, level; simpl;
    repeat (case_bool_decide; repeat case_decide; try congruence; simpl);
    reflexivity.
Qed.

(** C5.  [resolveCompressionParams] computes the table of section 4.2 for
    every output format, level and source format; the cases of the table
    are spelled out one by one. *)
Theorem resolveCompressionParams_table :
  (∀ outputFormat level sourceFormat,
     resolveCompressionParams outputFormat level sourceFormat
     = spec_table outputFormat level sourceFormat) ∧
  (∀ level, resolveCompressionParams Keep level "HEIC"
            = resolveCompressionParams Jpeg level "HEIC") ∧
  resolveCompressionParams Keep Balanced "HEIC"
  = {| quality := 80; format := "jpeg"; lossy := true |} ∧
  (∀ level sourceFormat,
     resolveCompressionParams Webp level sourceFormat
     = {| quality := match level with Light => 100 | Balanced => 80 | Aggressive => 60 end;
          format := "webp";
          lossy := bool_decide (level ≠ Light) |}) ∧
  (∀ level sourceFormat,
     resolveCompressionParams Jpeg level sourceFormat
     = {| quality := match level with Light => 92 | Balanced => 80 | Aggressive => 60 end;
          format := "jpeg";
          lossy := true |}) ∧
  (∀ level sourceFormat,
     resolveCompressionParams Png level sourceFormat
     = {| quality := 100; format := "png"; lossy := false |}) ∧
  (∀ level,
     resolveCompressionParams Keep level "WEBP"
     = {| quality := quality (resolveCompressionParams Webp level "WEBP");
          format := "auto";
          lossy := lossy (resolveCompressionParams Webp level "WEBP") |}) ∧
  (∀ level,
     resolveCompressionParams Keep level "JPEG"
     = {| quality := quality (resolveCompressionParams Jpeg level "JPEG");
          format := "auto";
          lossy := lossy (resolveCompressionParams Jpeg level "JPEG") |}) ∧
  (∀ level sourceFormat,
     sourceFormat ≠ "HEIC" → sourceFormat ≠ "WEBP" → sourceFormat ≠ "JPEG" →
     resolveCompressionParams Keep level sourceFormat
     = {| quality := 100; format := "auto"; lossy := false |}).
Proof.
  split; [exact resolve_refines_table|].
  repeat split; intros; try (by destruct level); try reflexivity.
  rewrite resolve_refines_table. unfold spec_table, spec_effective.
  repeat case_decide; congruence.
Qed.
End SchemaFacts.

Module GuardFacts.
Import Image Store Orchestrator.

(** C2.  Called while the guard is set, [startCompression] returns at
    once: the store, the sessions of the estimator and the effects are
    what they were, in every environment. *)
Theorem startCompression_while_running (env : Env) (w : World) :
  Store.isProcessing (store w) = true →
  startCompression env w = (Ok tt, w).
Proof.
  intros Hrun. unfold startCompression, bind, get. by rewrite Hrun.
Qed.
End GuardFacts.

Module StoreFacts.
Import Image Store.

Lemma filter_none {A : Type} (P : A → Prop) `{Hdec : ∀ x, Decision (P x)} (l : list A) :
  Forall (λ x, ¬ P x) l → filter P l = [].
Proof.
  induction 1 as [|x l Hx _ IH]; [done|]. by rewrite filter_cons_False.
Qed.

Lemma filter_all {A : Type} (P : A → Prop) `{Hdec : ∀ x, Decision (P x)} (l : list A) :
  Forall P l → filter P l = l.
Proof.
  induction 1 as [|x l Hx _ IH]; [done|]. by rewrite filter_cons_True, IH.
Qed.

Lemma mapM_fmap {A B : Type} (f : A → Outcome B) (g : A → B) (l : list A) :
  (∀ x, x ∈ l → f x = Ok (g x)) → mapM f l = Ok (g <$> l).
Proof.
  induction l as [|x l IH]; intros Hf; simpl; [done|].
  rewrite Hf by left. rewrite IH; [done|].
  intros y Hy. apply Hf. by right.
Qed.

Lemma map_where_fmap imageId f (g : ImageEntity → ImageEntity) imgs :
  (∀ img, img ∈ imgs → id img = imageId → f img = Ok (g img)) →
  map_where imageId f imgs
  = Ok ((λ img, if decide (id img = imageId) then g img else img) <$> imgs).
Proof.
  intros Hf. unfold map_where. apply mapM_fmap.
  intros img Hin. case_decide; auto.
Qed.

Lemma map_where_absent imageId f imgs :
  (∀ img, img ∈ imgs → id img ≠ imageId) →
  map_where imageId f imgs = Ok imgs.
Proof.
  intros Hne. rewrite (map_where_fmap imageId f (λ img, img)).
  - f_equal. rewrite <- (list_fmap_id imgs) at 2. apply list_fmap_ext.
    intros i x _. by case_decide.
  - intros img Hin Hid. by destruct (Hne img Hin).
Qed.

Lemma Math_round_nearest (x : spec_float) :
  (inject_Z (Math_round x) - (1 # 2) <= double_value x)%Q ∧
  (double_value x < inject_Z (Math_round x) + (1 # 2))%Q.
Proof.
  unfold Math_round.
  pose proof (Qfloor_le (double_value x + (1 # 2))) as Hle.
  pose proof (Qlt_floor (double_value x + (1 # 2))) as Hlt.
  rewrite inject_Z_plus in Hlt. change (inject_Z 1) with (1 # 1)%Q in Hlt.
  split; lra.
Qed.

Lemma updateProgress_processing p img :
  status img = Processing →
  updateProgress p img = set_progress (Some (clamp_percent p)) img.
Proof.
  intros Hst. unfold updateProgress, Image.isProcessing.
  by rewrite bool_decide_eq_true_2.
Qed.

Lemma updateProgress_other p img :
  status img ≠ Processing → updateProgress p img = img.
Proof.
  intros Hst. unfold updateProgress, Image.isProcessing.
  by rewrite bool_decide_eq_false_2.
Qed.

Lemma toError_processing img :
  status img = Processing → toError img = Ok (set_status Error img).
Proof.
  intros Hst. unfold toError, Image.isProcessing.
  by rewrite bool_decide_eq_true_2.
Qed.

Lemma clamp_percent_id p : 0 ≤ p ≤ 100 → clamp_percent p = p.
Proof. unfold clamp_percent. lia. Qed.

Lemma mapM_throws {A B : Type} (f : A → Outcome B) (l : list A) :
  Exists (λ x, ∃ e, f x = Throw e) l → ∃ e, mapM f l = Throw e.
Proof.
  induction 1 as [x l [e He]|x l _ [e IH]]; simpl.
  - rewrite He. eauto.
  - destruct (f x); [|eauto]. rewrite IH. eauto.
Qed.

Lemma mapM_ok_all {A B : Type} (f : A → Outcome B) (l : list A) l' :
  mapM f l = Ok l' → Forall (λ x, ∃ y, f x = Ok y) l.
Proof.
  revert l'. induction l as [|x l IH]; intros l' H; [constructor|].
  simpl in H. destruct (f x) as [y|] eqn:E; [|done].
  destruct (mapM f l) as [ys|] eqn:E'; [|done].
  constructor; [eauto|]. by eapply IH.
Qed.

Lemma update_keeps_addressed ev p s :
  Run.addressed_processing ev (images (updateImageProgress (image_id ev) p s))
  ↔ Run.addressed_processing ev (images s).
Proof.
  unfold Run.addressed_processing. simpl. rewrite Forall_fmap.
  apply Forall_proper; [|done]. intros img. simpl.
  case_decide; [|done].
  unfold updateProgress. by destruct (Image.isProcessing img).
Qed.

Lemma toError_cases ev imgs :
  (Run.addressed_processing ev imgs ∧
   map_where (image_id ev) toError imgs
   = Ok ((λ img, if decide (id img = image_id ev)
                 then set_status Error img else img) <$> imgs)) ∨
  (¬ Run.addressed_processing ev imgs ∧
   ∃ e, map_where (image_id ev) toError imgs = Throw e).
Proof.
  destruct (decide (Run.addressed_processing ev imgs)) as [Hall|Hnot].
  - left. split; [done|]. apply map_where_fmap. intros img Hin Hid.
    apply toError_processing. unfold Run.addressed_processing in Hall.
    rewrite Forall_forall in Hall. by apply Hall.
  - right. split; [done|]. apply mapM_throws.
    unfold Run.addressed_processing in Hnot.
    apply not_Forall_Exists in Hnot; [|apply _].
    eapply Exists_impl; [exact Hnot|]. intros img Himg. simpl in Himg.
    destruct (decide (id img = image_id ev)) as [Hid|Hid]; [|by destruct Himg].
    unfold toError, Image.isProcessing.
    rewrite bool_decide_eq_false_2; [eauto|]. intros Hst. by apply Himg.
Qed.

(** C7, as amended.  An event of the progress channel whose fraction is a
    double between 0 and 1, on any store.  The percentage is the product
    of the doubles [progress] and [100] rounded to the nearest integer
    (half up); it is recorded in [progressState] under the id of the
    event.  With the percentage clamped to 0..100, every record of that id
    that is being processed gets it as its progress, whatever progress it
    had, so a value written by the estimator is overwritten; a record in
    another state, or of another id, is left as it is.  When the stage is
    [Error] and every record of that id is being processed, those records
    moreover go to the error state, and this looks at neither the guard
    nor the run state; when some record of that id is not being processed
    the entity refuses the transition, the callback throws and no status
    changes.  The callback returns normally in every other case. *)
Theorem progress_event_overwrites (ev : CompressionProgressEvent) (s : ImageStore) :
  Run.is_fraction (event_progress ev) = true →
  (inject_Z (Run.percent_of ev) - (1 # 2)
   <= double_value (double_mul (event_progress ev) hundred))%Q ∧
  (double_value (double_mul (event_progress ev) hundred)
   < inject_Z (Run.percent_of ev) + (1 # 2))%Q ∧
  progressState (onCompressionProgress ev s).2 !! image_id ev
  = Some (Run.percent_of ev) ∧
  0 ≤ clamp_percent (Run.percent_of ev) ≤ 100 ∧
  ((onCompressionProgress ev s).1 = Ok tt
   ↔ stage ev ≠ StageError ∨ Run.addressed_processing ev (images s)) ∧
  images (onCompressionProgress ev s).2 = Run.handled ev (images s) <$> images s ∧
  (Run.addressed_processing ev (images s) →
   images (onCompressionProgress ev s).2
   = Run.after_event ev (clamp_percent (Run.percent_of ev)) <$> images s).
Proof.
  intros _.
  destruct (Math_round_nearest (double_mul (event_progress ev) hundred))
    as [Hlo Hhi].
  set (p := Run.percent_of ev).
  assert (Hup : images (updateImageProgress (image_id ev) p s)
                = (λ img, if decide (id img = image_id ev ∧ status img = Processing)
                          then set_progress (Some (clamp_percent p)) img else img)
                    <$> images s).
  { simpl. apply list_fmap_ext. intros i x Hx.
    destruct (decide (id x = image_id ev)) as [Hid|Hid].
    - destruct (decide (status x = Processing)) as [Hst|Hst].
      + rewrite decide_True by done. by apply updateProgress_processing.
      + rewrite decide_False by tauto. by apply updateProgress_other.
    - rewrite decide_False by tauto. done. }
  assert (Hres :
    (onCompressionProgress ev s).1 = Ok tt ∧
    (stage ev ≠ StageError ∨ Run.addressed_processing ev (images s)) ∧
    images (onCompressionProgress ev s).2 = Run.handled ev (images s) <$> images s
    ∨
    (onCompressionProgress ev s).1 ≠ Ok tt ∧
    ¬ (stage ev ≠ StageError ∨ Run.addressed_processing ev (images s)) ∧
    images (onCompressionProgress ev s).2 = Run.handled ev (images s) <$> images s).
  { unfold onCompressionProgress. cbv zeta. fold (Run.percent_of ev). fold p.
    destruct (decide (stage ev = StageError)) as [Hst|Hst].
    - rewrite Hst.
      destruct (toError_cases ev (images (updateImageProgress (image_id ev) p s)))
        as [[Hall ->]|[Hnot [e ->]]].
      + apply update_keeps_addressed in Hall.
        left. split; [done|]. split; [by right|].
        cbn [snd images set_images]. rewrite Hup, <- list_fmap_compose.
        apply list_fmap_ext. intros i x Hx. unfold Run.handled. simpl. fold p.
        destruct (decide (id x = image_id ev ∧ status x = Processing)) as [[Hid Hp]|Hn].
        * rewrite (decide_True (P := id _ = _)) by done. by rewrite decide_True.
        * destruct (decide (id x = image_id ev)) as [Hid|Hid]; [|done].
          unfold Run.addressed_processing in Hall. rewrite Forall_forall in Hall.
          exfalso. apply Hn. split; [done|]. apply Hall; [|done].
          by eapply list_elem_of_lookup_2.
      + rewrite update_keeps_addressed in Hnot.
        right. split; [done|]. split; [tauto|].
        cbn [snd]. rewrite Hup. apply list_fmap_ext. intros i x _.
        unfold Run.handled. simpl. fold p.
        case_decide; [|done]. rewrite decide_False by tauto. done.
    - assert ((match stage ev with
               | StageError =>
                   match map_where (image_id ev) toError
                           (images (updateImageProgress (image_id ev) p s)) with
                   | Ok imgs =>
                       (Ok tt, set_images imgs (updateImageProgress (image_id ev) p s))
                   | Throw e => (Throw e, updateImageProgress (image_id ev) p s)
                   end
               | _ => (Ok tt, updateImageProgress (image_id ev) p s)
               end) = (Ok tt, updateImageProgress (image_id ev) p s)) as ->
        by by destruct (stage ev).
      left. split; [done|]. split; [by left|].
      cbn [snd]. rewrite Hup. apply list_fmap_ext. intros i x _.
      unfold Run.handled. simpl. fold p.
      case_decide; [|done]. rewrite decide_False by tauto. done. }
  split; [exact Hlo|]. split; [exact Hhi|].
  split.
  { unfold onCompressionProgress. cbv zeta. fold (Run.percent_of ev). fold p.
    destruct (stage ev); try apply lookup_insert_eq.
    destruct (map_where _ _ _); apply lookup_insert_eq. }
  split; [unfold clamp_percent; lia|].
  split; [destruct Hres as [(? & ? & _)|(? & ? & _)]; tauto|].
  split; [destruct Hres as [(_ & _ & ?)|(_ & _ & ?)]; done|].
  intros Hall.
  assert (images (onCompressionProgress ev s).2 = Run.handled ev (images s) <$> images s)
    as -> by (destruct Hres as [(_ & _ & ?)|(_ & _ & ?)]; done).
  apply list_fmap_ext. intros i x Hx. unfold Run.handled, Run.after_event. fold p.
  destruct (decide (id x = image_id ev)) as [Hid|Hid].
  - assert (status x = Processing) as Hp.
    { unfold Run.addressed_processing in Hall. rewrite Forall_forall in Hall.
      apply Hall; [|done]. by eapply list_elem_of_lookup_2. }
    rewrite decide_True by done. cbv zeta.
    destruct (stage ev) eqn:Hst; try (rewrite decide_False by (intros [? _]; done); done).
    by rewrite decide_True.
  - rewrite decide_False by tauto. done.
Qed.

Lemma updateImageProgress_absent imageId p s :
  (∀ img, img ∈ images s → id img ≠ imageId) →
  images (updateImageProgress imageId p s) = images s.
Proof.
  intros Hne. simpl. rewrite <- (list_fmap_id (images s)) at 2.
  apply list_fmap_ext. intros i x Hx. case_decide; [|done].
  destruct (Hne x); [by eapply list_elem_of_lookup_2|done].
Qed.

Lemma onCompressionProgress_absent ev s :
  (∀ img, img ∈ images s → id img ≠ image_id ev) →
  (onCompressionProgress ev s).1 = Ok tt ∧
  images (onCompressionProgress ev s).2 = images s.
Proof.
  intros Hne. unfold onCompressionProgress. cbv zeta.
  pose proof (updateImageProgress_absent (image_id ev)
                (Math_round (double_mul (event_progress ev) hundred)) s Hne) as Hup.
  destruct (stage ev); try (split; [done|exact Hup]).
  rewrite map_where_absent by (rewrite Hup; exact Hne).
  split; [done|exact Hup].
Qed.

Lemma external_addressed_absent imageId a s :
  Run.addressed_to imageId a = true →
  (∀ img, img ∈ images s → id img ≠ imageId) →
  images (external a s) = images s.
Proof.
  intros Haddr Hne. destruct a; simpl in Haddr; try done;
    apply bool_decide_eq_true_1 in Haddr; subst.
  - by apply updateImageProgress_absent.
  - by apply onCompressionProgress_absent.
Qed.

Lemma externals_addressed_absent imageId acts s :
  Forall (λ a, Run.addressed_to imageId a = true) acts →
  (∀ img, img ∈ images s → id img ≠ imageId) →
  images (externals acts s) = images s.
Proof.
  intros Haddr. revert s. induction Haddr as [|a acts Ha _ IH]; intros s Hne; [done|].
  simpl. rewrite IH; rewrite ?(external_addressed_absent imageId) by done; done.
Qed.

Lemma removeImage_absent imageId s img :
  img ∈ images (removeImage imageId s) → id img ≠ imageId.
Proof. simpl. rewrite list_elem_of_filter. tauto. Qed.

(** C9.  After [removeImage(imageId)], any sequence of progress updates
    and backend events addressed to that id leaves the collection equal to
    the one [removeImage] produced, the former collection without the
    records of that id: nothing is created again, the other records are
    unchanged, and every event callback of the sequence returns normally. *)
Theorem events_after_removal_ignored (imageId : string) (s : ImageStore)
    (acts : list ExternalAction) :
  Forall (λ a, Run.addressed_to imageId a = true) acts →
  images (externals acts (removeImage imageId s))
  = filter (λ img, id img ≠ imageId) (images s) ∧
  ∀ n ev,
    acts !! n = Some (DoProgressEvent ev) →
    (onCompressionProgress ev (externals (take n acts) (removeImage imageId s))).1
    = Ok tt.
Proof.
  intros Haddr. split.
  - rewrite (externals_addressed_absent imageId); [done|done|].
    apply removeImage_absent.
  - intros n ev Hn. apply onCompressionProgress_absent.
    rewrite (externals_addressed_absent imageId).
    + intros img Hin. 
      assert (Hev : Run.addressed_to imageId (DoProgressEvent ev) = true).
      { eapply Forall_lookup_1 in Haddr; [exact Haddr|exact Hn]. }
      simpl in Hev. apply bool_decide_eq_true_1 in Hev. rewrite Hev.
      by apply (removeImage_absent imageId s).
    + by apply Forall_take.
    + apply removeImage_absent.
Qed.
End StoreFacts.

Module IntakeFacts.
Import Image Store Intake StoreFacts.

Section Facts.
Variable detectImageFormat : string → string.

Lemma externals_app acts1 acts2 s :
  externals (acts1 ++ acts2) s = externals acts2 (externals acts1 s).
Proof. unfold externals. apply foldl_app. Qed.

Lemma build_images_spec env k paths s :
  ∃ newImages,
    build_images detectImageFormat env k paths s
    = (newImages, externals (intake_actions env k (length paths)) s) ∧
    path <$> newImages = paths ∧
    Forall (λ img, status img = Pending) newImages ∧
    ∀ j img, newImages !! j = Some img →
             originalSize img = size_or_zero (info_settled (env (k + j)%nat)).
Proof.
  revert k s. induction paths as [|filePath rest IH]; intros k s.
  - exists []. by repeat split.
  - simpl. destruct (IH (S k) (externals (during_info (env k)) s))
      as (newImages & Heq & Hpaths & Hst & Hsize).
    rewrite Heq. eexists. split.
    + unfold intake_actions. simpl. by rewrite externals_app.
    + split; [by rewrite fmap_cons, Hpaths|].
      split; [by constructor|].
      intros [|j] img Hj; simpl in Hj.
      * inversion Hj; subst. simpl. rewrite Nat.add_0_r.
        by destruct (info_settled (env k)).
      * rewrite (Hsize j img Hj). do 3 f_equal. lia.
Qed.

(** C10.  [addImages] against the collection it reads: when every input
    path is the path of a record of the collection, the store is returned
    unchanged and nothing is notified; in general the new collection is
    the current one (as the actions interleaved with the lookups left it)
    followed by one new pending record per input path that was not in the
    collection, in order, and the original size of a new record is the
    size its lookup resolved to, or 0 when the lookup was rejected. *)
Theorem addImages_deduplicates (env : nat → IntakeScript) (filePaths : list string)
    (s : ImageStore) :
  let existing := path <$> images s in
  let unique := filter (λ p, p ∉ existing) filePaths in
  let after := addImages detectImageFormat env filePaths s in
  (Forall (λ p, p ∈ existing) filePaths → after = (s, [])) ∧
  ∃ newImages,
    images after.1
    = images (externals (intake_actions env 0 (length unique)) s) ++ newImages ∧
    (path <$> newImages) = unique ∧
    Forall (λ img, (path img ∉ existing) ∧ status img = Pending) newImages ∧
    ∀ j img, newImages !! j = Some img →
             originalSize img = size_or_zero (info_settled (env j)).
Proof.
  intros existing unique after.
  assert (Huniq : filter (λ p, p ∉ (list_to_set (path <$> images s) : gset string))
                    filePaths = unique).
  { apply list_filter_iff. intros p. by rewrite elem_of_list_to_set. }
  split.
  - intros Hall. subst after. unfold addImages. rewrite Huniq.
    assert (Hnil : unique = []).
    { apply filter_none. eapply Forall_impl; [exact Hall|]. naive_solver. }
    by rewrite Hnil.
  - subst after. unfold addImages. rewrite Huniq.
    case_decide as Hlen.
    + exists []. rewrite Hlen. simpl. rewrite app_nil_r.
      apply nil_length_inv in Hlen. rewrite Hlen. by repeat split.
    + destruct (build_images_spec env 0 unique s)
        as (newImages & Heq & Hpaths & Hst & Hsize).
      rewrite Heq. exists newImages. simpl. split; [done|]. split; [done|].
      split; [|exact Hsize].
      apply Forall_forall. intros img Hin. split.
      * assert (Hp : path img ∈ unique).
        { rewrite <- Hpaths. by apply list_elem_of_fmap_2. }
        apply list_elem_of_filter in Hp. tauto.
      * by eapply Forall_forall in Hst.
Qed.
End Facts.
End IntakeFacts.

Module BridgeFacts.
Import Image Store Bridge.

Lemma initializeProgressListener_adds (ch : Channel) :
  listeners (initializeProgressListener (Ok tt) ch)
  = listeners ch ++ [next_handle ch].
Proof. reflexivity. Qed.

(** C8.  Two calls of [initializeProgressListener], [listen] resolving
    both times, leave two callbacks registered on the channel: the first
    one is not torn down. *)
Theorem initializeProgressListener_twice :
  listeners (initializeProgressListener (Ok tt)
               (initializeProgressListener (Ok tt) no_listener))
  = [0%nat; 1%nat].
Proof. reflexivity. Qed.
End BridgeFacts.

Module TrackedFacts.
Import Image Store Orchestrator Run StoreFacts.

Lemma progress_step_refl x : progress_step x x.
Proof.
  unfold progress_step. destruct (decide (status x = Processing)); [|auto].
  right. split; [done|]. exists (progress x). by destruct x.
Qed.

Lemma progress_step_trans x y z :
  progress_step x y → progress_step y z → progress_step x z.
Proof.
  intros [[Hx ->]|[Hx [p ->]]] Hyz; [done|].
  destruct Hyz as [[Hy ->]|[_ [q ->]]].
  - by destruct Hy.
  - right. split; [done|]. by exists q.
Qed.

Lemma Forall2_progress_refl l : Forall2 progress_step l l.
Proof. induction l; constructor; auto using progress_step_refl. Qed.

Lemma Forall2_progress_trans l1 l2 l3 :
  Forall2 progress_step l1 l2 → Forall2 progress_step l2 l3 →
  Forall2 progress_step l1 l3.
Proof.
  intros H12. revert l3. induction H12; intros l3 H23; inversion H23; subst;
    constructor; eauto using progress_step_trans.
Qed.

Lemma progress_step_id x y : progress_step x y → id y = id x.
Proof. by intros [[_ ->]|[_ [p ->]]]. Qed.

Lemma progress_step_fmap (h : ImageEntity → ImageEntity) l :
  (∀ x, progress_step x (h x)) → Forall2 progress_step l (h <$> l).
Proof. intros Hh. induction l; constructor; auto. Qed.

(** Records that are not being processed are left as they are. *)
Lemma progress_step_settled l l' :
  Forall (λ x, status x ≠ Processing) l → Forall2 progress_step l l' → l' = l.
Proof.
  intros Hl H2. induction H2 as [|x y l l' Hxy _ IH]; [done|].
  inversion Hl; subst. f_equal; [|auto].
  destruct Hxy as [[_ ->]|[? _]]; done.
Qed.

Lemma progress_step_in_flight ds rest p image l' :
  Forall (λ x, status x ≠ Processing) ds →
  Forall (λ x, status x ≠ Processing) rest →
  Forall2 progress_step (ds ++ [in_flight p image] ++ rest) l' →
  ∃ p', l' = ds ++ [in_flight p' image] ++ rest.
Proof.
  intros Hds Hrest H2.
  apply Forall2_app_inv_l in H2 as (ds' & k & Hd & Hk & ->).
  apply Forall2_app_inv_l in Hk as (c' & rest' & Hc & Hr & ->).
  apply progress_step_settled in Hd; [|done].
  apply progress_step_settled in Hr; [|done]. subst.
  inversion Hc as [|x y ? ? Hxy Hnil]; subst. inversion Hnil; subst.
  destruct Hxy as [[Hst _]|[_ [p' ->]]]; [by destruct Hst|].
  by exists p'.
Qed.

Lemma tracked_fmap ids (h : ImageEntity → ImageEntity) l :
  (∀ x, id (h x) = id x) → tracked ids (h <$> l) = h <$> tracked ids l.
Proof.
  intros Hh. unfold tracked. induction l as [|x l IH]; [done|].
  rewrite fmap_cons, !filter_cons, Hh. case_decide; by rewrite ?fmap_cons, IH.
Qed.

Lemma tracked_app ids l1 l2 :
  tracked ids (l1 ++ l2) = tracked ids l1 ++ tracked ids l2.
Proof. apply filter_app. Qed.

Lemma tracked_none ids l :
  Forall (λ x, id x ∉ ids) l → tracked ids l = [].
Proof.
  induction 1 as [|x l Hx _ IH]; [done|].
  unfold tracked. by rewrite filter_cons_False.
Qed.

Lemma tracked_remove ids i l :
  i ∉ ids → tracked ids (filter (λ img, id img ≠ i) l) = tracked ids l.
Proof.
  intros Hi. unfold tracked. induction l as [|x l IH]; [done|].
  rewrite !filter_cons. destruct (decide (id x = i)) as [->|Hne].
  - rewrite decide_False by tauto. by rewrite IH, decide_False.
  - rewrite decide_True by done. rewrite filter_cons, IH. done.
Qed.

(** A transition of the records with another id leaves the tracked
    records alone. *)
Lemma tracked_map_where_other ids i f l l' :
  (∀ x y, f x = Ok y → id y = id x) →
  i ∉ ids → map_where i f l = Ok l' → tracked ids l' = tracked ids l.
Proof.
  intros Hf Hi. unfold map_where. revert l'.
  induction l as [|x l IH]; simpl; intros l' Heq.
  - by inversion Heq.
  - destruct (decide (id x = i)) as [Hx|Hx].
    + destruct (f x) as [y|e] eqn:Hfx; [|done].
      destruct (mapM _ l) as [ys|e] eqn:Hm; [|done].
      inversion Heq; subst. unfold tracked in *. rewrite !filter_cons.
      rewrite (IH ys eq_refl), (Hf _ _ Hfx).
      by rewrite !decide_False.
    + destruct (mapM _ l) as [ys|e] eqn:Hm; [|done].
      inversion Heq; subst. unfold tracked in *. rewrite !filter_cons.
      by rewrite (IH ys eq_refl).
Qed.

Lemma toError_id x y : toError x = Ok y → id y = id x.
Proof. unfold toError. destruct (Image.isProcessing x); by inversion 1. Qed.

Lemma updateProgress_step p x : progress_step x (updateProgress p x).
Proof.
  destruct (decide (status x = Processing)) as [Hst|Hst].
  - rewrite updateProgress_processing by done. right. eauto.
  - rewrite updateProgress_other by done. by left.
Qed.

Lemma updateImageProgress_tracked ids i p s :
  Forall2 progress_step (tracked ids (images s))
    (tracked ids (images (updateImageProgress i p s))).
Proof.
  simpl. rewrite tracked_fmap.
  - apply progress_step_fmap. intros x. case_decide.
    + apply updateProgress_step.
    + apply progress_step_refl.
  - intros x. case_decide; [|done]. apply progress_step_id, updateProgress_step.
Qed.

(** One benign action changes at most the progress of the tracked
    records that are being processed. *)
Lemma external_tracked ids a s :
  benign ids a = true →
  Forall2 progress_step (tracked ids (images s)) (tracked ids (images (external a s))).
Proof.
  intros Hb. destruct a; simpl in Hb; try done;
    try apply Forall2_progress_refl.
  - apply bool_decide_eq_true_1 in Hb. simpl.
    rewrite tracked_remove by done. apply Forall2_progress_refl.
  - apply updateImageProgress_tracked.
  - simpl. unfold onCompressionProgress. cbv zeta.
    destruct (stage ev) eqn:Hst; try apply updateImageProgress_tracked.
    apply bool_decide_eq_true_1 in Hb.
    destruct (map_where _ _ _) as [imgs|e] eqn:Hm; simpl;
      [|apply updateImageProgress_tracked].
    rewrite (tracked_map_where_other _ _ _ _ _ toError_id Hb Hm).
    apply updateImageProgress_tracked.
  - simpl. rewrite tracked_app, (tracked_none ids newImages), app_nil_r.
    + apply Forall2_progress_refl.
    + apply Forall_forall. intros x Hx.
      rewrite forallb_forall in Hb. apply list_elem_of_In in Hx.
      specialize (Hb x Hx). by apply bool_decide_eq_true_1 in Hb.
Qed.

Lemma externals_tracked ids acts s :
  forallb (benign ids) acts = true →
  Forall2 progress_step (tracked ids (images s))
    (tracked ids (images (externals acts s))).
Proof.
  revert s. induction acts as [|a acts IH]; intros s Hb; simpl.
  - apply Forall2_progress_refl.
  - simpl in Hb. apply andb_prop in Hb as [Ha Hb].
    eapply Forall2_progress_trans; [by apply external_tracked|by apply IH].
Qed.
End TrackedFacts.

Module TurnFacts.
Import Image Store Orchestrator Run StoreFacts TrackedFacts.

Lemma bind_ok {A B : Type} (m : M A) (k : A → M B) w a w' :
  m w = (Ok a, w') → bind m k w = k a w'.
Proof. unfold bind. by intros ->. Qed.

Lemma bind_throw {A B : Type} (m : M A) (k : A → M B) w e w' :
  m w = (Throw e, w') → bind m k w = (Throw e, w').
Proof. unfold bind. by intros ->. Qed.

Lemma try_catch_ok {A : Type} (m : M A) (h : string → M A) w a w' :
  m w = (Ok a, w') → try_catch m h w = (Ok a, w').
Proof. unfold try_catch. by intros ->. Qed.

Lemma try_catch_throw {A : Type} (m : M A) (h : string → M A) w e w' :
  m w = (Throw e, w') → try_catch m h w = h e w'.
Proof. unfold try_catch. by intros ->. Qed.

Section Turn.
Context (ids : list string).

Lemma at_turn_trace ds c rest t l w :
  at_turn ids ds c rest t w → at_turn ids ds c rest (t ++ l) (with_trace l w).
Proof. intros [Htr Ht]. split; [done|]. simpl. by rewrite Ht. Qed.

Lemma at_turn_sessions ds c rest t f w :
  at_turn ids ds c rest t w → at_turn ids ds c rest t (with_sessions f w).
Proof. by intros [Htr Ht]. Qed.

Lemma at_turn_await_flight ds p image rest t acts w :
  idle ds → idle rest → forallb (benign ids) acts = true →
  at_turn ids ds [in_flight p image] rest t w →
  ∃ p', at_turn ids ds [in_flight p' image] rest t (with_store (externals acts) w).
Proof.
  intros Hds Hrest Hb [Htr Ht].
  pose proof (externals_tracked ids acts (store w) Hb) as Hstep.
  rewrite Htr in Hstep.
  apply progress_step_in_flight in Hstep as [p' Hp']; [|done..].
  exists p'. by split.
Qed.

Lemma at_turn_await_idle ds rest t acts w :
  idle ds → idle rest → forallb (benign ids) acts = true →
  at_turn ids ds [] rest t w →
  at_turn ids ds [] rest t (with_store (externals acts) w).
Proof.
  intros Hds Hrest Hb [Htr Ht].
  pose proof (externals_tracked ids acts (store w) Hb) as Hstep.
  rewrite Htr in Hstep. apply progress_step_settled in Hstep.
  - by split.
  - apply Forall_app. by split.
Qed.

(** The record of the current turn is the only one of the store with its
    id, so a transition of the entity that succeeds on it succeeds on the
    store and replaces that record alone. *)
Lemma transition_current ds x y rest t tag f eff w :
  at_turn ids ds [x] rest t w →
  id x ∈ ids →
  Forall (λ d, id d ≠ id x) ds → Forall (λ r, id r ≠ id x) rest →
  f x = Ok y → id y = id x →
  ∃ w', transition tag (id x) f eff w = (Ok tt, w') ∧
        at_turn ids ds [y] rest (t ++ [(tag, eff x)]) w'.
Proof.
  intros [Htr Ht] Hin Hds Hrest Hf Hid.
  assert (Hsame : ∀ img, img ∈ images (store w) → id img = id x → img = x).
  { intros img Himg Himgid.
    assert (Ht' : img ∈ tracked ids (images (store w))).
    { apply list_elem_of_filter. split; [by rewrite Himgid|done]. }
    rewrite Htr in Ht'. rewrite !elem_of_app in Ht'.
    destruct Ht' as [Hd|[Hc|Hr]].
    - eapply Forall_forall in Hds; [|exact Hd]. done.
    - by apply list_elem_of_singleton in Hc.
    - eapply Forall_forall in Hrest; [|exact Hr]. done. }
  assert (Hmap : map_where (id x) f (images (store w))
                 = Ok ((λ img, if decide (id img = id x) then y else img)
                         <$> images (store w))).
  { apply (map_where_fmap _ _ (λ _, y)). intros img Himg Himgid.
    by rewrite (Hsame img Himg Himgid). }
  assert (Hone : filter (λ img, id img = id x) (images (store w)) = [x]).
  { transitivity (filter (λ img, id img = id x) (tracked ids (images (store w)))).
    - unfold tracked. rewrite list_filter_filter. apply list_filter_iff.
      intros img. split; [intros Himg; split; [done|by rewrite Himg]|tauto].
    - rewrite Htr, !filter_app.
      rewrite (filter_none _ ds), (filter_none _ rest); [|done..].
      simpl. by rewrite filter_cons_True. }
  eexists. split.
  - unfold transition. rewrite Hmap, Hone. reflexivity.
  - split; simpl; [|by rewrite Ht].
    rewrite tracked_fmap by (intros img; case_decide; congruence).
    rewrite Htr. change ([x] ++ rest) with (x :: rest).
    change ([y] ++ rest) with (y :: rest).
    rewrite fmap_app, fmap_cons, decide_True by done.
    f_equal; [|f_equal]; rewrite <- list_fmap_id; apply list_fmap_ext;
      intros i img Himg; apply list_elem_of_lookup_2 in Himg;
      rewrite decide_False; try done.
    + by eapply Forall_forall in Hds.
    + by eapply Forall_forall in Hrest.
Qed.

Lemma at_turn_shift ds y rest t w :
  at_turn ids ds [y] rest t w → at_turn ids (ds ++ [y]) [] rest t w.
Proof. intros [Htr Ht]. split; [|done]. by rewrite Htr, <- app_assoc. Qed.

Lemma at_turn_eq ds c rest t t' w :
  at_turn ids ds c rest t w → t = t' → at_turn ids ds c rest t' w.
Proof. by intros H <-. Qed.

Lemma log_at ds c rest t tag e w :
  at_turn ids ds c rest t w →
  ∃ w', log tag e w = (Ok tt, w') ∧ at_turn ids ds c rest (t ++ [(tag, e)]) w'.
Proof. intros H. eexists. split; [done|]. by apply at_turn_trace. Qed.

Lemma startSmartProgress_flight ds p image rest t tag sc i sf tf sz q w :
  idle ds → idle rest → forallb (benign ids) (during_start sc) = true →
  at_turn ids ds [in_flight p image] rest t w →
  ∃ w' p', startSmartProgress tag sc i sf tf sz q w = (start_settled sc, w') ∧
           at_turn ids ds [in_flight p' image] rest
             (t ++ [(tag, EStartSmartProgress i sf tf sz q)]) w'.
Proof.
  intros Hds Hrest Hb H.
  eapply at_turn_trace in H.
  eapply at_turn_await_flight in H as [p' H]; [|done..].
  unfold startSmartProgress, bind, log, await, set, settle, set_sessions.
  destruct (start_settled sc) as [[]|e]; eexists _, p'; (split; [done|]).
  - by apply at_turn_sessions.
  - done.
Qed.

Lemma invoke_compress_flight ds p image rest t tag sc request i w :
  idle ds → idle rest → forallb (benign ids) (during_compress sc) = true →
  at_turn ids ds [in_flight p image] rest t w →
  ∃ w' p', invoke_compress tag sc request i w = (compress_settled sc, w') ∧
           at_turn ids ds [in_flight p' image] rest
             (t ++ [(tag, EInvoke (compress_image request i));
                    (tag, ECompressSettled (compress_settled sc))]) w'.
Proof.
  intros Hds Hrest Hb H.
  eapply at_turn_trace in H.
  eapply at_turn_await_flight in H as [p' H]; [|done..].
  eapply at_turn_trace in H.
  unfold invoke_compress, bind, log, await, set, settle.
  eexists _, p'. split; [reflexivity|].
  eapply at_turn_eq; [exact H|]. by rewrite <- app_assoc.
Qed.

Lemma completeImageProgress_flight ds p image rest t tag i w :
  idle ds → idle rest →
  at_turn ids ds [in_flight p image] rest t w →
  ∃ w' p', completeImageProgress tag i w = (Ok tt, w') ∧
           at_turn ids ds [in_flight p' image] rest
             (t ++ [(tag, ECompleteImageProgress i)]) w'.
Proof.
  intros Hds Hrest H.
  eapply at_turn_trace in H.
  unfold completeImageProgress, bind, log, set, set_sessions, ret.
  cbn beta iota. case_decide.
  - eapply (at_turn_await_flight _ _ _ _ _ [DoUpdateImageProgress i 100])
      in H as [p' H]; [|done..].
    eexists _, p'. split; [done|]. by apply at_turn_sessions.
  - by eexists _, p.
Qed.

Lemma errorImageProgress_at ds c rest t tag i msg w :
  at_turn ids ds c rest t w →
  ∃ w', errorImageProgress tag i msg w = (Ok tt, w') ∧
        at_turn ids ds c rest (t ++ [(tag, EErrorImageProgress i msg)]) w'.
Proof.
  intros H. eapply at_turn_trace in H.
  eexists. split; [done|]. by apply at_turn_sessions.
Qed.

Lemma invoke_record_with_time_idle ds rest t tag sc args ms w :
  idle ds → idle rest → forallb (benign ids) (during_record sc) = true →
  at_turn ids ds [] rest t w →
  ∃ w', invoke_record_with_time tag sc args ms w = (record_settled sc, w') ∧
        at_turn ids ds [] rest
          (t ++ [(tag, EInvoke (record_compression_result_with_time args ms))]) w'.
Proof.
  intros Hds Hrest Hb H.
  eapply at_turn_trace in H. eapply at_turn_await_idle in H; [|done..].
  unfold invoke_record_with_time, bind, log, await, set, settle.
  eexists. split; [reflexivity|done].
Qed.

Lemma invoke_record_idle ds rest t tag sc args w :
  idle ds → idle rest → forallb (benign ids) (during_fallback sc) = true →
  at_turn ids ds [] rest t w →
  ∃ w', invoke_record tag sc args w = (fallback_settled sc, w') ∧
        at_turn ids ds [] rest
          (t ++ [(tag, EInvoke (record_compression_result args))]) w'.
Proof.
  intros Hds Hrest Hb H.
  eapply at_turn_trace in H. eapply at_turn_await_idle in H; [|done..].
  unfold invoke_record, bind, log, await, set, settle.
  eexists. split; [reflexivity|done].
Qed.

(** The three steps shared by the [catch] block and by the branch of a
    failed answer. *)
Lemma failure_flight ds p image rest t msg toast w :
  id image ∈ ids →
  Forall (λ d, id d ≠ id image) ds → Forall (λ r, id r ≠ id image) rest →
  at_turn ids ds [in_flight p image] rest t w →
  ∃ w',
    (errorImageProgress (id image) (id image) msg >>
     transition (id image) (id image) toError
       (λ img, EToError (id img) (status img)) >>
     log (id image) (EToastError toast)) w = (Ok tt, w') ∧
    at_turn ids (ds ++ [set_progress p (set_status Error image)]) [] rest
      (t ++ [(id image, EErrorImageProgress (id image) msg);
             (id image, EToError (id image) Processing);
             (id image, EToastError toast)]) w'.
Proof.
  intros Hin Hds Hrest H.
  destruct (errorImageProgress_at _ _ _ _ (id image) (id image) msg _ H)
    as (w1 & E1 & H1).
  destruct (transition_current ds (in_flight p image)
              (set_progress p (set_status Error image)) rest _ (id image)
              toError (λ img, EToError (id img) (status img)) w1 H1)
    as (w2 & E2 & H2); [done..|].
  destruct (log_at _ _ _ _ (id image) (EToastError toast) _ H2) as (w3 & E3 & H3).
  exists w3. split.
  - rewrite (bind_ok _ _ _ _ _ E1). rewrite (bind_ok _ _ _ _ _ E2). exact E3.
  - apply at_turn_shift. eapply at_turn_eq; [exact H3|].
    by rewrite <- !app_assoc.
Qed.

Lemma telemetry_idle ds rest t tag sc args ms w :
  idle ds → idle rest →
  forallb (benign ids) (during_record sc) = true →
  forallb (benign ids) (during_fallback sc) = true →
  at_turn ids ds [] rest t w →
  ∃ w',
    try_catch (invoke_record_with_time tag sc args ms)
      (λ _, try_catch (invoke_record tag sc args) (λ _, ret tt)) w
    = (Ok tt, w') ∧
    at_turn ids ds [] rest
      (t ++ (tag, EInvoke (record_compression_result_with_time args ms)) ::
            match record_settled sc with
            | Ok _ => []
            | Throw _ => [(tag, EInvoke (record_compression_result args))]
            end) w'.
Proof.
  intros Hds Hrest Hb1 Hb2 H.
  destruct (invoke_record_with_time_idle _ _ _ tag sc args ms _ Hds Hrest Hb1 H)
    as (w1 & E1 & H1).
  destruct (record_settled sc) as [[]|e1].
  - exists w1. split; [by rewrite (try_catch_ok _ _ _ _ _ E1)|done].
  - destruct (invoke_record_idle _ _ _ tag sc args _ Hds Hrest Hb2 H1)
      as (w2 & E2 & H2).
    exists w2. split.
    + rewrite (try_catch_throw _ _ _ _ _ E1).
      destruct (fallback_settled sc) as [[]|e2].
      * by rewrite (try_catch_ok _ _ _ _ _ E2).
      * by rewrite (try_catch_throw _ _ _ _ _ E2).
    + eapply at_turn_eq; [exact H2|]. by rewrite <- app_assoc.
Qed.

Lemma benign_script_parts sc :
  benign_script ids sc = true →
  forallb (benign ids) (during_start sc) = true ∧
  forallb (benign ids) (during_compress sc) = true ∧
  forallb (benign ids) (during_record sc) = true ∧
  forallb (benign ids) (during_fallback sc) = true.
Proof.
  unfold benign_script, script_actions. rewrite !forallb_app, !andb_true_iff. tauto.
Qed.

Lemma settled_idle p sc image : status (settled p sc image) ≠ Processing.
Proof. unfold settled. by destruct (turn_result sc). Qed.

Lemma settled_id p sc image : id (settled p sc image) = id image.
Proof. unfold settled. by destruct (turn_result sc). Qed.

(** The turn of one image in a benign environment: it ends without an
    exception, leaves the record settled, and adds the expected effects. *)
Lemma process_image_benign cs sc image ds rest t w :
  benign_script ids sc = true →
  status image = Pending → id image ∈ ids →
  idle ds → idle rest →
  Forall (λ d, id d ≠ id image) ds → Forall (λ r, id r ≠ id image) rest →
  at_turn ids ds [image] rest t w →
  ∃ w' p,
    process_image cs sc image w = (Ok tt, w') ∧
    at_turn ids (ds ++ [settled p sc image]) [] rest (t ++ turn cs sc image) w'.
Proof.
  intros Hb Hst Hin Hds Hrest Hdsid Hrestid H.
  apply benign_script_parts in Hb as (Hb1 & Hb2 & Hb3 & Hb4).
  destruct (transition_current ds image (in_flight (Some 0) image) rest t
              (id image) (toProcessing 0)
              (λ img, EToProcessing (id img) (status img) 0) w H)
    as (w1 & E1 & H1); [done..| |done|].
  { unfold toProcessing, Image.isPending. by rewrite bool_decide_eq_true_2. }
  rewrite Hst in H1.
  destruct (startSmartProgress_flight ds _ image rest _ (id image) sc
              (id image) (format image)
              (if keepOriginalFormat cs then format image else "webp")
              (originalSize image) (quality cs) w1 Hds Hrest Hb1 H1)
    as (w2 & p2 & E2 & H2).
  unfold process_image, turn, expected_effects, settled, turn_result.
  destruct (start_settled sc) as [[]|e] eqn:Hs.
  - destruct (invoke_compress_flight ds _ image rest _ (id image) sc
                (compress_request cs image) (id image) w2 Hds Hrest Hb2 H2)
      as (w3 & p3 & E3 & H3).
    unfold answer_effects, payload.
    destruct (compress_settled sc) as [response|e] eqn:Hc.
    + destruct (success response) eqn:Hsucc;
        [destruct (result response) as [r|] eqn:Hres|].
      * (* the backend answered with a payload *)
        destruct (completeImageProgress_flight ds _ image rest _ (id image)
                    (id image) w3 Hds Hrest H3) as (w4 & p4 & E4 & H4).
        destruct (transition_current ds (in_flight p4 image)
                    (set_progress p4
                       (set_result (Some (compressed_size r)) (Some (output_path r))
                          (set_status Completed image)))
                    rest _ (id image)
                    (toCompleted (compressed_size r) (output_path r))
                    (λ img, EToCompleted (id img) (status img)
                              (compressed_size r) (output_path r)) w4 H4)
          as (w5 & E5 & H5); [done..|].
        apply at_turn_shift in H5.
        assert (Hds' : idle (ds ++ [set_progress p4
                       (set_result (Some (compressed_size r)) (Some (output_path r))
                          (set_status Completed image))])).
        { apply Forall_app. split; [done|]. by repeat constructor. }
        destruct (telemetry_idle _ _ _ (id image) sc (record_args cs image r)
                    (settled_at sc - started_at sc) w5 Hds' Hrest Hb3 Hb4 H5)
          as (w6 & E6 & H6).
        exists w6, p4. split.
        -- apply try_catch_ok. unfold try_image. cbv zeta.
           rewrite (bind_ok _ _ _ _ _ E1), (bind_ok _ _ _ _ _ E2),
             (bind_ok _ _ _ _ _ E3).
           rewrite Hsucc, Hres.
           rewrite (bind_ok _ _ _ _ _ E4), (bind_ok _ _ _ _ _ E5). exact E6.
        -- eapply at_turn_eq; [exact H6|]. unfold telemetry_effects.
           rewrite <- !app_assoc. by destruct (record_settled sc).
      * (* success without a payload *)
        destruct (failure_flight ds p3 image rest _
                    (error_or_default (error response))
                    ("Erreur compression " ++ name image ++ ": "
                       ++ error_text (error response))%string w3 Hin Hdsid Hrestid H3)
          as (w4 & E4 & H4).
        exists w4, p3. split.
        -- apply try_catch_ok. unfold try_image. cbv zeta.
           rewrite (bind_ok _ _ _ _ _ E1), (bind_ok _ _ _ _ _ E2),
             (bind_ok _ _ _ _ _ E3).
           rewrite Hsucc, Hres. exact E4.
        -- eapply at_turn_eq; [exact H4|]. by rewrite <- !app_assoc.
      * (* the backend answered with a failure *)
        destruct (failure_flight ds p3 image rest _
                    (error_or_default (error response))
                    ("Erreur compression " ++ name image ++ ": "
                       ++ error_text (error response))%string w3 Hin Hdsid Hrestid H3)
          as (w4 & E4 & H4).
        exists w4, p3. split.
        -- apply try_catch_ok. unfold try_image. cbv zeta.
           rewrite (bind_ok _ _ _ _ _ E1), (bind_ok _ _ _ _ _ E2),
             (bind_ok _ _ _ _ _ E3).
           rewrite Hsucc. exact E4.
        -- eapply at_turn_eq; [exact H4|]. by rewrite <- !app_assoc.
    + (* the command was rejected *)
      destruct (failure_flight ds p3 image rest _ e
                  ("Erreur compression " ++ name image ++ ": " ++ e)%string
                  w3 Hin Hdsid Hrestid H3) as (w4 & E4 & H4).
      exists w4, p3. split.
      * rewrite (try_catch_throw _ _ _ e w3); [exact E4|].
        unfold try_image. cbv zeta.
        rewrite (bind_ok _ _ _ _ _ E1), (bind_ok _ _ _ _ _ E2).
        by rewrite (bind_throw _ _ _ _ _ E3).
      * eapply at_turn_eq; [exact H4|]. by rewrite <- !app_assoc.
  - (* the estimator could not start *)
    destruct (failure_flight ds p2 image rest _ e
                ("Erreur compression " ++ name image ++ ": " ++ e)%string
                w2 Hin Hdsid Hrestid H2) as (w3 & E3 & H3).
    exists w3, p2. split.
    + rewrite (try_catch_throw _ _ _ e w2); [exact E3|].
      unfold try_image. cbv zeta.
      rewrite (bind_ok _ _ _ _ _ E1). by rewrite (bind_throw _ _ _ _ _ E2).
    + eapply at_turn_eq; [exact H3|]. by rewrite <- !app_assoc.
Qed.

End Turn.

Lemma settled_by_idle xs ds : Forall2 settled_by xs ds → idle ds.
Proof.
  induction 1 as [|x d xs ds [p ->] _ IH]; constructor; [|done].
  apply settled_idle.
Qed.

Lemma settled_by_ids env done ds :
  Forall2 settled_by (scripted env done) ds → id <$> ds = id <$> done.
Proof.
  unfold scripted. revert env ds. induction done as [|x done IH]; intros env ds H.
  - by inversion H.
  - rewrite imap_cons in H. inversion H as [|? d ? ds' [p ->] Hrest]; subst.
    rewrite !fmap_cons, settled_id. simpl. f_equal. by apply (IH (env ∘ S)).
Qed.

(** The loop over the rest of the snapshot, in a benign environment. *)
Lemma for_images_benign ids cs env rest :
  ∀ done ds t w,
    ids = id <$> (done ++ rest) → NoDup ids →
    Forall (λ x, status x = Pending) rest →
    benign_env ids env →
    Forall2 settled_by (scripted env done) ds →
    at_turn ids ds [] rest t w →
    ∃ w' ds',
      for_images cs env (length done) rest w = (Ok tt, w') ∧
      Forall2 settled_by (scripted env (done ++ rest)) ds' ∧
      at_turn ids ds' [] [] (t ++ turns cs env (length done) rest) w'.
Proof.
  induction rest as [|image rest IH]; intros done ds t w Hids Hnd Hpend Hb Hds H.
  - exists w, ds. rewrite app_nil_r. split; [done|]. split; [done|].
    eapply at_turn_eq; [exact H|]. unfold turns. simpl. by rewrite app_nil_r.
  - inversion Hpend as [|? ? Hst Hpend']; subst.
    assert (Hsplit : id <$> (done ++ image :: rest)
                     = (id <$> done) ++ id image :: (id <$> rest)).
    { by rewrite fmap_app, fmap_cons. }
    pose proof Hnd as Hnd0.
    rewrite Hsplit in Hnd. apply NoDup_app in Hnd as (Hnd1 & Hnd2 & Hnd3).
    apply NoDup_cons in Hnd3 as [Hnd3 Hnd4].
    assert (Hidle_rest : idle rest).
    { eapply Forall_impl; [exact Hpend'|]. intros x Hx. by rewrite Hx. }
    destruct (process_image_benign (id <$> (done ++ image :: rest)) cs
                (env (length done)) image ds rest t w) as (w1 & p & E1 & H1).
    + apply Hb.
    + done.
    + rewrite Hsplit. set_solver.
    + by eapply settled_by_idle.
    + done.
    + apply Forall_forall. intros d Hd Heq.
      apply (Hnd2 (id image)); [|left].
      rewrite <- (settled_by_ids env done ds Hds), <- Heq.
      by apply list_elem_of_fmap_2.
    + apply Forall_forall. intros r Hr Heq. apply Hnd3. rewrite <- Heq.
      by apply list_elem_of_fmap_2.
    + done.
    + destruct (IH (done ++ [image]) (ds ++ [settled p (env (length done)) image])
                  (t ++ turn cs (env (length done)) image) w1)
        as (w2 & ds2 & E2 & Hds2 & H2).
      * by rewrite <- app_assoc.
      * exact Hnd0.
      * done.
      * exact Hb.
      * unfold scripted in *. rewrite imap_app. apply Forall2_app; [done|].
        simpl. rewrite Nat.add_0_r. constructor; [by exists p|constructor].
      * exact H1.
      * exists w2, ds2. rewrite length_app, Nat.add_1_r in E2, H2.
        rewrite <- app_assoc in Hds2. split; [|split; [exact Hds2|]].
        -- simpl. by rewrite (bind_ok _ _ _ _ _ E1).
        -- rewrite <- app_assoc in H2. eapply at_turn_eq; [exact H2|].
           unfold turns. rewrite imap_cons. cbn [concat].
           rewrite Nat.add_0_r. do 3 f_equal. apply imap_ext.
           intros j x _. unfold compose. by rewrite Nat.add_succ_r.
Qed.

Lemma NoDup_fmap_elem {A B : Type} (f : A → B) (l : list A) x y :
  NoDup (f <$> l) → x ∈ l → y ∈ l → f x = f y → x = y.
Proof.
  induction l as [|a l IH]; intros Hnd Hx Hy Heq; [by inversion Hx|].
  rewrite fmap_cons in Hnd. apply NoDup_cons in Hnd as [Ha Hnd].
  apply elem_of_cons in Hx as [->|Hx]; apply elem_of_cons in Hy as [->|Hy].
  - done.
  - destruct Ha. rewrite Heq. by apply list_elem_of_fmap_2.
  - destruct Ha. rewrite <- Heq. by apply list_elem_of_fmap_2.
  - by apply IH.
Qed.

Lemma filter_ext_elem {A : Type} (P Q : A → Prop)
    `{HP : ∀ x, Decision (P x)} `{HQ : ∀ x, Decision (Q x)} (l : list A) :
  (∀ x, x ∈ l → P x ↔ Q x) → filter P l = filter Q l.
Proof.
  induction l as [|a l IH]; intros Hext; [done|].
  rewrite !filter_cons, IH by (intros x Hx; apply Hext; by right).
  destruct (decide (P a)) as [Hp|Hp], (decide (Q a)) as [Hq|Hq]; try done.
  - destruct Hq. by apply Hext; [left|].
  - destruct Hp. by apply Hext; [left|].
Qed.

(** With distinct ids, the records carrying an id of the snapshot are the
    snapshot itself. *)
Lemma tracked_snapshot s :
  NoDup (id <$> images s) →
  tracked (id <$> snapshot s) (images s) = snapshot s.
Proof.
  intros Hnd. unfold tracked, snapshot. apply filter_ext_elem.
  intros x Hx. split.
  - intros Hin. apply list_elem_of_fmap in Hin as (y & Heq & Hy).
    apply list_elem_of_filter in Hy as [Hp Hy].
    by rewrite (NoDup_fmap_elem id (images s) x y Hnd Hx Hy Heq).
  - intros Hp. apply list_elem_of_fmap_2. by apply list_elem_of_filter.
Qed.

Lemma snapshot_NoDup s :
  NoDup (id <$> images s) → NoDup (id <$> snapshot s).
Proof.
  intros Hnd. apply (sublist_NoDup _ (id <$> images s)); [exact Hnd|].
  apply fmap_sublist. unfold snapshot. apply sublist_filter.
Qed.

Lemma snapshot_pending s : Forall (λ x, status x = Pending) (snapshot s).
Proof.
  apply Forall_forall. intros x Hx. unfold snapshot in Hx.
  apply list_elem_of_filter in Hx as [Hp _].
  unfold Image.isPending in Hp. by apply bool_decide_eq_true_1 in Hp.
Qed.

(** A whole run in a benign environment. *)
Lemma run_benign env w :
  Store.isProcessing (store w) = false →
  NoDup (id <$> images (store w)) →
  benign_env (id <$> snapshot (store w)) env →
  ∃ w' ds,
    startCompression env w = (Ok tt, w') ∧
    trace w'
    = trace w ++ turns (compressionSettings (store w)) env 0 (snapshot (store w)) ∧
    tracked (id <$> snapshot (store w)) (images (store w')) = ds ∧
    Forall2 settled_by (scripted env (snapshot (store w))) ds ∧
    Store.isProcessing (store w') = false ∧
    (snapshot (store w) ≠ [] → compressionState (store w') = StateCompleted).
Proof.
  intros Hrun Hnd Hb.
  unfold startCompression, bind at 1, get. rewrite Hrun.
  fold (snapshot (store w)). case_decide as Hlen.
  - apply nil_length_inv in Hlen. rewrite Hlen.
    exists w, []. unfold turns. simpl. rewrite app_nil_r.
    repeat split; try done; try constructor.
    apply tracked_none, Forall_forall. intros x _ Hx. by inversion Hx.
  - set (w0 := with_store
                 (λ s, set_compressionState StateProcessing (set_isProcessing true s)) w).
    destruct (for_images_benign (id <$> snapshot (store w))
                (compressionSettings (store w)) env (snapshot (store w))
                [] [] (trace w) w0) as (w1 & ds & E1 & Hds & [Htr Ht]).
    + done.
    + by apply snapshot_NoDup.
    + apply snapshot_pending.
    + done.
    + constructor.
    + split; [|done]. simpl. by apply tracked_snapshot.
    + exists (with_store (set_isProcessing false)
                (with_store (set_compressionState StateCompleted) w1)), ds.
      split; [|repeat split; try done].
      * rewrite (bind_ok _ _ _ tt w0) by done.
        unfold try_finally. simpl in E1.
        rewrite (bind_ok _ _ _ _ _ E1). done.
      * simpl. by rewrite app_nil_r in Htr.
Qed.

End TurnFacts.

Module TraceFacts.
Import Image Store Orchestrator Run StoreFacts TrackedFacts TurnFacts.

Lemma turns_cons cs env k image snap :
  turns cs env k (image :: snap)
  = turn cs (env k) image ++ turns cs env (S k) snap.
Proof.
  unfold turns. rewrite imap_cons. cbn [concat]. rewrite Nat.add_0_r.
  do 2 f_equal. apply imap_ext. intros j x _. unfold compose.
  by rewrite Nat.add_succ_r.
Qed.










Lemma turn_in_turns cs env snap :
  ∀ k0 k image e,
    snap !! k = Some image → e ∈ turn cs (env (k0 + k)%nat) image →
    e ∈ turns cs env k0 snap.
Proof.
  induction snap as [|x snap IH]; intros k0 k image e Hk He; [done|].
  rewrite turns_cons, elem_of_app. destruct k as [|k]; simpl in Hk.
  - inversion Hk; subst. left. by rewrite Nat.add_0_r in He.
  - right. apply (IH (S k0) k image); [done|]. by rewrite Nat.add_succ_r in He.
Qed.


End TraceFacts.

Module RunFacts.
Import Image Store Orchestrator Run StoreFacts TrackedFacts TurnFacts TraceFacts.




End RunFacts.

Module EmitFacts.
Import Image Store Orchestrator Run.

Section Emits.
Context (P : string * Effect → Prop).

Lemma emits_silent {A : Type} (m : M A) :
  (∀ w, trace (m w).2 = trace w) → emits P m.
Proof. intros Hm w. exists []. by rewrite app_nil_r. Qed.

Lemma emits_ret {A : Type} (a : A) : emits P (ret a).
Proof. by apply emits_silent. Qed.

Lemma emits_settle {A : Type} (o : Outcome A) : emits P (settle o).
Proof. by apply emits_silent. Qed.

Lemma emits_set f : emits P (set f).
Proof. by apply emits_silent. Qed.

Lemma emits_set_sessions f : emits P (set_sessions f).
Proof. by apply emits_silent. Qed.

Lemma emits_log tag e : P (tag, e) → emits P (log tag e).
Proof. intros He w. exists [(tag, e)]. split; [done|]. by constructor. Qed.

Lemma emits_bind {A B : Type} (m : M A) (k : A → M B) :
  emits P m → (∀ a, emits P (k a)) → emits P (bind m k).
Proof.
  intros Hm Hk w. destruct (Hm w) as (l1 & Ht1 & Hl1). unfold bind.
  destruct (m w) as [[a|e] w1]; simpl in *; [|by exists l1].
  destruct (Hk a w1) as (l2 & Ht2 & Hl2). exists (l1 ++ l2). split.
  - by rewrite Ht2, Ht1, app_assoc.
  - by apply Forall_app.
Qed.

Lemma emits_try_catch {A : Type} (m : M A) (h : string → M A) :
  emits P m → (∀ e, emits P (h e)) → emits P (try_catch m h).
Proof.
  intros Hm Hh w. destruct (Hm w) as (l1 & Ht1 & Hl1). unfold try_catch.
  destruct (m w) as [[a|e] w1]; simpl in *; [by exists l1|].
  destruct (Hh e w1) as (l2 & Ht2 & Hl2). exists (l1 ++ l2). split.
  - by rewrite Ht2, Ht1, app_assoc.
  - by apply Forall_app.
Qed.

Lemma emits_try_finally {A : Type} (m : M A) (f : M unit) :
  emits P m → emits P f → emits P (try_finally m f).
Proof.
  intros Hm Hf w. destruct (Hm w) as (l1 & Ht1 & Hl1). unfold try_finally.
  destruct (m w) as [r w1]; simpl in *.
  destruct (Hf w1) as (l2 & Ht2 & Hl2).
  exists (l1 ++ l2). split; [|by apply Forall_app].
  destruct (f w1) as [[[]|e] w2]; simpl in *; by rewrite Ht2, Ht1, app_assoc.
Qed.

Lemma emits_transition tag i f eff :
  (∀ img, P (tag, eff img)) → emits P (transition tag i f eff).
Proof.
  intros He w. unfold transition.
  destruct (map_where i f (images (store w))) as [imgs|e]; simpl.
  - eexists. split; [done|]. apply Forall_fmap, Forall_forall.
    intros img _. apply He.
  - exists []. by rewrite app_nil_r.
Qed.

Lemma emits_completeImageProgress tag i :
  P (tag, ECompleteImageProgress i) → emits P (completeImageProgress tag i).
Proof.
  intros He. unfold completeImageProgress. apply emits_bind.
  - by apply emits_log.
  - intros _ w. case_decide.
    + by apply (emits_bind _ _ (emits_set _) (λ _, emits_set_sessions _)).
    + by apply emits_ret.
Qed.

End Emits.

Lemma from_settings_other cs snap tag e :
  is_compress e = false → from_settings cs snap (tag, e).
Proof. intros He request imageId Heq. simpl in Heq. by rewrite Heq in He. Qed.

Lemma from_settings_compress cs snap image :
  image ∈ snap →
  from_settings cs snap
    (id image, EInvoke (compress_image (compress_request cs image) (id image))).
Proof.
  intros Hin request imageId Heq. simpl in Heq. inversion Heq; subst.
  by exists image.
Qed.

(** The turn of an image of the snapshot only sends compress commands
    built from the settings of the beginning of the run. *)
Lemma process_image_from_settings cs snap sc image :
  image ∈ snap → emits (from_settings cs snap) (process_image cs sc image).
Proof.
  intros Hin.
  assert (Hfail : ∀ msg toast,
    emits (from_settings cs snap)
      (errorImageProgress (id image) (id image) msg >>
       transition (id image) (id image) toError
         (λ img, EToError (id img) (status img)) >>
       log (id image) (EToastError toast))).
  { intros msg toast. apply emits_bind.
    - apply emits_bind; [by apply emits_log, from_settings_other|].
      intros _. apply emits_set_sessions.
    - intros _. apply emits_bind.
      + apply emits_transition. intros img. by apply from_settings_other.
      + intros _. by apply emits_log, from_settings_other. }
  unfold process_image. apply emits_try_catch; [|intros e; apply Hfail].
  unfold try_image. cbv zeta. apply emits_bind.
  { apply emits_transition. intros img. by apply from_settings_other. }
  intros _. apply emits_bind.
  { unfold startSmartProgress.
    apply emits_bind; [by apply emits_log, from_settings_other|intros _].
    apply emits_bind; [apply emits_set|intros _].
    apply emits_bind; [apply emits_settle|intros _].
    apply emits_set_sessions. }
  intros _. apply emits_bind.
  { unfold invoke_compress.
    apply emits_bind; [by apply emits_log, from_settings_compress|intros _].
    apply emits_bind; [apply emits_set|intros _].
    apply emits_bind; [by apply emits_log, from_settings_other|intros _].
    apply emits_settle. }
  intros response.
  destruct (success response); [destruct (result response) as [r|]|];
    try apply Hfail.
  apply emits_bind.
  { by apply emits_completeImageProgress, from_settings_other. }
  intros _. apply emits_bind.
  { apply emits_transition. intros img. by apply from_settings_other. }
  intros _. apply emits_try_catch.
  - unfold invoke_record_with_time.
    apply emits_bind; [by apply emits_log, from_settings_other|intros _].
    apply emits_bind; [apply emits_set|intros _]. apply emits_settle.
  - intros _. apply emits_try_catch; [|intros _; apply emits_ret].
    unfold invoke_record.
    apply emits_bind; [by apply emits_log, from_settings_other|intros _].
    apply emits_bind; [apply emits_set|intros _]. apply emits_settle.
Qed.

Lemma for_images_from_settings cs snap env k pendingImages :
  Forall (λ image, image ∈ snap) pendingImages →
  emits (from_settings cs snap) (for_images cs env k pendingImages).
Proof.
  intros Hall. revert k. induction Hall as [|image rest Hin _ IH]; intros k.
  - apply emits_ret.
  - simpl. apply emits_bind; [by apply process_image_from_settings|].
    intros _. apply IH.
Qed.

(** C4, as amended.  In every environment, each compress command of a
    run is sent for an image of the pending snapshot, with the path of
    that image, the quality of the settings as they were when the run
    began, and the format ['auto'] if those settings keep the original
    format and ['webp'] otherwise; what is done to the settings during the
    run has no effect on it. *)
Theorem compress_requests_use_run_settings (env : Env) (w : World) :
  ∃ l,
    trace (startCompression env w).2 = trace w ++ l ∧
    Forall (from_settings (compressionSettings (store w)) (snapshot (store w))) l.
Proof.
  unfold startCompression, bind at 1, get.
  destruct (Store.isProcessing (store w)); [by exists []; rewrite app_nil_r|].
  fold (snapshot (store w)).
  case_decide; [by exists []; rewrite app_nil_r|].
  apply (emits_bind _ _ _ (emits_set _ _)). intros _.
  apply emits_try_finally; [|apply emits_set].
  apply emits_bind; [|intros _; apply emits_set].
  apply for_images_from_settings. by apply Forall_forall.
Qed.

End EmitFacts.

(** * Further properties of the code *)

Module SchemaMore.
Import Schema SchemaFacts.

Ltac resolve_cases outputFormat level :=
  rewrite ?resolve_refines_table; unfold spec_table, spec_effective;
  destruct outputFormat, level; simpl; repeat case_decide; simpl.

(** X1.  Whatever the preset and the source, the resolved quality is one
    of 60, 80, 92 and 100, so it always passes the bounds 1..100 that
    [CompressImageRequestSchema] puts on [quality]; and the resolver asks
    for a lossy encoding exactly when the quality is below 100: a lossless
    result always carries quality 100. *)
Theorem resolved_quality_and_lossy outputFormat level sourceFormat :
  quality (resolveCompressionParams outputFormat level sourceFormat)
    ∈ [60; 80; 92; 100] ∧
  1 ≤ quality (resolveCompressionParams outputFormat level sourceFormat) ≤ 100 ∧
  (lossy (resolveCompressionParams outputFormat level sourceFormat) = true
   ↔ quality (resolveCompressionParams outputFormat level sourceFormat) < 100).
Proof.
  resolve_cases outputFormat level;
    (split; [set_solver|split; [lia|split; (done || lia)]]).
Qed.

(** X2.  For a given output format and source, a more aggressive level
    never resolves to a higher quality, and never turns a lossy result
    into a lossless one. *)
Theorem resolved_quality_monotone outputFormat sourceFormat :
  quality (resolveCompressionParams outputFormat Aggressive sourceFormat)
  ≤ quality (resolveCompressionParams outputFormat Balanced sourceFormat)
  ≤ quality (resolveCompressionParams outputFormat Light sourceFormat) ∧
  (lossy (resolveCompressionParams outputFormat Light sourceFormat) = true →
   lossy (resolveCompressionParams outputFormat Balanced sourceFormat) = true) ∧
  (lossy (resolveCompressionParams outputFormat Balanced sourceFormat) = true →
   lossy (resolveCompressionParams outputFormat Aggressive sourceFormat) = true).
Proof.
  rewrite !resolve_refines_table. unfold spec_table, spec_effective.
  destruct outputFormat; simpl; repeat case_decide; simpl;
    (split; [lia|split; done]).
Qed.

(** X3.  The wire format is ['auto'] exactly for the preset [keep] on a
    source that is not HEIC; and the source format only matters for
    [keep]: for the three explicit output formats the result is the same
    for every source. *)
Theorem resolved_format_and_source outputFormat level sourceFormat :
  (format (resolveCompressionParams outputFormat level sourceFormat) = "auto"
   ↔ outputFormat = Keep ∧ sourceFormat ≠ "HEIC") ∧
  format (resolveCompressionParams outputFormat level sourceFormat)
    ∈ ["webp"; "jpeg"; "png"; "auto"] ∧
  ∀ otherSource,
    resolveCompressionParams Webp level sourceFormat
    = resolveCompressionParams Webp level otherSource ∧
    resolveCompressionParams Jpeg level sourceFormat
    = resolveCompressionParams Jpeg level otherSource ∧
    resolveCompressionParams Png level sourceFormat
    = resolveCompressionParams Png level otherSource.
Proof.
  split; [|split].
  - resolve_cases outputFormat level; split;
      (done || (intros [? ?]; done) || (by split)).
  - resolve_cases outputFormat level; set_solver.
  - intros otherSource. by destruct level.
Qed.

End SchemaMore.

Module SettingsFacts.
Import Image Store Orchestrator Run Frame.

Lemma store_eta s :
  {| images := images s; compressionState := compressionState s;
     isProcessing := Store.isProcessing s;
     compressionSettings := compressionSettings s;
     progressState := progressState s |} = s.
Proof. by destruct s. Qed.

Lemma clamped_finite (x : Q) :
  clamped_quality (Finite x)
  = if Qle_bool 100 x then Finite 100
    else if Qle_bool 1 x then Finite x else Finite 1.
Proof.
  unfold clamped_quality, Math_max, Math_min, number_le.
  destruct (Qle_bool 100 x); [done|]. by destruct (Qle_bool 1 x).
Qed.

Lemma Qle_bool_false (x y : Q) : Qle_bool x y = false ↔ (y < x)%Q.
Proof.
  rewrite <- not_true_iff_false, Qle_bool_iff. split; [apply Qnot_le_lt|apply Qlt_not_le].
Qed.

Lemma Qle_bool_inject (a b : Z) : Qle_bool (inject_Z a) (inject_Z b) = (a <=? b).
Proof.
  destruct (a <=? b) eqn:E.
  - apply Qle_bool_iff. rewrite <- Zle_Qle. lia.
  - apply Qle_bool_false. rewrite <- Zlt_Qlt. lia.
Qed.

(** X4.  The value [setQuality] stores, [Math.max(1, Math.min(100,
    quality))]: it is [NaN] for [NaN], which the two bounds do not catch,
    and for no other number; for every other number it is a number within
    1..100: the number itself when that lies within 1..100, 1 when it is
    smaller (minus infinity included) and 100 when it is larger (plus
    infinity included).  For an integer the store gets that value as its
    quality, and nothing else of the store changes. *)
Theorem setQuality_clamps (q : Number) :
  (clamped_quality q = NaN ↔ q = NaN) ∧
  clamped_quality MinusInfinity = Finite 1 ∧
  clamped_quality PlusInfinity = Finite 100 ∧
  (∀ x, q = Finite x →
        ∃ y, clamped_quality q = Finite y ∧
             (1 <= y)%Q ∧ (y <= 100)%Q ∧
             ((x < 1)%Q → (y == 1)%Q) ∧
             ((1 <= x)%Q → (x <= 100)%Q → (y == x)%Q) ∧
             ((100 < x)%Q → (y == 100)%Q)) ∧
  ∀ (z : Z) (s : ImageStore),
    clamped_quality (integer z)
    = integer (quality (compressionSettings (setQuality z s))) ∧
    1 ≤ quality (compressionSettings (setQuality z s)) ≤ 100 ∧
    (1 ≤ z ≤ 100 → quality (compressionSettings (setQuality z s)) = z) ∧
    keepOriginalFormat (compressionSettings (setQuality z s))
    = keepOriginalFormat (compressionSettings s) ∧
    images (setQuality z s) = images s ∧
    Store.isProcessing (setQuality z s) = Store.isProcessing s ∧
    compressionState (setQuality z s) = compressionState s ∧
    progressState (setQuality z s) = progressState s.
Proof.
  split; [|split; [done|split; [done|split]]].
  - destruct q as [| |x|]; try done.
    rewrite clamped_finite. split; [|done].
    destruct (Qle_bool 100 x); [done|]. by destruct (Qle_bool 1 x).
  - intros x ->. rewrite clamped_finite.
    destruct (Qle_bool 100 x) eqn:E100.
    + apply Qle_bool_iff in E100. exists 100%Q. split; [done|].
      split; [lra|]. split; [lra|].
      split; [intros; lra|]. split; intros; lra.
    + apply Qle_bool_false in E100.
      destruct (Qle_bool 1 x) eqn:E1.
      * apply Qle_bool_iff in E1. exists x. split; [done|].
        split; [lra|]. split; [lra|].
        split; [intros; lra|]. split; intros; lra.
      * apply Qle_bool_false in E1. exists 1%Q. split; [done|].
        split; [lra|]. split; [lra|].
        split; [intros; lra|]. split; intros; lra.
  - intros z s. split; [|simpl; repeat split; lia].
    unfold integer. rewrite clamped_finite. simpl quality.
    change 100%Q with (inject_Z 100). change 1%Q with (inject_Z 1).
    rewrite !Qle_bool_inject.
    destruct (100 <=? z) eqn:E100; [f_equal; f_equal; lia|].
    destruct (1 <=? z) eqn:E1; f_equal; f_equal; lia.
Qed.

(** X6.  [toggleLossyMode] sets the quality to 80 when it is at least 90
    and to 95 otherwise, so the quality always changes: 80 becomes 95 and
    95 becomes 80, and from then on the two alternate.  A quality set by
    other means is not restored: two toggles give back the store exactly
    when the quality was 80 or 95 (three toggles are one toggle).  Nothing
    else of the store changes. *)
Theorem toggleLossyMode_alternates (s : ImageStore) :
  (90 ≤ quality (compressionSettings s) →
   quality (compressionSettings (toggleLossyMode s)) = 80) ∧
  (quality (compressionSettings s) < 90 →
   quality (compressionSettings (toggleLossyMode s)) = 95) ∧
  quality (compressionSettings (toggleLossyMode s)) ≠ quality (compressionSettings s) ∧
  quality (compressionSettings (toggleLossyMode (toggleLossyMode s)))
  = (if decide (90 ≤ quality (compressionSettings s)) then 95 else 80) ∧
  toggleLossyMode (toggleLossyMode (toggleLossyMode s)) = toggleLossyMode s ∧
  (toggleLossyMode (toggleLossyMode s) = s
   ↔ quality (compressionSettings s) = 80 ∨ quality (compressionSettings s) = 95) ∧
  keepOriginalFormat (compressionSettings (toggleLossyMode s))
  = keepOriginalFormat (compressionSettings s) ∧
  images (toggleLossyMode s) = images s ∧
  Store.isProcessing (toggleLossyMode s) = Store.isProcessing s ∧
  compressionState (toggleLossyMode s) = compressionState s ∧
  progressState (toggleLossyMode s) = progressState s.
Proof.
  destruct s as [imgs st pr [q k] ps].
  unfold toggleLossyMode, set_compressionSettings. simpl.
  split; [intros H; by rewrite (proj2 (Z.leb_le 90 q) H)|].
  split; [intros H; by rewrite (proj2 (Z.leb_gt 90 q) H)|].
  split; [destruct (90 <=? q) eqn:E; [apply Z.leb_le in E|apply Z.leb_gt in E]; lia|].
  split; [destruct (90 <=? q) eqn:E;
          [apply Z.leb_le in E; by rewrite decide_True
          |apply Z.leb_gt in E; rewrite decide_False by lia; done]|].
  split; [by destruct (90 <=? q)|].
  split; [|done].
  split.
  - intros Heq. injection Heq as Heq.
    destruct (90 <=? q) eqn:E; simpl in Heq; lia.
  - intros [-> | ->]; done.
Qed.

(** X7.  [toggleWebPConversion] is an involution of the store, and each
    toggle switches the format of the compress requests built from the
    settings between ['auto'] and ['webp'], leaving their quality and
    path alone. *)
Theorem toggleWebPConversion_involution (s : ImageStore) (image : ImageEntity) :
  toggleWebPConversion (toggleWebPConversion s) = s ∧
  request_format (compress_request (compressionSettings (toggleWebPConversion s)) image)
  ≠ request_format (compress_request (compressionSettings s) image) ∧
  request_format (compress_request (compressionSettings s) image) ∈ ["auto"; "webp"] ∧
  request_quality (compress_request (compressionSettings (toggleWebPConversion s)) image)
  = request_quality (compress_request (compressionSettings s) image) ∧
  file_path (compress_request (compressionSettings (toggleWebPConversion s)) image)
  = file_path (compress_request (compressionSettings s) image).
Proof.
  destruct s as [imgs st pr [q k] ps].
  unfold toggleWebPConversion, set_compressionSettings, compress_request. simpl.
  repeat split; destruct k; simpl; try done; set_solver.
Qed.

End SettingsFacts.

Module CollectionFacts.
Import Image Store Orchestrator Run Frame Getters StoreFacts SettingsFacts.

(** X8.  [removeImage] drops exactly the records of the given id and
    keeps the others in their order, so distinct ids stay distinct; the
    store is left as it was exactly when no record carries the id.  The
    guard, the run state, the settings and also [progressState] are not
    touched, so the progress entry written for an image outlives its
    removal. *)
Theorem removeImage_removes_only_that_id (imageId : string) (s : ImageStore) :
  (∀ img, img ∈ images (removeImage imageId s) ↔ img ∈ images s ∧ id img ≠ imageId) ∧
  images (removeImage imageId s) `sublist_of` images s ∧
  (NoDup (id <$> images s) → NoDup (id <$> images (removeImage imageId s))) ∧
  (removeImage imageId s = s ↔ imageId ∉ id <$> images s) ∧
  progressState (removeImage imageId s) = progressState s ∧
  (∀ p, progressState (removeImage imageId (updateImageProgress imageId p s)) !! imageId
        = Some p) ∧
  Store.isProcessing (removeImage imageId s) = Store.isProcessing s ∧
  compressionState (removeImage imageId s) = compressionState s ∧
  compressionSettings (removeImage imageId s) = compressionSettings s.
Proof.
  split; [|split; [|split; [|split; [|split; [|split]]]]]; try done.
  - intros img. simpl. rewrite list_elem_of_filter. tauto.
  - apply sublist_filter.
  - intros Hnd. eapply sublist_NoDup; [exact Hnd|].
    apply fmap_sublist, sublist_filter.
  - split.
    + intros Heq Hin. apply list_elem_of_fmap in Hin as (img & -> & Hin).
      rewrite <- Heq in Hin. simpl in Hin.
      by apply list_elem_of_filter in Hin as [? _].
    + intros Hn. unfold removeImage. rewrite filter_all; [apply store_eta|].
      apply Forall_forall. intros img Hin Heq. apply Hn. rewrite <- Heq.
      apply list_elem_of_fmap. eauto.
  - intros p. simpl. by rewrite lookup_insert_eq.
Qed.

Lemma filter_swap {A : Type} (P Q : A → Prop)
    `{∀ x, Decision (P x)} `{∀ x, Decision (Q x)} (l : list A) :
  filter P (filter Q l) = filter Q (filter P l).
Proof.
  induction l as [|x l IH]; [done|].
  rewrite !filter_cons.
  destruct (decide (Q x)), (decide (P x)); rewrite ?filter_cons;
    repeat case_decide; try done; by f_equal.
Qed.

Lemma reset_images s :
  images (resetProcessingImages s)
  = (λ img, if decide (status img = Processing) then withStatus Pending img else img)
      <$> images s.
Proof. done. Qed.

(** X9.  After [resetProcessingImages] no record is being processed:
    the records that were are pending again, every other record is
    untouched, the collection keeps its length, order and identities, the
    guard is cleared and the run state is idle.  Resetting twice is
    resetting once. *)
Theorem resetProcessingImages_leaves_none_processing (s : ImageStore) :
  Forall (λ img, status img ≠ Processing) (images (resetProcessingImages s)) ∧
  (∀ k img, images s !! k = Some img →
     ∃ img', images (resetProcessingImages s) !! k = Some img' ∧
             identity img' = identity img ∧
             (status img = Processing → status img' = Pending) ∧
             (status img ≠ Processing → img' = img)) ∧
  length (images (resetProcessingImages s)) = length (images s) ∧
  Store.isProcessing (resetProcessingImages s) = false ∧
  compressionState (resetProcessingImages s) = StateIdle ∧
  compressionSettings (resetProcessingImages s) = compressionSettings s ∧
  progressState (resetProcessingImages s) = progressState s ∧
  resetProcessingImages (resetProcessingImages s) = resetProcessingImages s.
Proof.
  split; [|split; [|split; [|repeat split]]].
  - rewrite reset_images. apply Forall_fmap, Forall_forall. intros img _. simpl.
    case_decide; simpl; congruence.
  - intros k img Hk. rewrite reset_images, list_lookup_fmap, Hk. simpl.
    eexists; split; [done|]. case_decide; simpl; repeat split; try done.
  - rewrite reset_images. apply length_fmap.
  - unfold resetProcessingImages at 1 3.
    unfold set_compressionState, set_isProcessing, set_images. simpl. f_equal.
    rewrite <- list_fmap_compose. apply list_fmap_ext. intros k img _. simpl.
    destruct (decide (status img = Processing)) as [H1|H1]; simpl.
    + done.
    + by rewrite decide_False.
Qed.

Lemma requeued_pending img :
  status (if decide (status img = Processing) then withStatus Pending img else img)
  = Pending ↔ status img = Pending ∨ status img = Processing.
Proof. case_decide; simpl; intuition congruence. Qed.

Lemma requeued_id img :
  id (if decide (status img = Processing) then withStatus Pending img else img)
  = id img.
Proof. by case_decide. Qed.

(** X10.  The records a run would take after a reset are the ones that
    were pending or being processed, in the order of the collection. *)
Theorem resetProcessingImages_requeues (s : ImageStore) :
  id <$> snapshot (resetProcessingImages s)
  = id <$> filter (λ img, status img = Pending ∨ status img = Processing) (images s) ∧
  length (snapshot (resetProcessingImages s))
  = (length (snapshot s)
     + length (filter (λ img, Image.isProcessing img = true) (images s)))%nat.
Proof.
  unfold snapshot. rewrite reset_images.
  induction (images s) as [|img imgs [IH1 IH2]]; [done|].
  rewrite fmap_cons, !filter_cons.
  pose proof (requeued_pending img) as Hr.
  pose proof (requeued_id img) as Hi.
  unfold Image.isPending, Image.isProcessing in *.
  repeat case_decide; rewrite ?fmap_cons, ?Hi; simpl;
    repeat match goal with
           | H : bool_decide _ = true |- _ => apply bool_decide_eq_true in H
           | H : ¬ bool_decide _ = true |- _ => rewrite bool_decide_eq_true in H
           end;
    try (exfalso; intuition congruence).
  - split; [by f_equal|]. by rewrite IH2.
  - split; [by f_equal|]. rewrite IH2. lia.
  - done.
Qed.

(** X11.  [updateImageProgress] records the value under the id in
    [progressState] as it is given, whether or not a record carries the
    id; a record being processed under that id gets the value clamped
    into 0..100, and no record changes its status or identity.  The
    entries of other ids and the rest of the store are untouched. *)
Theorem updateImageProgress_records (imageId : string) (p : Z) (s : ImageStore) :
  progressState (updateImageProgress imageId p s) !! imageId = Some p ∧
  (∀ j, j ≠ imageId →
        progressState (updateImageProgress imageId p s) !! j = progressState s !! j) ∧
  (∀ k img, images s !! k = Some img →
     ∃ img', images (updateImageProgress imageId p s) !! k = Some img' ∧
             identity img' = identity img ∧ status img' = status img ∧
             (id img = imageId → status img = Processing →
              progress img' = Some (clamp_percent p) ∧
              0 ≤ clamp_percent p ≤ 100) ∧
             (id img ≠ imageId ∨ status img ≠ Processing → img' = img)) ∧
  Store.isProcessing (updateImageProgress imageId p s) = Store.isProcessing s ∧
  compressionState (updateImageProgress imageId p s) = compressionState s ∧
  compressionSettings (updateImageProgress imageId p s) = compressionSettings s.
Proof.
  split; [|split; [|split; [|done]]].
  - simpl. apply lookup_insert_eq.
  - intros j Hj. simpl. by rewrite lookup_insert_ne.
  - intros k img Hk. simpl. rewrite list_lookup_fmap, Hk. simpl.
    eexists; split; [done|].
    case_decide as Hid.
    + destruct (decide (status img = Processing)) as [Hp|Hp].
      * rewrite updateProgress_processing by done. simpl.
        repeat split; try done; unfold clamp_percent; try lia.
        intros [?|?]; done.
      * rewrite updateProgress_other by done. repeat split; done.
    + repeat split; done.
Qed.

Lemma update_twice i p q img :
  (if decide (id (if decide (id img = i) then updateProgress p img else img) = i)
   then updateProgress q (if decide (id img = i) then updateProgress p img else img)
   else (if decide (id img = i) then updateProgress p img else img))
  = if decide (id img = i) then updateProgress q img else img.
Proof.
  unfold updateProgress, Image.isProcessing. destruct img as [i0 ? ? ? ? ? st ? ? ? ?].
  simpl. destruct (decide (i0 = i)) as [->|Hne]; simpl.
  - destruct (bool_decide (st = Processing)) eqn:E; simpl;
      rewrite decide_True by done; simpl; by rewrite E.
  - by rewrite decide_False.
Qed.

Lemma update_swap i j p q img :
  i ≠ j →
  (if decide (id (if decide (id img = j) then updateProgress q img else img) = i)
   then updateProgress p (if decide (id img = j) then updateProgress q img else img)
   else (if decide (id img = j) then updateProgress q img else img))
  = if decide (id (if decide (id img = i) then updateProgress p img else img) = j)
    then updateProgress q (if decide (id img = i) then updateProgress p img else img)
    else (if decide (id img = i) then updateProgress p img else img).
Proof.
  intros Hij.
  unfold updateProgress, Image.isProcessing. destruct img as [i0 ? ? ? ? ? st ? ? ? ?].
  simpl. destruct (decide (i0 = j)) as [Hj|Hj], (decide (i0 = i)) as [Hi|Hi];
    simplify_eq; simpl.
  - destruct (bool_decide (st = Processing)) eqn:E; simpl;
      rewrite decide_False by done; rewrite decide_True by done; simpl;
      by rewrite ?E.
  - destruct (bool_decide (st = Processing)) eqn:E; simpl;
      rewrite decide_True by done; rewrite decide_False by done; simpl;
      by rewrite ?E.
  - rewrite decide_False by done. by rewrite decide_False.
Qed.

Lemma updateImageProgress_overwrite i p q s :
  updateImageProgress i q (updateImageProgress i p s) = updateImageProgress i q s.
Proof.
  unfold updateImageProgress, set_progressState, set_images. simpl.
  f_equal; [|by rewrite insert_insert_eq].
  rewrite <- list_fmap_compose. apply list_fmap_ext. intros k img _.
  apply update_twice.
Qed.

(** X12.  Progress updates of one id overwrite each other, the last one
    wins on the whole store; updates of different ids commute. *)
Theorem updateImageProgress_last_wins (i j : string) (p q : Z) (s : ImageStore) :
  updateImageProgress i q (updateImageProgress i p s) = updateImageProgress i q s ∧
  (i ≠ j →
   updateImageProgress i p (updateImageProgress j q s)
   = updateImageProgress j q (updateImageProgress i p s)).
Proof.
  split; [apply updateImageProgress_overwrite|].
  unfold updateImageProgress, set_progressState, set_images. simpl.
  intros Hij. f_equal; [|by apply insert_insert_ne].
    rewrite <- !list_fmap_compose. apply list_fmap_ext. intros k img _.
    by apply update_swap.
Qed.

End CollectionFacts.

Module FrameFacts.
Import Image Store Orchestrator Run Frame StoreFacts SettingsFacts CollectionFacts.

Lemma mapM_Forall2 {A B : Type} (f : A → Outcome B) l l' :
  mapM f l = Ok l' → Forall2 (λ x y, f x = Ok y) l l'.
Proof.
  revert l'. induction l as [|x l IH]; intros l' H; simpl in H.
  - injection H as <-. constructor.
  - destruct (f x) as [y|] eqn:E; [|done].
    destruct (mapM f l) as [ys|]; [|done].
    injection H as <-. constructor; [done|]. by apply IH.
Qed.

Lemma map_where_Forall2 i f imgs imgs' :
  map_where i f imgs = Ok imgs' →
  Forall2 (λ x y, if decide (id x = i) then f x = Ok y else y = x) imgs imgs'.
Proof.
  intros H. apply mapM_Forall2 in H.
  eapply Forall2_impl; [exact H|]. intros x y Hxy. simpl in Hxy.
  case_decide; [done|congruence].
Qed.

Lemma toProcessing_moves_on p x y : toProcessing p x = Ok y → moves_on x y.
Proof.
  unfold toProcessing. case_match; [|done]. intros [= <-]. by split.
Qed.

Lemma toCompleted_moves_on size out x y : toCompleted size out x = Ok y → moves_on x y.
Proof.
  unfold toCompleted. case_match; [|done]. intros [= <-]. by split.
Qed.

Lemma toError_moves_on x y : toError x = Ok y → moves_on x y.
Proof.
  unfold toError. case_match; [|done]. intros [= <-]. by split.
Qed.

Lemma updateProgress_identity p x : identity (updateProgress p x) = identity x.
Proof. unfold updateProgress. by case_match. Qed.

Lemma updateProgress_status p x : status (updateProgress p x) = status x.
Proof. unfold updateProgress. by case_match. Qed.

(** A relation between the store before and after that every step of a
    run on the records of [ids] keeps is kept by the run. *)
Section Keeps.

Variable R : ImageStore → ImageStore → Prop.
Variable ids : list string.

Hypothesis R_refl : ∀ s, R s s.
Hypothesis R_trans : ∀ s1 s2 s3, R s1 s2 → R s2 s3 → R s1 s3.
Hypothesis R_state : ∀ c s, R s (set_compressionState c s).
Hypothesis R_guard : ∀ b s, R s (set_isProcessing b s).
Hypothesis R_progress : ∀ i p s, i ∈ ids → R s (updateImageProgress i p s).
Hypothesis R_transition : ∀ i f s imgs,
  i ∈ ids → (∀ x y, f x = Ok y → moves_on x y) →
  map_where i f (images s) = Ok imgs → R s (set_images imgs s).

Lemma keeps_ret {A : Type} (a : A) : keeps R (ret a).
Proof. intros w. apply R_refl. Qed.

Lemma keeps_bind {A B : Type} (m : M A) (k : A → M B) :
  keeps R m → (∀ a, keeps R (k a)) → keeps R (bind m k).
Proof.
  intros Hm Hk w. unfold bind. specialize (Hm w).
  destruct (m w) as [[a|e] w']; simpl in Hm; [|done].
  eapply R_trans; [exact Hm|apply Hk].
Qed.

Lemma keeps_try_catch {A : Type} (m : M A) (h : string → M A) :
  keeps R m → (∀ e, keeps R (h e)) → keeps R (try_catch m h).
Proof.
  intros Hm Hh w. unfold try_catch. specialize (Hm w).
  destruct (m w) as [[a|e] w']; simpl in Hm; [done|].
  eapply R_trans; [exact Hm|apply Hh].
Qed.

Lemma keeps_try_finally {A : Type} (m : M A) (f : M unit) :
  keeps R m → keeps R f → keeps R (try_finally m f).
Proof.
  intros Hm Hf w. unfold try_finally. specialize (Hm w).
  destruct (m w) as [r w']. specialize (Hf w'). simpl in Hm.
  destruct (f w') as [[a|e] w'']; simpl in *; by eapply R_trans.
Qed.

Lemma keeps_set f : (∀ s, R s (f s)) → keeps R (set f).
Proof. intros Hf w. apply Hf. Qed.

Lemma keeps_log tag e : keeps R (log tag e).
Proof. intros w. apply R_refl. Qed.

Lemma keeps_set_sessions f : keeps R (set_sessions f).
Proof. intros w. apply R_refl. Qed.

Lemma keeps_settle {A : Type} (o : Outcome A) : keeps R (settle o).
Proof. intros w. apply R_refl. Qed.

Lemma externals_keep acts :
  Forall (λ a, ∀ s, R s (external a s)) acts → ∀ s, R s (externals acts s).
Proof.
  induction 1 as [|a acts Ha _ IH]; intros s; [apply R_refl|].
  simpl. eapply R_trans; [apply Ha|apply IH].
Qed.

Lemma keeps_await acts :
  Forall (λ a, ∀ s, R s (external a s)) acts → keeps R (await acts).
Proof. intros H. apply keeps_set. by apply externals_keep. Qed.

Lemma keeps_transition tag i f eff :
  i ∈ ids → (∀ x y, f x = Ok y → moves_on x y) → keeps R (transition tag i f eff).
Proof.
  intros Hi Hf w. unfold transition.
  destruct (map_where i f (images (store w))) as [imgs|e] eqn:E; simpl.
  - by eapply R_transition.
  - apply R_refl.
Qed.

Lemma keeps_completeImageProgress tag i :
  i ∈ ids → keeps R (completeImageProgress tag i).
Proof.
  intros Hi. apply keeps_bind; [apply keeps_log|]. intros _ w.
  case_decide; [|apply R_refl].
  apply keeps_bind; [|intros; apply keeps_set_sessions].
  apply keeps_set. intros s. by apply R_progress.
Qed.

Lemma keeps_errorImageProgress tag i msg : keeps R (errorImageProgress tag i msg).
Proof. apply keeps_bind; [apply keeps_log|intros; apply keeps_set_sessions]. Qed.

Lemma script_keeps_parts sc :
  script_keeps R sc →
  Forall (λ a, ∀ s, R s (external a s)) (during_start sc) ∧
  Forall (λ a, ∀ s, R s (external a s)) (during_compress sc) ∧
  Forall (λ a, ∀ s, R s (external a s)) (during_record sc) ∧
  Forall (λ a, ∀ s, R s (external a s)) (during_fallback sc).
Proof.
  unfold script_keeps, script_actions. rewrite !Forall_app. tauto.
Qed.

Lemma keeps_catch_image image e : id image ∈ ids → keeps R (catch_image image e).
Proof.
  intros Hi. unfold catch_image.
  apply keeps_bind; [apply keeps_errorImageProgress|]. intros _.
  apply keeps_bind; [|intros; apply keeps_log].
  apply keeps_transition; [done|apply toError_moves_on].
Qed.

Lemma keeps_try_image cs sc image :
  id image ∈ ids → script_keeps R sc → keeps R (try_image cs sc image).
Proof.
  intros Hi Hsc. apply script_keeps_parts in Hsc as (Hs & Hc & Hr & Hf).
  unfold try_image.
  apply keeps_bind; [by apply keeps_transition, toProcessing_moves_on|]. intros _.
  apply keeps_bind.
  { unfold startSmartProgress.
    apply keeps_bind; [apply keeps_log|]. intros _.
    apply keeps_bind; [by apply keeps_await|]. intros _.
    apply keeps_bind; [apply keeps_settle|]. intros _.
    apply keeps_set_sessions. }
  intros _. apply keeps_bind.
  { unfold invoke_compress.
    apply keeps_bind; [apply keeps_log|]. intros _.
    apply keeps_bind; [by apply keeps_await|]. intros _.
    apply keeps_bind; [apply keeps_log|]. intros _.
    apply keeps_settle. }
  intros response.
  assert (keeps R
    (errorImageProgress (id image) (id image) (error_or_default (error response)) >>
     transition (id image) (id image) toError (λ img, EToError (id img) (status img)) >>
     log (id image)
       (EToastError ("Erreur compression " ++ name image ++ ": "
                       ++ error_text (error response))))) as Hfail.
  { apply keeps_bind; [apply keeps_errorImageProgress|]. intros _.
    apply keeps_bind; [|intros; apply keeps_log].
    by apply keeps_transition, toError_moves_on. }
  destruct (success response); [|done].
  destruct (result response) as [r|]; [|done].
  apply keeps_bind; [by apply keeps_completeImageProgress|]. intros _.
  apply keeps_bind; [by apply keeps_transition, toCompleted_moves_on|]. intros _.
  apply keeps_try_catch.
  - unfold invoke_record_with_time.
    apply keeps_bind; [apply keeps_log|]. intros _.
    apply keeps_bind; [by apply keeps_await|]. intros _.
    apply keeps_settle.
  - intros _. apply keeps_try_catch; [|intros; apply keeps_ret].
    unfold invoke_record.
    apply keeps_bind; [apply keeps_log|]. intros _.
    apply keeps_bind; [by apply keeps_await|]. intros _.
    apply keeps_settle.
Qed.

Lemma keeps_for_images cs env rest :
  ∀ k, Forall (λ x, id x ∈ ids) rest →
       (∀ j, script_keeps R (env j)) →
       keeps R (for_images cs env k rest).
Proof.
  induction rest as [|image rest IH]; intros k Hids Henv; simpl.
  - apply keeps_ret.
  - apply Forall_cons in Hids as [Hi Hrest].
    apply keeps_bind.
    + apply keeps_try_catch; [by apply keeps_try_image|].
      intros e. by apply keeps_catch_image.
    + intros _. by apply IH.
Qed.

Lemma startCompression_keeps env w :
  Forall (λ x, id x ∈ ids) (snapshot (store w)) →
  (∀ j, script_keeps R (env j)) →
  R (store w) (store (startCompression env w).2).
Proof.
  intros Hids Henv. unfold startCompression, bind at 1, get.
  destruct (Store.isProcessing (store w)); [apply R_refl|].
  case_decide; [apply R_refl|].
  fold (snapshot (store w)).
  match goal with
  | |- R _ (store (?m w).2) => assert (keeps R m) as Hk; [|apply Hk]
  end.
  apply keeps_bind.
  - apply keeps_set. intros s. eapply R_trans; [apply R_guard|apply R_state].
  - intros _. apply keeps_try_finally; [|by apply keeps_set].
    apply keeps_bind; [by apply keeps_for_images|].
    intros _. by apply keeps_set.
Qed.

End Keeps.

(** *** The relations the run keeps *)

Lemma Forall2_identity (l l' : list ImageEntity) :
  Forall2 (λ x y, identity y = identity x) l l' → identity <$> l' = identity <$> l.
Proof. induction 1; [done|]. rewrite !fmap_cons. by f_equal. Qed.

Lemma Forall2_outside (ids : list string) (l l' : list ImageEntity) :
  Forall2 (λ x y, id y = id x ∧ (id x ∉ ids → y = x)) l l' →
  filter (λ img, id img ∉ ids) l' = filter (λ img, id img ∉ ids) l.
Proof.
  induction 1 as [|x y l l' [Hid Hout] _ IH]; [done|].
  rewrite !filter_cons, Hid. case_decide as Hx; [|done].
  rewrite (Hout Hx). by f_equal.
Qed.

Lemma Forall2_fmap_self {A : Type} (P : A → A → Prop) (h : A → A) (l : list A) :
  (∀ x, P x (h x)) → Forall2 P l (h <$> l).
Proof. intros H. induction l; constructor; auto. Qed.

Lemma identity_id x y : identity y = identity x → id y = id x.
Proof. unfold identity. congruence. Qed.

Lemma map_where_identity i f imgs imgs' :
  (∀ x y, f x = Ok y → moves_on x y) →
  map_where i f imgs = Ok imgs' →
  Forall2 (λ x y, identity y = identity x) imgs imgs'.
Proof.
  intros Hf H. apply map_where_Forall2 in H.
  eapply Forall2_impl; [exact H|]. intros x y Hxy. simpl in Hxy.
  case_decide; [by apply Hf in Hxy as [? _]|by subst].
Qed.

Lemma map_where_outside (ids : list string) i f imgs imgs' :
  i ∈ ids → (∀ x y, f x = Ok y → moves_on x y) →
  map_where i f imgs = Ok imgs' →
  Forall2 (λ x y, id y = id x ∧ (id x ∉ ids → y = x)) imgs imgs'.
Proof.
  intros Hi Hf H. apply map_where_Forall2 in H.
  eapply Forall2_impl; [exact H|]. intros x y Hxy. simpl in Hxy.
  case_decide as Hx; [|by subst].
  apply Hf in Hxy as [Hxy _]. split; [by apply identity_id|].
  intros Hn. by rewrite Hx in Hn.
Qed.

Lemma map_where_pending i f imgs imgs' :
  (∀ x y, f x = Ok y → moves_on x y) →
  map_where i f imgs = Ok imgs' →
  ∀ y, y ∈ imgs' → status y = Pending → y ∈ imgs.
Proof.
  intros Hf H y Hy Hp. apply map_where_Forall2 in H.
  apply list_elem_of_lookup in Hy as [k Hk].
  destruct (Forall2_lookup_r _ _ _ _ _ H Hk) as (x & Hx & Hxy).
  simpl in Hxy. case_decide.
  - by apply Hf in Hxy as [_ ?].
  - subst y. apply list_elem_of_lookup. eauto.
Qed.

Lemma update_images i p s :
  images (updateImageProgress i p s)
  = (λ img, if decide (id img = i) then updateProgress p img else img) <$> images s.
Proof. done. Qed.

Lemma event_store ev s :
  (onCompressionProgress ev s).2
  = updateImageProgress (image_id ev) (Math_round (double_mul (event_progress ev) hundred)) s
  ∨ ∃ imgs,
      stage ev = StageError ∧
      map_where (image_id ev) toError
        (images (updateImageProgress (image_id ev)
                   (Math_round (double_mul (event_progress ev) hundred)) s)) = Ok imgs ∧
      (onCompressionProgress ev s).2
      = set_images imgs
          (updateImageProgress (image_id ev)
             (Math_round (double_mul (event_progress ev) hundred)) s).
Proof.
  unfold onCompressionProgress. cbv zeta.
  destruct (stage ev); try by left.
  destruct (map_where _ _ _) as [imgs|e] eqn:E; [|by left].
  right. by exists imgs.
Qed.

(** The settings. *)

Lemma same_settings_external a s :
  is_settings_action a = false → same_settings s (external a s).
Proof.
  unfold same_settings. destruct a; try done. intros _. simpl.
  destruct (event_store ev s) as [->|(imgs & _ & _ & ->)]; done.
Qed.

(** The identities of the records. *)

Lemma same_records_update i p s : same_records s (updateImageProgress i p s).
Proof.
  unfold same_records. rewrite update_images. apply Forall2_identity.
  apply Forall2_fmap_self. intros x. case_decide; [|done].
  apply updateProgress_identity.
Qed.

Lemma same_records_transition i f s imgs :
  (∀ x y, f x = Ok y → moves_on x y) →
  map_where i f (images s) = Ok imgs → same_records s (set_images imgs s).
Proof.
  intros Hf H. unfold same_records. simpl.
  by eapply Forall2_identity, map_where_identity.
Qed.

Lemma same_records_trans s1 s2 s3 :
  same_records s1 s2 → same_records s2 s3 → same_records s1 s3.
Proof. unfold same_records. congruence. Qed.

Lemma same_records_external a s :
  resizes a = false → same_records s (external a s).
Proof.
  destruct a; try done; intros _; simpl.
  - unfold same_records. simpl. apply Forall2_identity, Forall2_fmap_self.
    intros x. by case_decide.
  - apply same_records_update.
  - destruct (event_store ev s) as [->|(imgs & _ & Himgs & ->)].
    + apply same_records_update.
    + eapply same_records_trans; [apply same_records_update|].
      eapply same_records_transition; [apply toError_moves_on|done].
Qed.

(** The records outside the snapshot. *)

Lemma untouched_update (ids : list string) i p s :
  i ∈ ids → untouched ids s (updateImageProgress i p s).
Proof.
  intros Hi. unfold untouched. rewrite update_images. apply Forall2_outside.
  apply Forall2_fmap_self. intros x. case_decide as Hx.
  - split; [apply identity_id, updateProgress_identity|].
    intros Hn. by rewrite Hx in Hn.
  - done.
Qed.

Lemma untouched_transition (ids : list string) i f s imgs :
  i ∈ ids → (∀ x y, f x = Ok y → moves_on x y) →
  map_where i f (images s) = Ok imgs → untouched ids s (set_images imgs s).
Proof.
  intros Hi Hf H. unfold untouched. simpl.
  by eapply Forall2_outside, map_where_outside.
Qed.

Lemma untouched_trans ids s1 s2 s3 :
  untouched ids s1 s2 → untouched ids s2 s3 → untouched ids s1 s3.
Proof. unfold untouched. congruence. Qed.

Lemma untouched_external ids a s :
  spares ids a = true → untouched ids s (external a s).
Proof.
  destruct a; try done; simpl; intros Ha; try apply bool_decide_eq_true in Ha.
  - unfold untouched. simpl. rewrite filter_swap.
    f_equal. apply filter_all, Forall_forall. intros x Hx Heq.
    apply list_elem_of_filter in Hx as [Hx _]. apply Hx. by rewrite Heq.
  - by apply untouched_update.
  - destruct (event_store ev s) as [->|(imgs & _ & Himgs & ->)].
    + by apply untouched_update.
    + eapply untouched_trans; [by apply untouched_update|].
      eapply untouched_transition; [done|apply toError_moves_on|done].
Qed.

(** The pending records. *)

Lemma no_new_pending_update i p s : no_new_pending s (updateImageProgress i p s).
Proof.
  intros y Hy Hp. rewrite update_images in Hy.
  apply list_elem_of_fmap in Hy as (x & -> & Hx).
  case_decide; [|done].
  rewrite updateProgress_status in Hp.
  rewrite updateProgress_other; [done|congruence].
Qed.

Lemma no_new_pending_transition i f s imgs :
  (∀ x y, f x = Ok y → moves_on x y) →
  map_where i f (images s) = Ok imgs → no_new_pending s (set_images imgs s).
Proof. intros Hf H y Hy Hp. by eapply map_where_pending. Qed.

Lemma no_new_pending_trans s1 s2 s3 :
  no_new_pending s1 s2 → no_new_pending s2 s3 → no_new_pending s1 s3.
Proof. intros H12 H23 y Hy Hp. apply H12; [by apply H23|done]. Qed.

Lemma no_new_pending_external a s :
  brings_pending a = false → no_new_pending s (external a s).
Proof.
  destruct a; try done; intros _; simpl; try (by intros y Hy _).
  - intros y Hy _. by apply list_elem_of_filter in Hy as [_ ?].
  - intros y Hy _. simpl in Hy. by apply elem_of_nil in Hy.
  - apply no_new_pending_update.
  - destruct (event_store ev s) as [->|(imgs & _ & Himgs & ->)].
    + apply no_new_pending_update.
    + eapply no_new_pending_trans; [apply no_new_pending_update|].
      eapply no_new_pending_transition; [apply toError_moves_on|done].
Qed.

Lemma arriving_keeps (R : ImageStore → ImageStore → Prop) ok env :
  (∀ a s, ok a = true → R s (external a s)) →
  arriving ok env → ∀ j, script_keeps R (env j).
Proof.
  intros Hok Henv j. unfold script_keeps.
  eapply Forall_impl; [apply Henv|]. intros a Ha s. by apply Hok.
Qed.

Lemma snapshot_ids s : Forall (λ x, id x ∈ id <$> snapshot s) (snapshot s).
Proof. apply Forall_forall. intros x Hx. apply list_elem_of_fmap. eauto. Qed.

(** X13.  A run of [startCompression] never changes the compression
    settings by itself: unless an action of the settings arrives while it
    is suspended, the settings after the run are those before it, however
    the run ends. *)
Theorem run_keeps_settings (env : Env) (w : World) :
  arriving (λ a, negb (is_settings_action a)) env →
  compressionSettings (store (startCompression env w).2)
  = compressionSettings (store w).
Proof.
  intros Henv.
  apply (startCompression_keeps same_settings (id <$> snapshot (store w)));
    try done.
  - unfold same_settings. congruence.
  - apply snapshot_ids.
  - eapply arriving_keeps; [|exact Henv].
    intros a s Ha. apply same_settings_external. by apply negb_true_iff.
Qed.

Lemma run_same_records env w :
  arriving (λ a, negb (resizes a)) env →
  same_records (store w) (store (startCompression env w).2).
Proof.
  intros Henv.
  apply (startCompression_keeps same_records (id <$> snapshot (store w)));
    try done.
  - apply same_records_trans.
  - intros. apply same_records_update.
  - intros. by eapply same_records_transition.
  - apply snapshot_ids.
  - eapply arriving_keeps; [|exact Henv].
    intros a s Ha. apply same_records_external. by apply negb_true_iff.
Qed.

Lemma run_keeps_records_ids env w :
  arriving (λ a, negb (resizes a)) env →
  id <$> images (store (startCompression env w).2) = id <$> images (store w).
Proof.
  intros Henv. pose proof (run_same_records env w Henv) as H.
  unfold same_records in H.
  apply (f_equal (fmap (λ x : string * string * string * Z * string, x.1.1.1.1))) in H.
  by rewrite <- !list_fmap_compose in H.
Qed.

(** X14.  A run never adds, removes, reorders or renames a record: unless
    an intake, a removal or a clearing arrives while it is suspended, the
    collection after the run has the same records by id, name, path, size
    and format, in the same order, whether the turns succeed, fail or the
    run is left by an exception. *)
Theorem run_keeps_records (env : Env) (w : World) :
  arriving (λ a, negb (resizes a)) env →
  identity <$> images (store (startCompression env w).2)
  = identity <$> images (store w).
Proof. apply run_same_records. Qed.

(** X15.  A run leaves the records whose id is not that of an image
    pending when it began exactly as they were (status, progress, result
    and all), as long as the actions that arrive meanwhile are changes of
    the settings or are addressed to the images of the run. *)
Theorem run_spares_other_records (env : Env) (w : World) :
  arriving (spares (id <$> snapshot (store w))) env →
  filter (λ img, id img ∉ id <$> snapshot (store w))
         (images (store (startCompression env w).2))
  = filter (λ img, id img ∉ id <$> snapshot (store w)) (images (store w)).
Proof.
  intros Henv.
  apply (startCompression_keeps (untouched (id <$> snapshot (store w)))
           (id <$> snapshot (store w))); try done.
  - apply untouched_trans.
  - intros. by apply untouched_update.
  - intros. by eapply untouched_transition.
  - apply snapshot_ids.
  - eapply arriving_keeps; [|exact Henv].
    intros a s Ha. by apply untouched_external.
Qed.

End FrameFacts.

Module OutcomeFacts.
Import Image Store Orchestrator Run Frame Getters Header.
Import StoreFacts SettingsFacts CollectionFacts TurnFacts TraceFacts FrameFacts.

Lemma settled_not_pending p sc image : status (settled p sc image) ≠ Pending.
Proof. unfold settled. by destruct (turn_result sc). Qed.

Lemma settled_completed p sc image :
  Image.isCompleted (settled p sc image) = bool_decide (is_Some (turn_result sc)).
Proof.
  unfold settled, Image.isCompleted. by destruct (turn_result sc).
Qed.

Lemma settled_by_completed xs ds :
  Forall2 settled_by xs ds →
  forallb Image.isCompleted ds
  = forallb (λ x, bool_decide (is_Some (turn_result x.1))) xs.
Proof.
  induction 1 as [|x d xs ds [p ->] _ IH]; [done|].
  simpl. by rewrite settled_completed, IH.
Qed.

Lemma settled_by_not_pending xs ds :
  Forall2 settled_by xs ds → Forall (λ d, status d ≠ Pending) ds.
Proof.
  induction 1 as [|x d xs ds [p ->] _ IH]; constructor; [|done].
  apply settled_not_pending.
Qed.

Lemma nothing_pending_noop env w :
  snapshot (store w) = [] → startCompression env w = (Ok tt, w).
Proof.
  intros Hs. unfold startCompression, bind at 1, get.
  destruct (Store.isProcessing (store w)); [done|].
  fold (snapshot (store w)). rewrite Hs. done.
Qed.

(** X16.  With nothing pending [startCompression] does nothing at all: no
    state change, no command, no notification, and the guard is not
    taken.  So it is after [clearImages], whatever the store held before
    it was cleared. *)
Theorem startCompression_nothing_pending (env : Env) (w : World) :
  (Forall (λ img, status img ≠ Pending) (images (store w)) →
   startCompression env w = (Ok tt, w)) ∧
  images (store (with_store clearImages w)) = [] ∧
  startCompression env (with_store clearImages w) = (Ok tt, with_store clearImages w).
Proof.
  split; [|split; [done|by apply nothing_pending_noop]].
  intros Hn. apply nothing_pending_noop.
  apply filter_none. eapply Forall_impl; [exact Hn|].
  intros img Hs. unfold Image.isPending. by rewrite bool_decide_eq_true.
Qed.

Lemma run_settles_pending env w :
  Store.isProcessing (store w) = false →
  NoDup (id <$> images (store w)) →
  benign_env (id <$> snapshot (store w)) env →
  arriving (λ a, negb (brings_pending a)) env →
  snapshot (store (startCompression env w).2) = [].
Proof.
  intros Hg Hnd Hb Hp.
  destruct (run_benign env w Hg Hnd Hb) as (w' & ds & Hrun & _ & Hds & Hset & _).
  rewrite Hrun. simpl.
  assert (no_new_pending (store w) (store w')) as Hnew.
  { replace w' with (startCompression env w).2 by by rewrite Hrun.
    apply (startCompression_keeps no_new_pending (id <$> snapshot (store w))).
    - by intros s y Hy _.
    - exact no_new_pending_trans.
    - by intros c s y Hy _.
    - by intros b s y Hy _.
    - intros i p s _. apply no_new_pending_update.
    - intros i f s imgs _. apply no_new_pending_transition.
    - apply snapshot_ids.
    - eapply arriving_keeps; [|exact Hp].
      intros a s Ha. apply no_new_pending_external. by apply negb_true_iff. }
  apply filter_none, Forall_forall. intros y Hy Hpend.
  apply bool_decide_eq_true in Hpend.
  assert (y ∈ snapshot (store w)) as Hsnap.
  { apply list_elem_of_filter. split; [by apply bool_decide_eq_true|].
    by apply Hnew. }
  assert (y ∈ ds) as Hin.
  { rewrite <- Hds. apply list_elem_of_filter. split; [|done].
    apply list_elem_of_fmap. eauto. }
  apply settled_by_not_pending in Hset.
  rewrite Forall_forall in Hset. by apply (Hset y).
Qed.

(** X17.  After a run in which no image is added and no reset arrives,
    no record of the store is pending, and calling [startCompression]
    again does nothing. *)
Theorem run_leaves_nothing_pending (env env' : Env) (w : World) :
  Store.isProcessing (store w) = false →
  NoDup (id <$> images (store w)) →
  benign_env (id <$> snapshot (store w)) env →
  arriving (λ a, negb (brings_pending a)) env →
  Forall (λ img, status img ≠ Pending) (images (store (startCompression env w).2)) ∧
  startCompression env' (startCompression env w).2
  = (Ok tt, (startCompression env w).2).
Proof.
  intros Hg Hnd Hb Hp.
  pose proof (run_settles_pending env w Hg Hnd Hb Hp) as Hs.
  split; [|by apply nothing_pending_noop].
  apply Forall_forall. intros y Hy Hpend.
  assert (y ∈ snapshot (store (startCompression env w).2)) as Hin.
  { apply list_elem_of_filter. split; [|done].
    unfold Image.isPending. by apply bool_decide_eq_true. }
  rewrite Hs in Hin. by apply elem_of_nil in Hin.
Qed.

(** X18.  For a collection of pending images, with no image added or
    removed meanwhile, the run ends on the success view exactly when the
    turn of every image ended with a result; if one turn failed the view
    stays the list.  In both cases the header shows the completed title. *)
Theorem view_after_run (env : Env) (w : World) :
  Store.isProcessing (store w) = false →
  NoDup (id <$> images (store w)) →
  images (store w) ≠ [] →
  Forall (λ img, status img = Pending) (images (store w)) →
  benign_env (id <$> images (store w)) env →
  arriving (λ a, negb (resizes a)) env →
  currentView (store (startCompression env w).2)
  = (if all_succeed env (images (store w)) then ViewSuccess else ViewList) ∧
  getHeaderTitle (images (store (startCompression env w).2)) = TitleCompleted.
Proof.
  intros Hg Hnd Hne Hall Hb Hr.
  assert (snapshot (store w) = images (store w)) as Hsnap.
  { apply filter_all. eapply Forall_impl; [exact Hall|].
    intros img Hs. unfold Image.isPending. by apply bool_decide_eq_true. }
  rewrite <- Hsnap in Hb.
  destruct (run_benign env w Hg Hnd Hb) as (w' & ds & Hrun & _ & Hds & Hset & _ & Hst).
  pose proof (run_keeps_records_ids env w Hr) as Hids.
  rewrite Hrun in *. simpl in *. rewrite Hsnap in *.
  assert (images (store w') = ds) as Himgs.
  { rewrite <- Hds. symmetry. apply filter_all, Forall_forall. intros y Hy.
    rewrite <- Hids. apply list_elem_of_fmap. eauto. }
  split.
  - unfold currentView. rewrite Himgs.
    rewrite decide_False.
    2:{ rewrite <- (Forall2_length _ _ _ Hset). unfold scripted.
        rewrite length_imap. by destruct (images (store w)). }
    rewrite (Hst Hne), bool_decide_eq_true_2 by done. simpl.
    by rewrite (settled_by_completed _ _ Hset).
  - unfold getHeaderTitle. rewrite Himgs.
    rewrite !filter_none; [done| |].
    + eapply Forall_impl; [apply (settled_by_not_pending _ _ Hset)|].
      intros d Hd. unfold Image.isPending. by rewrite bool_decide_eq_true.
    + eapply Forall_impl; [apply (settled_by_idle _ _ Hset)|].
      intros d Hd. unfold Image.isProcessing. by rewrite bool_decide_eq_true.
Qed.

End OutcomeFacts.

Module GetterFacts.
Import Image Store Orchestrator Intake Run Frame Getters Header.
Import StoreFacts SettingsFacts CollectionFacts TurnFacts TraceFacts FrameFacts
       OutcomeFacts.

Lemma find_image_None imageId imgs :
  find_image imageId imgs = None ↔ imageId ∉ id <$> imgs.
Proof.
  unfold find_image. induction imgs as [|x l IH]; simpl.
  - split; [intros _; apply not_elem_of_nil|done].
  - case_bool_decide as Hx.
    + split; [done|]. intros Hn. exfalso. apply Hn. rewrite <- Hx. apply list_elem_of_here.
    + rewrite IH, not_elem_of_cons. split; [intros Hl; split; [congruence|done]|].
      by intros [_ ?].
Qed.

Lemma find_image_first imageId imgs image :
  find_image imageId imgs = Some image → image ∈ imgs ∧ id image = imageId.
Proof.
  unfold find_image. induction imgs as [|x l IH]; simpl; [done|].
  case_bool_decide as Hx.
  - intros [= <-]. split; [apply list_elem_of_here|done].
  - intros H. apply IH in H as [? ?]. split; [by apply list_elem_of_further|done].
Qed.

Lemma find_image_NoDup imgs image :
  NoDup (id <$> imgs) → image ∈ imgs → find_image (id image) imgs = Some image.
Proof.
  intros Hnd Hin.
  destruct (find_image (id image) imgs) as [x|] eqn:E.
  - apply find_image_first in E as [Hx Hid].
    f_equal. by eapply NoDup_fmap_elem.
  - apply find_image_None in E. exfalso. apply E. apply list_elem_of_fmap. eauto.
Qed.

(** X19.  [compressImage] does nothing when no record carries the id,
    or when the record found under the id is not pending. *)
Theorem compressImage_not_pending (env : Env) (imageId : string) (w : World) :
  (∀ image, image ∈ images (store w) → id image = imageId → status image ≠ Pending) →
  compressImage env imageId w = (Ok tt, w).
Proof.
  intros Hn. unfold compressImage, bind, get.
  destruct (find_image imageId (images (store w))) as [image|] eqn:E; [|done].
  apply find_image_first in E as [Hin Hid].
  unfold Image.isPending. by rewrite bool_decide_eq_false_2 by by apply Hn.
Qed.

(** X20.  [compressImage] on a pending image starts the run of all the
    pending images, not of that image alone: every record that was pending
    goes to processing in the run. *)
Theorem compressImage_runs_every_pending (env : Env) (image : ImageEntity) (w : World) :
  Store.isProcessing (store w) = false →
  NoDup (id <$> images (store w)) →
  benign_env (id <$> snapshot (store w)) env →
  image ∈ images (store w) → status image = Pending →
  compressImage env (id image) w = startCompression env w ∧
  (compressImage env (id image) w).1 = Ok tt ∧
  Forall (λ other, (id other, EToProcessing (id other) Pending 0)
                     ∈ trace (compressImage env (id image) w).2)
         (snapshot (store w)).
Proof.
  intros Hg Hnd Hb Hin Hp.
  assert (compressImage env (id image) w = startCompression env w) as Heq.
  { unfold compressImage. unfold bind at 1. unfold get.
    rewrite (find_image_NoDup _ _ Hnd Hin).
    unfold Image.isPending. by rewrite bool_decide_eq_true_2. }
  rewrite Heq. split; [done|].
  destruct (run_benign env w Hg Hnd Hb) as (w' & ds & Hrun & Htr & _).
  rewrite Hrun. simpl. split; [done|].
  apply Forall_forall. intros other Ho.
  apply list_elem_of_lookup in Ho as [k Hk].
  rewrite Htr. apply elem_of_app. right.
  apply (turn_in_turns _ _ _ 0%nat k other); [done|].
  unfold turn, expected_effects. rewrite fmap_cons. apply list_elem_of_here.
Qed.

Lemma concat_fmap_filter {A B : Type} (Q : A → Prop) `{∀ x, Decision (Q x)}
    (g : A → list B) (h : A → B) (l : list A) :
  (∀ x, x ∈ l → g x = if decide (Q x) then [h x] else []) →
  concat (g <$> l) = h <$> filter Q l.
Proof.
  induction l as [|x l IH]; intros Hg; [done|].
  rewrite fmap_cons, filter_cons. simpl.
  rewrite (Hg x) by apply list_elem_of_here.
  rewrite IH by (intros y Hy; apply Hg; by apply list_elem_of_further).
  by case_decide.
Qed.

Lemma filter_filter_and {A : Type} (P Q : A → Prop)
    `{∀ x, Decision (P x)} `{∀ x, Decision (Q x)} (l : list A) :
  filter Q (filter P l) = filter (λ x, P x ∧ Q x) l.
Proof.
  induction l as [|x l IH]; [done|].
  rewrite !filter_cons. destruct (decide (P x)) as [HP|HP].
  - rewrite filter_cons. destruct (decide (Q x)) as [HQ|HQ].
    + rewrite decide_True by done. by f_equal.
    + rewrite decide_False by tauto. done.
  - rewrite decide_False by tauto. done.
Qed.

(** X21.  With distinct ids, [downloadAllImages] shows one notification
    for each completed record that has a non-empty output path, in the
    order of the collection, and none for any other record;
    [downloadImage] of an id no record carries shows nothing. *)
Theorem downloadAllImages_notifies (s : ImageStore) :
  NoDup (id <$> images s) →
  downloadAllImages s
  = (λ img, ToastSuccess (name img ++ " prêt pour téléchargement"))
      <$> filter (λ img, Image.isCompleted img = true ∧
                         outputPath img ≠ None ∧ outputPath img ≠ Some "")
                 (images s) ∧
  ∀ imageId, imageId ∉ id <$> images s → downloadImage imageId s = [].
Proof.
  intros Hnd. split.
  - unfold downloadAllImages. cbv zeta.
    rewrite <- (filter_filter_and (λ img, Image.isCompleted img = true)
                 (λ img, outputPath img ≠ None ∧ outputPath img ≠ Some "")).
    apply concat_fmap_filter. intros x Hx.
    apply list_elem_of_filter in Hx as [_ Hx].
    unfold downloadImage. rewrite (find_image_NoDup _ _ Hnd Hx).
    destruct (outputPath x) as [[|c o]|].
    + rewrite decide_False; [done|]. intros [_ ?]; done.
    + rewrite decide_True; [done|]. done.
    + rewrite decide_False; [done|]. intros [? _]; done.
  - intros imageId Hn. unfold downloadImage.
    apply find_image_None in Hn. by rewrite Hn.
Qed.


(** X22.  In [stats()] every record is counted once: the pending, the
    processing and the completed counts and the number of records in
    error add up to the total, so the three counts never exceed it; and
    with no completed record the average savings is 0. *)
Theorem stats_counts_partition (hasCompressedData : ImageEntity → bool)
    (savings : ImageEntity → option Q) (s : ImageStore) :
  (pending (stats hasCompressedData savings s)
   + processing (stats hasCompressedData savings s)
   + completed (stats hasCompressedData savings s)
   + length (filter (λ img, status img = Error) (images s))
   = total (stats hasCompressedData savings s))%nat ∧
  (completed (stats hasCompressedData savings s) = 0%nat →
   averageSavings (stats hasCompressedData savings s) = 0%Q).
Proof.
  split.
  - unfold stats. simpl. unfold Image.isPending, Image.isProcessing, Image.isCompleted.
    induction (images s) as [|img imgs IH]; [done|].
    rewrite !filter_cons. simpl length at 5. rewrite <- IH. clear IH.
    destruct (status img) eqn:E;
      repeat (case_decide as Hd;
              [try (apply bool_decide_eq_true in Hd; congruence)
              |try (rewrite bool_decide_eq_true in Hd; congruence)]);
      simpl; try lia.
  - unfold stats. simpl. by intros ->.
Qed.

End GetterFacts.

Module IntakeMore.
Import Image Store Orchestrator Intake Run Frame Getters.
Import StoreFacts IntakeFacts SettingsFacts CollectionFacts.

Lemma string_app_assoc (a b c : string) : ((a ++ b) ++ c = a ++ (b ++ c))%string.
Proof.
  induction a as [|x a IH]; [done|].
  change (String x ((a ++ b) ++ c) = String x (a ++ (b ++ c)))%string.
  by rewrite IH.
Qed.

Lemma string_app_nil_r (a : string) : (a ++ "")%string = a.
Proof.
  induction a as [|x a IH]; [done|].
  change (String x (a ++ "") = String x a)%string. by rewrite IH.
Qed.

Lemma last_segment_from_step acc c s :
  last_segment_from "/" 0 acc (String c s)
  = if decide (c = "/"%char) then last_segment_from "/" 0 "" s
    else last_segment_from "/" 0 (acc ++ String c "") s.
Proof.
  change (last_segment_from "/" 0 acc (String c s)) with
    (if String.prefix "/" (String c s)
     then last_segment_from "/" (String.length "/" - 1) "" s
     else last_segment_from "/" 0 (acc ++ String c "") s).
  change (String.prefix "/" (String c s)) with
    (match ascii_dec "/" c with
     | left _ => String.prefix "" s
     | right _ => false
     end).
  destruct (ascii_dec "/" c); case_decide; try congruence.
  by destruct s.
Qed.

Lemma last_segment_no_slash acc s :
  has_char "/" s = false →
  last_segment_from "/" 0 acc s = (acc ++ s)%string.
Proof.
  revert acc. induction s as [|c s IH]; intros acc Hs.
  - simpl. by rewrite string_app_nil_r.
  - simpl in Hs. apply orb_false_iff in Hs as [Hc Hs].
    apply bool_decide_eq_false in Hc.
    rewrite last_segment_from_step, decide_False by done.
    rewrite IH by done. by rewrite string_app_assoc.
Qed.

Lemma last_segment_after_slash acc dir s :
  last_segment_from "/" 0 acc (dir ++ String "/" s)
  = last_segment_from "/" 0 "" s.
Proof.
  revert acc. induction dir as [|c dir IH]; intros acc.
  - change ("" ++ String "/" s)%string with (String "/" s).
    by rewrite last_segment_from_step, decide_True.
  - change (String c dir ++ String "/" s)%string
      with (String c (dir ++ String "/" s)).
    rewrite last_segment_from_step. case_decide; apply IH.
Qed.

(** X23.  The name [addImages] gives to a file is the part of the path
    after its last slash. *)
Theorem file_name_after_last_slash (dir fileName : string) :
  has_char "/" fileName = false → fileName ≠ "" →
  file_name (dir ++ "/" ++ fileName) = fileName.
Proof.
  intros Hs Hne. unfold file_name, last_segment. cbv zeta.
  change ("/" ++ fileName)%string with (String "/" fileName).
  rewrite last_segment_after_slash, last_segment_no_slash by done.
  change ("" ++ fileName)%string with fileName. by rewrite decide_False.
Qed.

(** X24.  A path without a slash is taken whole as the name, so a path
    written with backslashes is not cut; the name is ['unknown'] for the
    empty path only. *)
Theorem file_name_without_slash (filePath : string) :
  has_char "/" filePath = false →
  file_name filePath = if decide (filePath = "") then "unknown" else filePath.
Proof.
  intros Hs. unfold file_name, last_segment. cbv zeta.
  rewrite last_segment_no_slash by done.
  change ("" ++ filePath)%string with filePath.
  case_decide as He; [|done]. by subst.
Qed.

Section Facts.
Variable detectImageFormat : string → string.

Lemma externals_quiet env k n s :
  quiet_intake env → externals (intake_actions env k n) s = s.
Proof.
  intros Hq. unfold intake_actions.
  assert (concat ((λ j, during_info (env j)) <$> seq k n) = []) as ->; [|done].
  induction (seq k n) as [|j l IH]; [done|].
  rewrite fmap_cons. simpl. by rewrite Hq, IH.
Qed.

Lemma build_images_ids env k paths s :
  id <$> (build_images detectImageFormat env k paths s).1
  = (λ j, temp_id (env j)) <$> seq k (length paths).
Proof.
  revert k s. induction paths as [|p rest IH]; intros k s; [done|].
  cbn [build_images]. specialize (IH (S k) (externals (during_info (env k)) s)).
  destruct (build_images detectImageFormat env (S k) rest
              (externals (during_info (env k)) s)) as [newImages s2].
  cbn [fst] in *. rewrite fmap_cons, IH. done.
Qed.

Lemma addImages_quiet env filePaths s :
  quiet_intake env →
  let unique := filter (λ p, p ∉ path <$> images s) filePaths in
  ∃ newImages,
    (addImages detectImageFormat env filePaths s).1
    = set_images (images s ++ newImages) s ∧
    path <$> newImages = unique ∧
    id <$> newImages = temp_ids env (length unique) ∧
    Forall (λ img, status img = Pending) newImages.
Proof.
  intros Hq unique.
  assert (Huniq : filter (λ p, p ∉ (list_to_set (path <$> images s) : gset string))
                    filePaths = unique).
  { apply list_filter_iff. intros p. by rewrite elem_of_list_to_set. }
  unfold addImages. rewrite Huniq. case_decide as Hlen.
  - exists []. apply nil_length_inv in Hlen. rewrite Hlen. simpl.
    rewrite app_nil_r. split; [|done]. unfold set_images. by rewrite store_eta.
  - pose proof (build_images_ids env 0 unique s) as Hids.
    destruct (build_images_spec detectImageFormat env 0 unique s)
      as (newImages & Heq & Hpaths & Hst & _).
    rewrite Heq in *. rewrite externals_quiet by done. simpl in *.
    exists newImages. by repeat split.
Qed.

(** X25.  [addImages] keeps the ids of the collection distinct when the
    ids generated for the new files are distinct and new (nothing else
    reaching the store meanwhile); the records it appends are pending and
    carry these ids in order, after the records already there. *)
Theorem addImages_keeps_ids_distinct (env : nat → IntakeScript)
    (filePaths : list string) (s : ImageStore) :
  quiet_intake env →
  NoDup (id <$> images s) →
  NoDup (temp_ids env (length filePaths)) →
  Forall (λ i, i ∉ id <$> images s) (temp_ids env (length filePaths)) →
  NoDup (id <$> images (addImages detectImageFormat env filePaths s).1) ∧
  ∃ newImages,
    images (addImages detectImageFormat env filePaths s).1 = images s ++ newImages ∧
    id <$> newImages
    = temp_ids env (length (filter (λ p, p ∉ path <$> images s) filePaths)) ∧
    Forall (λ img, status img = Pending) newImages.
Proof.
  intros Hq Hnd Hnew Hfresh.
  destruct (addImages_quiet env filePaths s Hq)
    as (newImages & Heq & Hpaths & Hids & Hst).
  rewrite Heq. simpl. split; [|by exists newImages].
  assert (temp_ids env (length (filter (λ p, p ∉ path <$> images s) filePaths))
          `sublist_of` temp_ids env (length filePaths)) as Hsub.
  { unfold temp_ids. apply fmap_sublist.
    pose proof (length_filter (λ p, p ∉ path <$> images s) filePaths) as Hle.
    replace (length filePaths)
      with (length (filter (λ p, p ∉ path <$> images s) filePaths)
            + (length filePaths
               - length (filter (λ p, p ∉ path <$> images s) filePaths)))%nat by lia.
    rewrite seq_app. apply sublist_inserts_r. done. }
  rewrite fmap_app. apply NoDup_app. split; [done|]. split.
  - intros i Hi Hin. rewrite Hids in Hin.
    rewrite Forall_forall in Hfresh. apply (Hfresh i); [|done].
    by eapply elem_of_sublist.
  - rewrite Hids. by eapply sublist_NoDup.
Qed.

(** X26.  Dropping the same files twice adds them once: after
    [handleExternalDrop] (which is [addImages]) has added the files, a
    second call with the same paths changes nothing and shows no
    notification. *)
Theorem handleExternalDrop_twice (env env' : nat → IntakeScript)
    (filePaths : list string) (s : ImageStore) :
  quiet_intake env →
  handleExternalDrop detectImageFormat env' filePaths
    (handleExternalDrop detectImageFormat env filePaths s).1
  = ((handleExternalDrop detectImageFormat env filePaths s).1, []).
Proof.
  intros Hq. unfold handleExternalDrop.
  destruct (addImages_quiet env filePaths s Hq)
    as (newImages & Heq & Hpaths & _ & _).
  rewrite Heq. unfold addImages at 1.
  rewrite decide_True; [done|].
  rewrite filter_none; [done|].
  apply Forall_forall. intros p Hp Hn. apply Hn. clear Hn.
  rewrite elem_of_list_to_set. simpl. rewrite fmap_app, Hpaths.
  apply elem_of_app.
  destruct (decide (p ∈ path <$> images s)) as [Hin|Hin]; [by left|right].
  by apply list_elem_of_filter.
Qed.

End Facts.
End IntakeMore.

Module BridgeMore.
Import Image Store Orchestrator Bridge Run Frame.
Import StoreFacts SettingsFacts CollectionFacts FrameFacts.

Lemma update_statuses i p s :
  status <$> images (updateImageProgress i p s) = status <$> images s.
Proof.
  rewrite update_images, <- list_fmap_compose. apply list_fmap_ext.
  intros k x _. simpl. case_decide; [apply updateProgress_status|done].
Qed.

(** X27.  A progress event changes neither the settings, nor the guard,
    nor the run state, nor which records the collection holds; for a
    payload that is a fraction between 0.0 and 1.0 it writes under the id
    in [progressState] the percentage [Math.round(progress * 100)], the
    product being the one of the doubles; and unless its
    stage is [Error] it changes no status and its callback does not throw:
    a [Complete] event does not complete the record. *)
Theorem progress_event_frame (ev : CompressionProgressEvent) (s : ImageStore) :
  compressionSettings (onCompressionProgress ev s).2 = compressionSettings s ∧
  Store.isProcessing (onCompressionProgress ev s).2 = Store.isProcessing s ∧
  compressionState (onCompressionProgress ev s).2 = compressionState s ∧
  identity <$> images (onCompressionProgress ev s).2 = identity <$> images s ∧
  (is_fraction (event_progress ev) = true →
   progressState (onCompressionProgress ev s).2
   = <[image_id ev := Math_round (double_mul (event_progress ev) hundred)]>
       (progressState s)) ∧
  (stage ev ≠ StageError →
   (onCompressionProgress ev s).1 = Ok tt ∧
   status <$> images (onCompressionProgress ev s).2 = status <$> images s).
Proof.
  split; [|split; [|split; [|split; [|split]]]].
  - destruct (event_store ev s) as [->|(imgs & _ & _ & ->)]; done.
  - destruct (event_store ev s) as [->|(imgs & _ & _ & ->)]; done.
  - destruct (event_store ev s) as [->|(imgs & _ & _ & ->)]; done.
  - apply (same_records_external (DoProgressEvent ev)). done.
  - intros _. destruct (event_store ev s) as [->|(imgs & _ & _ & ->)]; done.
  - intros Hst. unfold onCompressionProgress. cbv zeta.
    destruct (stage ev); try done; split; try done; apply update_statuses.
Qed.

Lemma mapM_settled {A : Type} (f : A → Outcome A) (l l' : list A) :
  Forall (λ x, f x = Ok x ∨ ∃ e, f x = Throw e) l →
  mapM f l = Ok l' → l' = l.
Proof.
  revert l'. induction l as [|x l IH]; intros l' Hall H; simpl in H.
  - by injection H as <-.
  - apply Forall_cons in Hall as [Hx Hall].
    destruct (f x) as [y|] eqn:E; [|done].
    destruct (mapM f l) as [ys|] eqn:E'; [|done].
    injection H as <-. destruct Hx as [Hx|[e Hx]]; [|done].
    injection Hx as ->. f_equal. by apply IH.
Qed.

Lemma event_result ev s :
  (onCompressionProgress ev s).2
  = match stage ev with
    | StageError =>
        match map_where (image_id ev) toError
                (images (updateImageProgress (image_id ev)
                           (Math_round (double_mul (event_progress ev) hundred)) s)) with
        | Ok imgs =>
            set_images imgs
              (updateImageProgress (image_id ev)
                 (Math_round (double_mul (event_progress ev) hundred)) s)
        | Throw _ =>
            updateImageProgress (image_id ev)
              (Math_round (double_mul (event_progress ev) hundred)) s
        end
    | _ => updateImageProgress (image_id ev)
             (Math_round (double_mul (event_progress ev) hundred)) s
    end.
Proof.
  unfold onCompressionProgress. cbv zeta.
  destruct (stage ev); try done. by destruct (map_where _ _ _).
Qed.

Lemma event_twice ev s :
  (onCompressionProgress ev (onCompressionProgress ev s).2).2
  = (onCompressionProgress ev s).2.
Proof.
  rewrite (event_result ev (onCompressionProgress ev s).2), (event_result ev s).
  set (i := image_id ev). set (p := Math_round (double_mul (event_progress ev) hundred)).
  destruct (stage ev); try apply updateImageProgress_overwrite.
  destruct (map_where i toError (images (updateImageProgress i p s)))
    as [imgs|e] eqn:E.
  - assert (Forall (λ y, id y = i → status y = Error) imgs) as Herr.
    { apply map_where_Forall2 in E. apply Forall_forall. intros y Hy Hid.
      apply list_elem_of_lookup in Hy as [k Hk].
      destruct (Forall2_lookup_r _ _ _ _ _ E Hk) as (x & _ & Hxy).
      simpl in Hxy. case_decide as Hx.
      - unfold toError in Hxy. case_match; [|done]. by injection Hxy as <-.
      - subst y. done. }
    rewrite Forall_forall in Herr.
    assert (updateImageProgress i p
              (set_images imgs (updateImageProgress i p s))
            = set_images imgs (updateImageProgress i p s)) as Hfix.
    { unfold updateImageProgress, set_progressState, set_images. simpl.
      f_equal; [|by rewrite insert_insert_eq].
      rewrite <- (list_fmap_id imgs) at 2. apply list_fmap_ext.
      intros k y Hk. simpl. case_decide as Hy; [|done].
      apply updateProgress_other. rewrite (Herr y); [done| |done].
      apply list_elem_of_lookup. eauto. }
    rewrite Hfix.
    destruct (map_where i toError
                (images (set_images imgs (updateImageProgress i p s))))
      as [imgs'|e] eqn:E'; [|done].
    apply mapM_settled in E'; [by subst|].
    apply Forall_forall. intros y Hy. simpl in Hy. case_decide as Hid; [|by left].
    right. unfold toError, Image.isProcessing.
    rewrite bool_decide_eq_false_2; [by eexists|].
    rewrite (Herr y Hy Hid). done.
  - rewrite updateImageProgress_overwrite, E. done.
Qed.

Lemma dispatch_nonempty ev (l : list nat) s :
  l ≠ [] →
  foldl (λ s _, (onCompressionProgress ev s).2) s l = (onCompressionProgress ev s).2.
Proof.
  destruct l as [|h l]; [done|]. intros _. simpl.
  induction l as [|h' l IH]; [done|]. simpl. by rewrite event_twice.
Qed.

(** X28.  However many callbacks are registered on the progress channel
    (each call of [initializeProgressListener] adds one), an event leaves
    the store as a single callback would: handling an event twice is
    handling it once. *)
Theorem duplicate_listeners_same_store (ev : CompressionProgressEvent)
    (ch : Channel) (s : ImageStore) :
  listeners ch ≠ [] →
  dispatch ev ch s = (onCompressionProgress ev s).2.
Proof. intros Hne. unfold dispatch. by apply dispatch_nonempty. Qed.

End BridgeMore.

Module DragDropFacts.
Import Bridge DragDrop.
Import StoreFacts.

Lemma listen_unlisten ch :
  well_formed ch →
  listeners (unlisten (listen ch).1 (listen ch).2) = listeners ch.
Proof.
  intros Hwf. unfold unlisten, listen. simpl.
  rewrite filter_app. rewrite filter_all.
  - rewrite filter_cons_False by (intros H; by apply H). by rewrite app_nil_r.
  - eapply Forall_impl; [exact Hwf|]. intros h Hh. simpl in Hh. lia.
Qed.

(** X29.  The drag and drop hook leaves no listener behind when the
    component is unmounted while the module is imported or after the
    setup, whatever the outcomes of the import and of the registration;
    but when it is unmounted while the registration is awaited, the
    listener stays registered: [cancelled] is not read again after that
    [await], and the cleanup ran when [unlisten] was still undefined. *)
Theorem drag_drop_listener_after_unmount (ch : Channel)
    (import_settled registration_settled : Outcome unit) :
  well_formed ch →
  listeners (window_events (lifecycle DuringImport import_settled registration_settled ch))
  = listeners ch ∧
  listeners (window_events (lifecycle AfterSetup import_settled registration_settled ch))
  = listeners ch ∧
  listeners (window_events (lifecycle DuringRegistration (Ok tt) (Ok tt) ch))
  = listeners ch ++ [next_handle ch] ∧
  listeners (window_events (lifecycle NotUnmounted (Ok tt) (Ok tt) ch))
  = listeners ch ++ [next_handle ch].
Proof.
  intros Hwf. split; [|split; [|split]].
  - by destruct import_settled, registration_settled.
  - destruct import_settled as [[]|e]; [|done].
    destruct registration_settled as [[]|e]; [|done].
    unfold lifecycle, cleanup_at, mounted, registration_settles; simpl.
    apply (listen_unlisten ch Hwf).
  - done.
  - done.
Qed.

End DragDropFacts.

Module HeaderFacts.
Import Image Store Header.
Import StoreFacts.

Lemma buttons_conditions (s : ImageStore) :
  ((length (images s) ≤ 1)%nat ∨
   Forall (λ img, status img ≠ Pending) (images s) →
   shows_clear (header_buttons s) = false ∧
   shows_start (header_buttons s) = false ∧
   shows_download_all (header_buttons s) = false) ∧
  (shows_start (header_buttons s) = true →
   start_disabled (header_buttons s) = Store.isProcessing s).
Proof.
  unfold header_buttons. cbv zeta. simpl. split.
  - intros [Hlen|Hnone].
    + assert ((1 <? length (images s))%nat = false) as ->
        by (apply Nat.ltb_ge; lia).
      by rewrite !andb_false_r.
    + rewrite (filter_none (λ img, Image.isPending img = true)); [done|].
      eapply Forall_impl; [exact Hnone|]. intros img Hs.
      unfold Image.isPending. by rewrite bool_decide_eq_true.
  - intros Hshow. apply andb_prop in Hshow as [Hp _].
    apply Nat.ltb_lt in Hp.
    assert ((length (filter (λ img, Image.isPending img = true) (images s)) =? 0)%nat
            = false) as -> by (apply Nat.eqb_neq; lia).
    by rewrite orb_false_r.
Qed.

Lemma title_priorities (imgs : list ImageEntity) :
  (getHeaderTitle imgs = TitleProcessing ↔ ∃ img, img ∈ imgs ∧ status img = Processing) ∧
  (getHeaderTitle imgs = TitlePending ↔
   (∃ img, img ∈ imgs ∧ status img = Pending) ∧
   Forall (λ img, status img ≠ Processing) imgs) ∧
  (Forall (λ img, status img = Error) imgs → getHeaderTitle imgs = TitleCompleted).
Proof.
  assert (∀ st, (0 <? length (filter (λ img, bool_decide (status img = st) = true) imgs))%nat
                = true ↔ ∃ img, img ∈ imgs ∧ status img = st) as Hex.
  { intros st. rewrite Nat.ltb_lt. split.
    - intros Hl. destruct (filter _ imgs) as [|x l] eqn:E; [simpl in Hl; lia|].
      assert (x ∈ filter (λ img, bool_decide (status img = st) = true) imgs) as Hx
        by (rewrite E; apply list_elem_of_here).
      apply list_elem_of_filter in Hx as [Hs Hx].
      apply bool_decide_eq_true in Hs. eauto.
    - intros (img & Hin & Hs).
      assert (img ∈ filter (λ img, bool_decide (status img = st) = true) imgs) as Hx.
      { apply list_elem_of_filter. split; [by apply bool_decide_eq_true|done]. }
      destruct (filter _ imgs); [by apply elem_of_nil in Hx|simpl; lia]. }
  unfold getHeaderTitle, Image.isPending, Image.isProcessing. cbv zeta.
  pose proof (Hex Processing) as Hproc. pose proof (Hex Pending) as Hpend.
  destruct (0 <? length (filter (λ img, bool_decide (status img = Processing) = true) imgs))%nat;
    [|destruct (0 <? length (filter (λ img, bool_decide (status img = Pending) = true) imgs))%nat].
  - destruct Hproc as [Hproc _]. destruct (Hproc eq_refl) as (img & Hin & Hs).
    split; [|split].
    + split; [eauto|done].
    + split; [done|]. intros [_ Hnone]. rewrite Forall_forall in Hnone.
      by apply (Hnone img) in Hin.
    + intros Herr. rewrite Forall_forall in Herr.
      rewrite (Herr img Hin) in Hs. done.
  - destruct Hpend as [Hpend _]. destruct (Hpend eq_refl) as (img & Hin & Hs).
    split; [|split].
    + split; [done|]. intros Hx. by apply Hproc in Hx.
    + split; [|done]. intros _. split; [eauto|].
      apply Forall_forall. intros x Hx Hxs.
      assert (false = true) by (apply Hproc; eauto). done.
    + intros Herr. rewrite Forall_forall in Herr.
      rewrite (Herr img Hin) in Hs. done.
  - split; [|split].
    + split; [done|]. intros Hx. by apply Hproc in Hx.
    + split; [done|]. intros [Hx _]. by apply Hpend in Hx.
    + done.
Qed.

(** X30.  The header follows the records.  Its title is the processing
    one as soon as a record is being processed, otherwise the pending one
    as soon as a record is pending, and the completed one in every other
    case, also when every record is in error.  Its buttons are rendered
    only while an image is pending and the collection has more than one
    image: with a single image, or once nothing is pending, neither the
    clear, nor the start, nor the download-all button is rendered; and a
    start button that is rendered is disabled exactly while a run is in
    progress. *)
Theorem header_follows_records (s : ImageStore) :
  (getHeaderTitle (images s) = TitleProcessing
   ↔ ∃ img, img ∈ images s ∧ status img = Processing) ∧
  (getHeaderTitle (images s) = TitlePending
   ↔ (∃ img, img ∈ images s ∧ status img = Pending) ∧
     Forall (λ img, status img ≠ Processing) (images s)) ∧
  (Forall (λ img, status img = Error) (images s) →
   getHeaderTitle (images s) = TitleCompleted) ∧
  ((length (images s) ≤ 1)%nat ∨
   Forall (λ img, status img ≠ Pending) (images s) →
   shows_clear (header_buttons s) = false ∧
   shows_start (header_buttons s) = false ∧
   shows_download_all (header_buttons s) = false) ∧
  (shows_start (header_buttons s) = true →
   start_disabled (header_buttons s) = Store.isProcessing s).
Proof.
  destruct (title_priorities (images s)) as (H1 & H2 & H3).
  destruct (buttons_conditions s) as (H4 & H5).
  split; [exact H1|]. split; [exact H2|]. split; [exact H3|].
  split; [exact H4|exact H5].
Qed.

End HeaderFacts.

(** * The guard over a run *)

Module LoopFacts.
Import Image Store Orchestrator Run Frame.
Import StoreFacts TrackedFacts TurnFacts TraceFacts FrameFacts.





End LoopFacts.

(** * Instances and scenarios *)

Module Witnesses.
Import Image Store Orchestrator Run Frame Examples.
Import GuardFacts StoreFacts RunFacts EmitFacts LoopFacts.




Lemma startCompression_while_running_witness :
  Store.isProcessing (store (fresh a_in_flight)) = true ∧
  startCompression env_mixed (fresh a_in_flight) = (Ok tt, fresh a_in_flight).
Proof.
  split; [reflexivity|].
  apply (startCompression_while_running env_mixed (fresh a_in_flight)).
  reflexivity.
Defined.




Lemma progress_event_overwrites_witness :
  is_fraction (event_progress error_event) = true ∧
  percent_of error_event = 30 ∧
  (onCompressionProgress error_event a_in_flight).1 = Ok tt ∧
  images (onCompressionProgress error_event a_in_flight).2
  = [set_status Error (in_flight (Some 30) img_a); img_b] ∧
  progressState (onCompressionProgress error_event a_in_flight).2 !! "temp_1_a"
  = Some 30.
Proof.
  destruct (progress_event_overwrites error_event a_in_flight eq_refl)
    as (_ & _ & Hstate & _ & Hok & Himgs & _).
  split; [reflexivity|]. split; [reflexivity|].
  split; [apply Hok; right; repeat constructor; discriminate|].
  split; [rewrite Himgs; reflexivity|exact Hstate].
Defined.

Lemma events_after_removal_ignored_witness :
  images (externals [DoUpdateImageProgress "temp_1_a" 40;
                     DoProgressEvent error_event]
            (removeImage "temp_1_a" a_in_flight))
  = [img_b] ∧
  (onCompressionProgress error_event
     (externals [DoUpdateImageProgress "temp_1_a" 40]
        (removeImage "temp_1_a" a_in_flight))).1 = Ok tt.
Proof.
  assert (Haddr : Forall (λ a, addressed_to "temp_1_a" a = true)
                    [DoUpdateImageProgress "temp_1_a" 40;
                     DoProgressEvent error_event]).
  { repeat constructor. }
  destruct (events_after_removal_ignored "temp_1_a" a_in_flight _ Haddr)
    as [Himgs Hquiet].
  split; [rewrite Himgs; reflexivity|].
  exact (Hquiet 1%nat error_event eq_refl).
Defined.

End Witnesses.

Module Scenarios.
Import Image Store Orchestrator Run Examples Cases.

(** C4, counterexample.  The quality is 50 when the run begins and is set
    to 70 while the first image is compressed: the command for the second
    image still carries 50, not what the settings of that moment give, and
    50 is the quality of no preset of the resolver. *)
Lemma compress_request_ignores_current_settings :
  (* the run, from the moment the turn of the second image begins *)
  startCompression env_quality_changed quality_50
  = try_finally
      (for_images (compressionSettings (store quality_50)) env_quality_changed 1%nat
         [img_b] >>
       set (set_compressionState StateCompleted))
      (set (set_isProcessing false)) when_b_begins ∧
  (* the settings of the store at that moment *)
  compressionSettings (store when_b_begins)
  = {| quality := 70; keepOriginalFormat := false |} ∧
  (* the compress commands of the run *)
  filter (λ e, is_compress e.2 = true)
    (trace (startCompression env_quality_changed quality_50).2)
  = [(id img_a,
      EInvoke (compress_image
                 {| file_path := "/pictures/a.png"; request_quality := 50;
                    request_format := "webp" |} (id img_a)));
     (id img_b,
      EInvoke (compress_image
                 {| file_path := "/pictures/b.jpg"; request_quality := 50;
                    request_format := "webp" |} (id img_b)))] ∧
  compress_request (compressionSettings (store when_b_begins)) img_b
  ≠ {| file_path := "/pictures/b.jpg"; request_quality := 50;
       request_format := "webp" |} ∧
  (* no preset resolves to the quality that was sent *)
  ∀ outputFormat level sourceFormat,
    Schema.quality
      (Schema.resolveCompressionParams outputFormat level sourceFormat) ≠ 50.
Proof.
  split; [by vm_compute|]. split; [by vm_compute|]. split; [by vm_compute|].
  split; [by vm_compute|].
  intros outputFormat level sourceFormat.
  rewrite SchemaFacts.resolve_refines_table.
  unfold Schema.spec_table, Schema.spec_effective.
  destruct outputFormat, level; simpl; repeat case_decide; simpl; lia.
Qed.



(** C7, counterexample.  An event of stage [Error] whose fraction is the
    double nearest to 0.3, addressed to a record that is pending: the
    entity refuses the transition, so the callback throws, the record is
    not in the error state, and its progress field is not written; only
    [progressState] holds the percentage. *)
Example late_error_event_refused :
  is_fraction (event_progress late_error_event) = true ∧
  (onCompressionProgress late_error_event two_pending).1 ≠ Ok tt ∧
  (λ img, (id img, status img, progress img))
    <$> images (onCompressionProgress late_error_event two_pending).2
  = [("temp_1_a", Pending, None); ("temp_2_b", Pending, None)] ∧
  progressState (onCompressionProgress late_error_event two_pending).2 !! "temp_2_b"
  = Some 30.
Proof. by vm_compute. Qed.

(** The percentage follows the product of the doubles: the double nearest
    to 0.575 times 100 is the double just below 57.5, and the percentage
    is 57; the double nearest to 0.015 times 100 is the double 1.5, and
    the percentage is 2. *)
Example percent_follows_the_doubles :
  percent_of half_way = 50 ∧
  is_fraction (event_progress at_0575) = true ∧
  double_mul (event_progress at_0575) hundred
  = S754_finite false 8092405580431359 (-47) ∧
  percent_of at_0575 = 57 ∧
  images (onCompressionProgress at_0575 a_in_flight).2
  = [in_flight (Some 57) img_a; img_b] ∧
  is_fraction (event_progress at_0015) = true ∧
  double_mul (event_progress at_0015) hundred
  = S754_finite false 6755399441055744 (-52) ∧
  percent_of at_0015 = 2.
Proof. by vm_compute. Qed.

(** An image added during the run is not part of it: it is still pending
    when the run is over, the first image failed and the second one is
    completed. *)
Example added_image_left_pending :
  (startCompression env_mixed (fresh two_pending)).1 = Ok tt ∧
  (λ img, (id img, status img))
    <$> images (store (startCompression env_mixed (fresh two_pending)).2)
  = [("temp_1_a", Error); ("temp_2_b", Completed); ("temp_3_c", Pending)].
Proof. by vm_compute. Qed.

(** Intake with one path already present, one lookup that fails and one
    that succeeds. *)
Example addImages_example :
  (λ img, (path img, originalSize img))
    <$> images (Intake.addImages (λ _, "PNG") intake_script
                  ["/pictures/a.png"; "/new/c.png"; "/new/d.png"] two_pending).1
  = [("/pictures/a.png", 1000); ("/pictures/b.jpg", 2000);
     ("/new/c.png", 0); ("/new/d.png", 4096)].
Proof. by vm_compute. Qed.

(** Two calls of [initializeProgressListener]: an event is then handled
    twice, and the second handling of an [Error] stage event is refused
    by the entity. *)
Example duplicate_listeners_handle_twice :
  length (Bridge.listeners
            (Bridge.initializeProgressListener (Ok tt)
               (Bridge.initializeProgressListener (Ok tt) Bridge.no_listener)))
  = 2%nat ∧
  status <$> images
    (Bridge.dispatch error_event
       (Bridge.initializeProgressListener (Ok tt)
          (Bridge.initializeProgressListener (Ok tt) Bridge.no_listener))
       a_in_flight)
  = [Error; Pending].
Proof. by vm_compute. Qed.

End Scenarios.

Module Instances.
Import Image Store Orchestrator Intake Bridge Run Frame Getters Header DragDrop.
Import Examples Cases.
Import SettingsFacts CollectionFacts FrameFacts OutcomeFacts GetterFacts IntakeMore
       BridgeMore DragDropFacts HeaderFacts.

Lemma two_pending_ids : NoDup (id <$> images (store (fresh two_pending))).
Proof. apply (bool_decide_unpack _). vm_compute. exact I. Defined.

Lemma one_done_ids : NoDup (id <$> images one_done).
Proof. apply (bool_decide_unpack _). vm_compute. exact I. Defined.

Lemma script_ok_benign ids : benign_env ids (λ _, script_ok).
Proof. intros k. reflexivity. Defined.

Lemma script_ok_arriving ok :
  ok (DoUpdateImageProgress "temp_1_a" 40) = true →
  arriving ok (λ _, script_ok).
Proof. intros Hok k. repeat constructor. exact Hok. Defined.

Lemma script_quiet_arriving ok : arriving ok (λ _, script_quiet).
Proof. intros k. constructor. Defined.

Lemma run_keeps_settings_witness :
  compressionSettings (store (startCompression env_mixed (fresh two_pending)).2)
  = {| quality := 80; keepOriginalFormat := false |}.
Proof.
  rewrite (run_keeps_settings env_mixed (fresh two_pending)); [reflexivity|].
  intros [|k]; repeat constructor.
Defined.

Lemma run_keeps_records_witness :
  identity <$> images (store (startCompression (λ _, script_ok) (fresh two_pending)).2)
  = [identity img_a; identity img_b].
Proof.
  rewrite (run_keeps_records (λ _, script_ok) (fresh two_pending)); [reflexivity|].
  apply script_ok_arriving. reflexivity.
Defined.

Lemma run_spares_other_records_witness :
  filter (λ img, id img ∉ ["temp_2_b"])
         (images (store (startCompression (λ _, script_quiet) (fresh one_done)).2))
  = [a_done].
Proof.
  change ["temp_2_b"] with (id <$> snapshot (store (fresh one_done))).
  rewrite (run_spares_other_records (λ _, script_quiet) (fresh one_done));
    [reflexivity|].
  apply script_quiet_arriving.
Defined.

Lemma startCompression_nothing_pending_witness :
  startCompression env_mixed (fresh all_done) = (Ok tt, fresh all_done) ∧
  startCompression env_mixed (with_store clearImages (fresh two_pending))
  = (Ok tt, with_store clearImages (fresh two_pending)).
Proof.
  destruct (startCompression_nothing_pending env_mixed (fresh all_done))
    as (Hnone & _).
  destruct (startCompression_nothing_pending env_mixed (fresh two_pending))
    as (_ & _ & Hcleared).
  split; [|exact Hcleared].
  apply Hnone. repeat constructor. discriminate.
Defined.

Lemma run_leaves_nothing_pending_witness :
  Forall (λ img, status img ≠ Pending)
    (images (store (startCompression (λ _, script_ok) (fresh two_pending)).2)) ∧
  startCompression env_mixed (startCompression (λ _, script_ok) (fresh two_pending)).2
  = (Ok tt, (startCompression (λ _, script_ok) (fresh two_pending)).2).
Proof.
  apply (run_leaves_nothing_pending (λ _, script_ok) env_mixed (fresh two_pending)).
  - reflexivity.
  - exact two_pending_ids.
  - apply script_ok_benign.
  - apply script_ok_arriving. reflexivity.
Defined.

Lemma view_after_run_witness :
  currentView (store (startCompression (λ _, script_ok) (fresh two_pending)).2)
  = ViewSuccess ∧
  getHeaderTitle (images (store (startCompression (λ _, script_ok)
                                   (fresh two_pending)).2))
  = TitleCompleted.
Proof.
  apply (view_after_run (λ _, script_ok) (fresh two_pending)).
  - reflexivity.
  - exact two_pending_ids.
  - discriminate.
  - repeat constructor.
  - apply script_ok_benign.
  - apply script_ok_arriving. reflexivity.
Defined.

Lemma compressImage_not_pending_witness :
  compressImage env_mixed "temp_1_a" (fresh one_done) = (Ok tt, fresh one_done).
Proof.
  apply (compressImage_not_pending env_mixed "temp_1_a" (fresh one_done)).
  intros image Hin Hid.
  apply elem_of_cons in Hin as [->|Hin]; [discriminate|].
  apply elem_of_cons in Hin as [->|Hin]; [discriminate Hid|].
  by apply elem_of_nil in Hin.
Defined.

Lemma compressImage_runs_every_pending_witness :
  (compressImage (λ _, script_ok) "temp_2_b" (fresh two_pending)).1 = Ok tt ∧
  Forall (λ other, (id other, EToProcessing (id other) Pending 0)
                     ∈ trace (compressImage (λ _, script_ok) "temp_2_b"
                                (fresh two_pending)).2)
         [img_a; img_b].
Proof.
  destruct (compressImage_runs_every_pending (λ _, script_ok) img_b
              (fresh two_pending) eq_refl two_pending_ids
              (script_ok_benign _)) as (_ & Hok & Hall).
  - apply list_elem_of_further, list_elem_of_here.
  - reflexivity.
  - split; [exact Hok|exact Hall].
Defined.

Lemma downloadAllImages_notifies_witness :
  downloadAllImages one_done = [ToastSuccess "a.png prêt pour téléchargement"].
Proof.
  destruct (downloadAllImages_notifies one_done one_done_ids) as [Hall _].
  rewrite Hall. reflexivity.
Defined.

Lemma file_name_after_last_slash_witness :
  file_name "/pictures/a.png" = "a.png".
Proof.
  apply (file_name_after_last_slash "/pictures" "a.png"); [reflexivity|discriminate].
Defined.

Lemma file_name_without_slash_witness :
  file_name windows_path = windows_path.
Proof.
  rewrite (file_name_without_slash windows_path); reflexivity.
Defined.

Lemma intake_script_quiet : quiet_intake intake_script.
Proof. intros k. reflexivity. Defined.

Lemma addImages_keeps_ids_distinct_witness :
  NoDup (id <$> images (addImages (λ _, "PNG") intake_script
                          ["/pictures/c.png"; "/pictures/a.png"] two_pending).1).
Proof.
  apply (addImages_keeps_ids_distinct (λ _, "PNG") intake_script
           ["/pictures/c.png"; "/pictures/a.png"] two_pending).
  - exact intake_script_quiet.
  - exact two_pending_ids.
  - apply (bool_decide_unpack _). vm_compute. exact I.
  - apply (bool_decide_unpack _). vm_compute. exact I.
Defined.

Lemma handleExternalDrop_twice_witness :
  handleExternalDrop (λ _, "PNG") intake_script ["/pictures/c.png"]
    (handleExternalDrop (λ _, "PNG") intake_script ["/pictures/c.png"] two_pending).1
  = ((handleExternalDrop (λ _, "PNG") intake_script ["/pictures/c.png"]
        two_pending).1, []).
Proof.
  apply (handleExternalDrop_twice (λ _, "PNG") intake_script intake_script
           ["/pictures/c.png"] two_pending).
  exact intake_script_quiet.
Defined.

Lemma duplicate_listeners_same_store_witness :
  listeners two_listeners = [0%nat; 1%nat] ∧
  dispatch half_way two_listeners a_in_flight
  = (onCompressionProgress half_way a_in_flight).2.
Proof.
  split; [reflexivity|].
  apply (duplicate_listeners_same_store half_way two_listeners a_in_flight).
  discriminate.
Defined.

Lemma drag_drop_listener_after_unmount_witness :
  listeners (window_events (lifecycle AfterSetup (Ok tt) (Ok tt) two_listeners))
  = [0%nat; 1%nat] ∧
  listeners (window_events (lifecycle DuringRegistration (Ok tt) (Ok tt) two_listeners))
  = [0%nat; 1%nat; 2%nat].
Proof.
  assert (well_formed two_listeners) as Hwf by (repeat constructor).
  destruct (drag_drop_listener_after_unmount two_listeners (Ok tt) (Ok tt) Hwf)
    as (_ & Hafter & Hduring & _).
  split; [exact Hafter|exact Hduring].
Defined.

End Instances.
